(** * The Marko virtual-DOM reconciler (morphdom) and its node model

    A shallow embedding of the reconciliation engine bundled in this
    repository (marko 4.14.23, [dist/morphdom], [dist/runtime/vdom],
    [dist/components]): JavaScript objects used as dictionaries become
    finite maps, mutable objects live in an explicit store that is
    threaded through every call, and every mutation of the real tree is
    recorded in a log so that statements about "which DOM calls were
    issued" can be made and proved.  A dictionary holds the properties
    that the code stores in it: a key or an attribute called like a member
    of [Object.prototype] ("constructor", "__proto__") is outside of the
    model. *)

From stdpp Require Import gmap strings list fin_maps pretty.

Open Scope string_scope.
Open Scope list_scope.
#[local] Set Warnings "-register-all".

(** ** KeySequence ([dist/components/KeySequence]) *)

Module KeySequence.

(** [this._B_]: the lookup object, a dictionary from key to a counter. *)
Definition t := gmap string nat.

(** [new KeySequence()]. *)
Definition new : gmap string nat := ∅.

(** [_i_(key)]: [lookup[key]++] reads the counter (a missing entry reads
    as NaN, which is falsy, as is [0]) and stores its successor; a falsy
    reading resets the entry to [1] and answers the bare key, any other
    reading [currentIndex] answers [key + "_" + currentIndex]. *)
Definition _i_ (key : string) (lookup : gmap string nat) : string * gmap string nat :=
  match lookup !! key with
  | Some (S _ as currentIndex) =>
      (key +:+ "_" +:+ pretty currentIndex, <[key := S currentIndex]> lookup)
  | _ => (key, <[key := 1]> lookup)
  end.




End KeySequence.

(** ** Outcomes of JavaScript calls

    A call either returns, or throws (a [TypeError] from dereferencing
    [null]/[undefined], or an explicit [throw]), or -- in the model only --
    exhausts the fuel that bounds its loops and recursion. *)

Inductive result (A : Type) : Type :=
| Ok (a : A)
| Throw (err : string)
| OutOfFuel.
Arguments Ok {A} a.
Arguments Throw {A} err.
Arguments OutOfFuel {A}.

(** ** Virtual-node construction ([dist/runtime/vdom/VNode])

    Virtual nodes are mutable objects linked by [bw_] (parent), [bz_]
    (first child), [bI_] (last child) and [bx_] (next sibling); the store
    maps object addresses to objects. *)

Module VNode.

Record obj := Obj {
  bG_ : option Z;       (* finalChildCount: a number, or null *)
  bH_ : Z;              (* number of children appended so far *)
  bz_ : option nat;     (* first child *)
  bI_ : option nat;     (* last child *)
  bw_ : option nat;     (* parent *)
  bx_ : option nat;     (* next sibling *)
  bD_ : bool;           (* isTextArea === true *)
  bC_ : option string;  (* accumulated text of a textarea *)
  bJ_ : bool;           (* the prototype flag of VText *)
  aH_ : string;         (* node value of a text or comment node *)
}.

Definition set_bH_ (v : Z) (o : obj) : obj :=
  Obj (bG_ o) v (bz_ o) (bI_ o) (bw_ o) (bx_ o) (bD_ o) (bC_ o) (bJ_ o) (aH_ o).
Definition set_bz_ (v : option nat) (o : obj) : obj :=
  Obj (bG_ o) (bH_ o) v (bI_ o) (bw_ o) (bx_ o) (bD_ o) (bC_ o) (bJ_ o) (aH_ o).
Definition set_bI_ (v : option nat) (o : obj) : obj :=
  Obj (bG_ o) (bH_ o) (bz_ o) v (bw_ o) (bx_ o) (bD_ o) (bC_ o) (bJ_ o) (aH_ o).
Definition set_bw_ (v : option nat) (o : obj) : obj :=
  Obj (bG_ o) (bH_ o) (bz_ o) (bI_ o) v (bx_ o) (bD_ o) (bC_ o) (bJ_ o) (aH_ o).
Definition set_bx_ (v : option nat) (o : obj) : obj :=
  Obj (bG_ o) (bH_ o) (bz_ o) (bI_ o) (bw_ o) v (bD_ o) (bC_ o) (bJ_ o) (aH_ o).
Definition set_bC_ (v : option string) (o : obj) : obj :=
  Obj (bG_ o) (bH_ o) (bz_ o) (bI_ o) (bw_ o) (bx_ o) (bD_ o) v (bJ_ o) (aH_ o).

(** [bv_(finalChildCount)] as run by the constructors: [VElement] passes
    its [childCount] argument and sets [bD_] from the textarea flag,
    [VText] and [VComment] pass [-1]. *)
Definition newVElement (childCount : option Z) (isTextArea : bool) : obj :=
  Obj childCount 0 None None None None isTextArea None false "".
Definition newVText (value : string) : obj :=
  Obj (Some (-1)%Z) 0 None None None None false None true value.
Definition newVComment (value : string) : obj :=
  Obj (Some (-1)%Z) 0 None None None None false None false value.

(** [new]: the object is placed at the first free address. *)
Definition alloc (o : obj) (h : gmap nat obj) : nat * gmap nat obj :=
  let a := fresh (dom h) in (a, <[a := o]> h).

(** [bn_(child)] (appendChild). The counter [bH_] is bumped first; a
    textarea accumulates the text of a text child and throws [TypeError]
    for any other child; every other node links the child after its
    current last child. *)
Definition bn_ (this child : nat) (h : gmap nat obj) : result (nat * gmap nat obj) :=
  match h !! this, h !! child with
  | Some t, Some c =>
      let h1 := alter (λ o, set_bH_ (bH_ o + 1)%Z o) this h in
      if bD_ t then
        if bJ_ c then
          let childValue := aH_ c in
          Ok (child, alter (λ o, set_bC_ (Some (default "" (bC_ o) +:+ childValue)) o) this h1)
        else Throw "TypeError"
      else
        let lastChild := bI_ t in
        let h2 := alter (set_bw_ (Some this)) child h1 in
        let h3 := match lastChild with
                  | Some l => alter (set_bx_ (Some child)) l h2
                  | None => alter (set_bz_ (Some child)) this h2
                  end in
        Ok (child, alter (set_bI_ (Some child)) this h3)
  | _, _ => Throw "TypeError"
  end.

(** [bE_()] (finishChild): climbs to the parent while the number of
    appended children equals the declared count. *)
Fixpoint bE_ (fuel : nat) (this : nat) (h : gmap nat obj) : result nat :=
  match fuel with
  | O => OutOfFuel
  | S fuel' =>
      match h !! this with
      | None => Throw "TypeError"
      | Some t =>
          match bw_ t with
          | Some parent =>
              if decide (Some (bH_ t) = bG_ t) then bE_ fuel' parent h else Ok this
          | None => Ok this
          end
      end
  end.

(** The chain of children of a node, read through [bz_] and [bx_]. *)
Fixpoint siblings (fuel : nat) (cur : option nat) (h : gmap nat obj) : list nat :=
  match fuel, cur with
  | S fuel', Some c => c :: siblings fuel' (h !! c ≫= bx_) h
  | _, _ => []
  end.
Definition childNodes (fuel : nat) (this : nat) (h : gmap nat obj) : list nat :=
  siblings fuel (h !! this ≫= bz_) h.

(** A parent declared with one child and two text nodes to append, and the
    same store once the first text node has been appended. *)
Definition one_child_heap : gmap nat obj :=
  <[2 := newVText "b"]> (<[1 := newVText "a"]> (<[0 := newVElement (Some 1%Z) false]> ∅)).
Definition full_heap : gmap nat obj :=
  <[2 := newVText "b"]>
    (<[1 := set_bw_ (Some 0) (newVText "a")]>
       (<[0 := set_bI_ (Some 1) (set_bz_ (Some 1) (set_bH_ 1%Z (newVElement (Some 1%Z) false)))]> ∅)).

End VNode.

(** ** JavaScript values held by attribute maps

    Numbers are the integer-valued ones; an object value is its address
    (its identity under [===]) together with its [JSON.stringify]
    rendering. *)

Inductive jsval :=
| JUndefined
| JNull
| JBool (b : bool)
| JNum (n : Z)
| JStr (s : string)
| JObj (addr : nat) (json : string).

Global Instance jsval_eq_dec : EqDecision jsval.
Proof. solve_decision. Defined.

(** [a === b] *)
Definition strict_eq (a b : jsval) : bool :=
  match a, b with
  | JUndefined, JUndefined => true
  | JNull, JNull => true
  | JBool x, JBool y => bool_decide (x = y)
  | JNum x, JNum y => bool_decide (x = y)
  | JStr x, JStr y => bool_decide (x = y)
  | JObj x _, JObj y _ => bool_decide (x = y)
  | _, _ => false
  end.

(** [value == null || value === false]: the values that stand for "no
    attribute". *)
Definition is_absent_value (v : jsval) : bool :=
  match v with
  | JUndefined | JNull | JBool false => true
  | _ => false
  end.

(** Truthiness of a value. *)
Definition truthy (v : jsval) : bool :=
  match v with
  | JUndefined | JNull | JBool false => false
  | JBool true => true
  | JNum n => negb (bool_decide (n = 0%Z))
  | JStr s => negb (bool_decide (s = ""))
  | JObj _ _ => true
  end.

(** [String(value)] *)
Definition toString (v : jsval) : string :=
  match v with
  | JUndefined => "undefined"
  | JNull => "null"
  | JBool true => "true"
  | JBool false => "false"
  | JNum n => pretty n
  | JStr s => s
  | JObj _ _ => "[object Object]"
  end.

(** [convertAttrValue(typeof value, value)] ([VElement]) *)
Definition convertAttrValue (v : jsval) : string :=
  match v with
  | JBool true => ""
  | JObj _ json => json
  | JNull => "null"
  | _ => toString v
  end.

(** [if (type !== "string") attrValue = convertAttrValue(type, attrValue)] *)
Definition attrValueString (v : jsval) : string :=
  match v with
  | JStr s => s
  | _ => convertAttrValue v
  end.

(** An attribute map: a JavaScript object, so an identity ([===] compares
    addresses) and its own enumerable properties in [for-in] order. *)
Inductive objAddr :=
| Addr (n : nat)                 (* an object built by the producer of the virtual tree *)
| VirtualizedAddr (node : nat).  (* the map built by [virtualizeElement] for a real node *)

Global Instance objAddr_eq_dec : EqDecision objAddr.
Proof. solve_decision. Defined.

Record attrs := Attrs {
  attrs_addr : objAddr;
  attrs_entries : list (string * jsval);
}.

Global Instance attrs_eq_dec : EqDecision attrs.
Proof. solve_decision. Defined.

(** [EMPTY_OBJECT = Object.freeze({})], shared by every element built
    without attributes ([attrs || EMPTY_OBJECT]). *)
Definition EMPTY_OBJECT : attrs := Attrs (Addr 0) [].

(** [map[name]] *)
Fixpoint get_entry (name : string) (entries : list (string * jsval)) : jsval :=
  match entries with
  | [] => JUndefined
  | (n, v) :: rest => if decide (n = name) then v else get_entry name rest
  end.
Definition attr_get (name : string) (a : attrs) : jsval := get_entry name (attrs_entries a).

(** [name in map] *)
Definition attr_in (name : string) (a : attrs) : bool :=
  bool_decide (name ∈ (attrs_entries a).*1).

Definition NS_XLINK : string := "http://www.w3.org/1999/xlink".
Definition ATTR_XLINK_HREF : string := "xlink:href".
Definition ATTR_HREF : string := "href".

Definition FLAG_IS_SVG : Z := 1.
Definition FLAG_IS_TEXTAREA : Z := 2.
Definition FLAG_SIMPLE_ATTRS : Z := 4.
Definition FLAG_PRESERVE : Z := 8.
Definition FLAG_CUSTOM_ELEMENT : Z := 16.

(** [flags & FLAG] as a condition *)
Definition has_flag (flags flag : Z) : bool := negb (bool_decide (Z.land flags flag = 0%Z)).

Definition ELEMENT_NODE : Z := 1.
Definition COMPONENT_NODE : Z := 2.
Definition TEXT_NODE : Z := 3.
Definition COMMENT_NODE : Z := 8.
Definition DOCUMENT_FRAGMENT_NODE : Z := 11.
Definition FRAGMENT_NODE : Z := 12.

(** ** Virtual nodes as the reconciler reads them

    Component instances are identified by their [id]; a key ([aE_]) is
    [null], [undefined] or a string. *)

Inductive vkey :=
| KNull
| KUndefined
| KStr (s : string).

Global Instance vkey_eq_dec : EqDecision vkey.
Proof. solve_decision. Defined.

(** Truthiness of a key, with its string when truthy. *)
Definition key_truthy (k : vkey) : option string :=
  match k with
  | KStr s => if decide (s = "") then None else Some s
  | _ => None
  end.

(** String coercion of a key ([RegExp.test], [+]). *)
Definition key_string (k : vkey) : string :=
  match k with
  | KNull => "null"
  | KUndefined => "undefined"
  | KStr s => s
  end.

Inductive vnode :=
| VElement (tagName : string) (attributes : attrs) (key : vkey)
    (ownerComponent : option string) (flags : Z) (constId : option string)
    (namespaceURI : option string) (textareaValue : option string)
    (children : list vnode)
| VText (value : string)
| VComment (value : string)
| VFragment (key : vkey) (ownerComponent : option string) (preserve : bool)
    (children : list vnode)
| VComponent (component : string) (key : vkey) (ownerComponent : option string)
    (preserve : bool) (children : list vnode)
| VDocumentFragment (children : list vnode).

(** [aD_]: the node type. *)
Definition aD_ (v : vnode) : Z :=
  match v with
  | VElement _ _ _ _ _ _ _ _ _ => ELEMENT_NODE
  | VText _ => TEXT_NODE
  | VComment _ => COMMENT_NODE
  | VFragment _ _ _ _ => FRAGMENT_NODE
  | VComponent _ _ _ _ _ => COMPONENT_NODE
  | VDocumentFragment _ => DOCUMENT_FRAGMENT_NODE
  end.

(** [aE_]: the key. *)
Definition aE_ (v : vnode) : vkey :=
  match v with
  | VElement _ _ k _ _ _ _ _ _ => k
  | VFragment k _ _ _ => k
  | VComponent _ k _ _ _ => k
  | _ => KUndefined
  end.

(** [aF_]: the owner component ([VNode.prototype.aF_] is [null]). *)
Definition aF_ (v : vnode) : option string :=
  match v with
  | VElement _ _ _ o _ _ _ _ _ => o
  | VFragment _ o _ _ => o
  | VComponent _ _ o _ _ => o
  | _ => None
  end.

(** [aB_]: the tag name, [undefined] on everything but elements. *)
Definition aB_ (v : vnode) : option string :=
  match v with
  | VElement t _ _ _ _ _ _ _ _ => Some t
  | _ => None
  end.

(** [_f_]: the flags; [undefined & FLAG] is [0]. *)
Definition _f_ (v : vnode) : Z :=
  match v with
  | VElement _ _ _ _ f _ _ _ _ => f
  | _ => 0%Z
  end.

(** [aG_]: the preserve flag of fragments and component placeholders. *)
Definition aG_ (v : vnode) : bool :=
  match v with
  | VFragment _ _ p _ => p
  | VComponent _ _ _ p _ => p
  | _ => false
  end.

(** [aI_]: the constant-id token, [None] for [undefined]. *)
Definition aI_ (v : vnode) : option string :=
  match v with
  | VElement _ _ _ _ _ c _ _ _ => c
  | _ => None
  end.

(** [bA_]: the attribute map, [undefined] on everything but elements. *)
Definition bA_ (v : vnode) : option attrs :=
  match v with
  | VElement _ a _ _ _ _ _ _ _ => Some a
  | _ => None
  end.

(** [aH_]: the value of a text or comment node. *)
Definition aH_ (v : vnode) : string :=
  match v with
  | VText s | VComment s => s
  | _ => ""
  end.

Definition raw_children (v : vnode) : list vnode :=
  match v with
  | VElement _ _ _ _ _ _ _ _ cs => cs
  | VFragment _ _ _ cs => cs
  | VComponent _ _ _ _ cs => cs
  | VDocumentFragment cs => cs
  | _ => []
  end.

(** The children as enumerated by the getters [S_] (first child) and
    [aw_] (next sibling): nested document fragments ([by_]) are entered
    and their children take their place. *)
Fixpoint flatten_node (v : vnode) : list vnode :=
  match v with
  | VDocumentFragment cs => concat (map flatten_node cs)
  | _ => [v]
  end.
Definition vchildren (v : vnode) : list vnode := concat (map flatten_node (raw_children v)).

(** [aK_(name)]: does the element carry the attribute? *)
Definition aK_ (v : vnode) (name : string) : bool :=
  match bA_ v with
  | Some a => negb (is_absent_value (attr_get name a))
  | None => false
  end.

(** [aJ_]: the value of an input or textarea. *)
Definition aJ_ (v : vnode) : string :=
  match v with
  | VElement _ a _ _ _ _ _ tv _ =>
      let value := match tv with Some s => JStr s | None => attr_get "value" a end in
      match value with
      | JUndefined | JNull =>
          if strict_eq (attr_get "type" a) (JStr "checkbox") || strict_eq (attr_get "type" a) (JStr "radio")
          then "on" else ""
      | _ => toString value
      end
  | _ => ""
  end.

(** ** The real tree

    Real nodes are browser objects: each has an address, a parent pointer
    and an ordered list of children.  A fragment ([dist/morphdom/fragment])
    is a separate JavaScript object that delimits a run of siblings by two
    empty text nodes; the variables of the reconciler hold either kind of
    object. *)

Inductive ref :=
| DomNode (n : nat)
| Fragment (f : nat).

Global Instance ref_eq_dec : EqDecision ref.
Proof. solve_decision. Defined.

Global Instance ref_countable : Countable ref.
Proof.
  refine (inj_countable' (λ r, match r with DomNode n => inl n | Fragment f => inr f end)
                         (λ s, match s with inl n => DomNode n | inr f => Fragment f end) _).
  by intros [].
Defined.

Record domNode := MkDomNode {
  nodeType : Z;
  nodeName : string;
  nodeValue : string;
  namespaceURI : string;
  node_attributes : gmap (option string * string) string;  (* by namespace and name *)
  node_properties : gmap string jsval;                     (* live properties *)
  parentNode : option nat;
  childNodes : list nat;
  node_fragment : option nat;   (* the [fragment] expando of a boundary marker *)
}.

Definition set_nodeValue (v : string) (d : domNode) : domNode :=
  MkDomNode (nodeType d) (nodeName d) v (namespaceURI d) (node_attributes d) (node_properties d)
    (parentNode d) (childNodes d) (node_fragment d).
Definition set_attributes (v : gmap (option string * string) string) (d : domNode) : domNode :=
  MkDomNode (nodeType d) (nodeName d) (nodeValue d) (namespaceURI d) v (node_properties d)
    (parentNode d) (childNodes d) (node_fragment d).
Definition set_properties (v : gmap string jsval) (d : domNode) : domNode :=
  MkDomNode (nodeType d) (nodeName d) (nodeValue d) (namespaceURI d) (node_attributes d) v
    (parentNode d) (childNodes d) (node_fragment d).
Definition set_parentNode (v : option nat) (d : domNode) : domNode :=
  MkDomNode (nodeType d) (nodeName d) (nodeValue d) (namespaceURI d) (node_attributes d) (node_properties d)
    v (childNodes d) (node_fragment d).
Definition set_childNodes (v : list nat) (d : domNode) : domNode :=
  MkDomNode (nodeType d) (nodeName d) (nodeValue d) (namespaceURI d) (node_attributes d) (node_properties d)
    (parentNode d) v (node_fragment d).
Definition set_node_fragment (v : option nat) (d : domNode) : domNode :=
  MkDomNode (nodeType d) (nodeName d) (nodeValue d) (namespaceURI d) (node_attributes d) (node_properties d)
    (parentNode d) (childNodes d) v.

(** A fragment object.  [frag_at_] is the pending [at_] closure of a
    fragment opened by [beginFragmentNode]: it remembers the [parentNode]
    and [startNode] arguments of that call. *)
Record fragmentObj := MkFragment {
  startNode : nat;
  endNode : nat;
  detachedContainer : nat;
  frag_at_ : option (option ref * option ref);
  frag_detached : bool;
}.

Definition set_frag_at_ (v : option (option ref * option ref)) (f : fragmentObj) : fragmentObj :=
  MkFragment (startNode f) (endNode f) (detachedContainer f) v (frag_detached f).
Definition set_frag_detached (v : bool) (f : fragmentObj) : fragmentObj :=
  MkFragment (startNode f) (endNode f) (detachedContainer f) (frag_at_ f) v.

(** An entry of a component's key table [v_]: a real node, or, for a
    repeated component key ending in "[]", a table by component id. *)
Inductive keyedEntry :=
| KeyedNode (r : ref)
| KeyedRepeated (m : gmap string ref).

(** A component instance ([dist/components/Component]), as far as the
    reconciler reads and writes it. *)
Record component := MkComponent {
  h_ : option ref;               (* the root fragment *)
  q_ : bool;                     (* destroyed *)
  v_ : gmap string keyedEntry;   (* keyed elements *)
}.

Definition set_h_ (v : option ref) (c : component) : component := MkComponent v (q_ c) (v_ c).
Definition set_q_ (v : bool) (c : component) : component := MkComponent (h_ c) v (v_ c).
Definition set_v_ (v : gmap string keyedEntry) (c : component) : component := MkComponent (h_ c) (q_ c) v.

(** The value kept in [detachedByDOMNode]: [ownerComponent || true]. *)
Inductive detachMark :=
| MarkTrue
| MarkOwner (c : string).

(** What the instrumented document and components record. *)
Inductive event :=
| EvInsertBefore (parent node : nat) (reference : option nat)
| EvRemoveChild (parent node : nat)
| EvSetAttribute (el : nat) (ns : option string) (name value : string)
| EvRemoveAttribute (el : nat) (ns : option string) (name : string)
| EvSetNodeValue (node : nat) (value : string)
| EvSetProperty (el : nat) (name : string) (value : jsval)
| EvDestroyCalled (c : string)
| EvLifecycle (c : string) (eventType : string).

Global Instance event_eq_dec : EqDecision event.
Proof. solve_decision. Defined.

(** The calls that change the real tree. *)
Definition is_dom_mutation (e : event) : bool :=
  match e with
  | EvDestroyCalled _ | EvLifecycle _ _ => false
  | _ => true
  end.

(** The store: the document, the side tables of [dom-data], the component
    instances and [componentLookup], and the variables of one [morphdom]
    call ([keySequences], [detachedNodes]). *)
Record state := MkState {
  nodes : gmap nat domNode;
  frags : gmap nat fragmentObj;
  keysByDOMNode : gmap ref vkey;
  vElementByDOMNode : gmap ref vnode;
  componentByDOMNode : gmap ref string;
  detachedByDOMNode : gmap ref detachMark;
  components : gmap string component;
  componentLookup : gset string;
  keySequences : gmap string (gmap string nat);
  detachedNodes : list ref;
  log : list event;
}.

Definition set_nodes (v : gmap nat domNode) (s : state) : state :=
  MkState v (frags s) (keysByDOMNode s) (vElementByDOMNode s) (componentByDOMNode s)
    (detachedByDOMNode s) (components s) (componentLookup s) (keySequences s)
    (detachedNodes s) (log s).
Definition set_frags (v : gmap nat fragmentObj) (s : state) : state :=
  MkState (nodes s) v (keysByDOMNode s) (vElementByDOMNode s) (componentByDOMNode s)
    (detachedByDOMNode s) (components s) (componentLookup s) (keySequences s)
    (detachedNodes s) (log s).
Definition set_keysByDOMNode (v : gmap ref vkey) (s : state) : state :=
  MkState (nodes s) (frags s) v (vElementByDOMNode s) (componentByDOMNode s)
    (detachedByDOMNode s) (components s) (componentLookup s) (keySequences s)
    (detachedNodes s) (log s).
Definition set_vElementByDOMNode (v : gmap ref vnode) (s : state) : state :=
  MkState (nodes s) (frags s) (keysByDOMNode s) v (componentByDOMNode s)
    (detachedByDOMNode s) (components s) (componentLookup s) (keySequences s)
    (detachedNodes s) (log s).
Definition set_componentByDOMNode (v : gmap ref string) (s : state) : state :=
  MkState (nodes s) (frags s) (keysByDOMNode s) (vElementByDOMNode s) v
    (detachedByDOMNode s) (components s) (componentLookup s) (keySequences s)
    (detachedNodes s) (log s).
Definition set_detachedByDOMNode (v : gmap ref detachMark) (s : state) : state :=
  MkState (nodes s) (frags s) (keysByDOMNode s) (vElementByDOMNode s) (componentByDOMNode s)
    v (components s) (componentLookup s) (keySequences s)
    (detachedNodes s) (log s).
Definition set_components (v : gmap string component) (s : state) : state :=
  MkState (nodes s) (frags s) (keysByDOMNode s) (vElementByDOMNode s) (componentByDOMNode s)
    (detachedByDOMNode s) v (componentLookup s) (keySequences s)
    (detachedNodes s) (log s).
Definition set_componentLookup (v : gset string) (s : state) : state :=
  MkState (nodes s) (frags s) (keysByDOMNode s) (vElementByDOMNode s) (componentByDOMNode s)
    (detachedByDOMNode s) (components s) v (keySequences s)
    (detachedNodes s) (log s).
Definition set_keySequences (v : gmap string (gmap string nat)) (s : state) : state :=
  MkState (nodes s) (frags s) (keysByDOMNode s) (vElementByDOMNode s) (componentByDOMNode s)
    (detachedByDOMNode s) (components s) (componentLookup s) v
    (detachedNodes s) (log s).
Definition set_detachedNodes (v : list ref) (s : state) : state :=
  MkState (nodes s) (frags s) (keysByDOMNode s) (vElementByDOMNode s) (componentByDOMNode s)
    (detachedByDOMNode s) (components s) (componentLookup s) (keySequences s)
    v (log s).
Definition set_log (v : list event) (s : state) : state :=
  MkState (nodes s) (frags s) (keysByDOMNode s) (vElementByDOMNode s) (componentByDOMNode s)
    (detachedByDOMNode s) (components s) (componentLookup s) (keySequences s)
    (detachedNodes s) v.

(** The render context read by one pass ([globalComponentsContext]):
    [_x_] preserved keys, [_y_] keys whose body is preserved, [_z_]
    the ids of the components rendered in the new tree, [Q_]
    [isRerenderInBrowser]. *)
Record context := MkContext {
  _x_ : gset string;
  _y_ : gset string;
  _z_ : gset string;
  Q_ : bool;
}.

(** ** The state-and-exception monad of the model *)

Definition M (A : Type) : Type := state → result (A * state).

Definition ret {A} (a : A) : M A := λ s, Ok (a, s).
Definition bind {A B} (m : M A) (f : A → M B) : M B :=
  λ s, match m s with
       | Ok (a, s') => f a s'
       | Throw e => Throw e
       | OutOfFuel => OutOfFuel
       end.
Definition throw {A} (err : string) : M A := λ _, Throw err.
Definition out_of_fuel {A} : M A := λ _, OutOfFuel.
Definition get : M state := λ s, Ok (s, s).
Definition gets {A} (f : state → A) : M A := λ s, Ok (f s, s).
Definition modify (f : state → state) : M unit := λ s, Ok (tt, f s).

Global Instance M_ret : MRet M := @ret.
Global Instance M_bind : MBind M := λ A B f m, bind m f.
Global Instance M_fmap : FMap M := λ A B f m, bind m (λ a, ret (f a)).

(** Dereferencing a possibly missing object: [undefined.x] throws. *)
Definition deref {A} (o : option A) : M A :=
  match o with
  | Some a => ret a
  | None => throw "TypeError"
  end.

Fixpoint forEach {A} (l : list A) (f : A → M unit) : M unit :=
  match l with
  | [] => ret tt
  | x :: rest => f x;; forEach rest f
  end.

Definition emit (e : event) : M unit := modify (λ s, set_log (log s ++ [e]) s).

(** ** The document: a test double of the DOM interface

    The reconciler only needs node creation, [insertBefore],
    [removeChild]/[remove], sibling and parent traversal, attribute and
    property access.  The double keeps attributes by (namespace, name) and
    live properties in a dictionary; it does not check that a node is
    inserted below itself, and document-fragment nodes are only used as
    containers. *)

Definition get_node (s : state) (n : nat) : option domNode := nodes s !! n.

Definition ref_nodeType (s : state) (r : ref) : Z :=
  match r with
  | Fragment _ => FRAGMENT_NODE
  | DomNode n => from_option nodeType 0%Z (get_node s n)
  end.

(** The element of [l] that follows [x]. *)
Fixpoint after (x : nat) (l : list nat) : option nat :=
  match l with
  | [] => None
  | y :: rest => if decide (y = x) then head rest else after x rest
  end.

(** [node.nextSibling], [node.firstChild], [node.parentNode] of a real node *)
Definition raw_nextSibling (s : state) (n : nat) : option nat :=
  d ← get_node s n; p ← parentNode d; pd ← get_node s p; after n (childNodes pd).
Definition raw_firstChild (s : state) (n : nat) : option nat :=
  d ← get_node s n; head (childNodes d).
Definition raw_parentNode (s : state) (n : nat) : option nat :=
  d ← get_node s n; parentNode d.

(** [l] with [n] placed before [reference] (at the end for [null]). *)
Fixpoint insert_before_ref (n : nat) (reference : option nat) (l : list nat) : list nat :=
  match l with
  | [] => [n]
  | y :: rest =>
      if decide (reference = Some y) then n :: y :: rest
      else y :: insert_before_ref n reference rest
  end.

(** Unlinking a node from its parent. *)
Definition unlink (n : nat) (m : gmap nat domNode) : gmap nat domNode :=
  match m !! n ≫= parentNode with
  | Some p =>
      alter (set_parentNode None) n
        (alter (λ d, set_childNodes (filter (λ c, c ≠ n) (childNodes d)) d) p m)
  | None => m
  end.

(** [parent.insertBefore(node, reference)]; [appendChild(node)] is the
    case [reference = null].  A reference that is not a child of the
    parent is [NotFoundError]; a reference equal to the node stands for
    the node's next sibling. *)
Definition dom_insertBefore (parent n : nat) (reference : option nat) : M unit :=
  s ← get;
  let reference' := if decide (reference = Some n) then raw_nextSibling s n else reference in
  match reference' with
  | Some r => if decide (raw_parentNode s r = Some parent) then ret tt else throw "NotFoundError"
  | None => ret tt
  end;;
  let m1 := unlink n (nodes s) in
  let m2 := alter (λ d, set_childNodes (insert_before_ref n reference' (childNodes d)) d) parent m1 in
  let m3 := alter (set_parentNode (Some parent)) n m2 in
  modify (set_nodes m3);;
  emit (EvInsertBefore parent n reference).

(** [parent.removeChild(node)] for the parent the node has. *)
Definition dom_remove (parent n : nat) : M unit :=
  modify (λ s, set_nodes (unlink n (nodes s)) s);;
  emit (EvRemoveChild parent n).

(** [document.createElement], [createTextNode], [createComment],
    [createDocumentFragment]: a new node at a fresh address. *)
Definition create_node (d : domNode) : M nat :=
  s ← get;
  let a := fresh (dom (nodes s)) in
  modify (set_nodes (<[a := d]> (nodes s)));;
  ret a.
Definition XHTML_NS : string := "http://www.w3.org/1999/xhtml".
Definition createElementNS (ns tag : string) : M nat :=
  create_node (MkDomNode ELEMENT_NODE tag "" ns ∅ ∅ None [] None).
Definition createElement (tag : string) : M nat := createElementNS XHTML_NS tag.
Definition createTextNode (value : string) : M nat :=
  create_node (MkDomNode TEXT_NODE "#text" value "" ∅ ∅ None [] None).
Definition createComment (value : string) : M nat :=
  create_node (MkDomNode COMMENT_NODE "#comment" value "" ∅ ∅ None [] None).
Definition createDocumentFragment : M nat :=
  create_node (MkDomNode DOCUMENT_FRAGMENT_NODE "#document-fragment" "" "" ∅ ∅ None [] None).

(** [el.setAttribute(NS)], [el.removeAttribute(NS)], [node.nodeValue = v],
    [el[name] = v] *)
Definition dom_setAttribute (el : nat) (ns : option string) (name value : string) : M unit :=
  modify (λ s, set_nodes
    (alter (λ d, set_attributes (<[(ns, name) := value]> (node_attributes d)) d) el (nodes s)) s);;
  emit (EvSetAttribute el ns name value).
Definition dom_removeAttribute (el : nat) (ns : option string) (name : string) : M unit :=
  modify (λ s, set_nodes
    (alter (λ d, set_attributes (delete (ns, name) (node_attributes d)) d) el (nodes s)) s);;
  emit (EvRemoveAttribute el ns name).
Definition dom_setNodeValue (n : nat) (value : string) : M unit :=
  modify (λ s, set_nodes (alter (set_nodeValue value) n (nodes s)) s);;
  emit (EvSetNodeValue n value).
Definition dom_setProperty (el : nat) (name : string) (value : jsval) : M unit :=
  modify (λ s, set_nodes
    (alter (λ d, set_properties (<[name := value]> (node_properties d)) d) el (nodes s)) s);;
  emit (EvSetProperty el name value).
Definition dom_getProperty (s : state) (el : nat) (name : string) : jsval :=
  default JUndefined (get_node s el ≫= λ d, node_properties d !! name).
Definition dom_getAttribute (s : state) (el : nat) (ns : option string) (name : string) : option string :=
  get_node s el ≫= λ d, node_attributes d !! (ns, name).

(** ** Fragments ([dist/morphdom/fragment]) and helpers ([dist/morphdom/helpers]) *)

Definition get_frag (s : state) (f : nat) : option fragmentObj := frags s !! f.

(** The [fragment] expando of a real node. *)
Definition fragment_of (s : state) (n : nat) : option nat := get_node s n ≫= node_fragment.

(** getter [firstChild] of a fragment *)
Definition frag_firstChild (s : state) (f : nat) : option nat :=
  fo ← get_frag s f;
  c ← raw_nextSibling s (startNode fo);
  if decide (c = endNode fo) then None else Some c.

(** getter [parentNode] of a fragment *)
Definition frag_parentNode (s : state) (f : nat) : option nat :=
  fo ← get_frag s f;
  p ← raw_parentNode s (startNode fo);
  if decide (p = detachedContainer fo) then None else Some p.

(** getter [nextSibling] of a fragment *)
Definition frag_nextSibling (s : state) (f : nat) : option nat :=
  fo ← get_frag s f; raw_nextSibling s (endNode fo).

(** The suffix of [l] that starts at [x]. *)
Fixpoint suffix_from (x : nat) (l : list nat) : list nat :=
  match l with
  | [] => []
  | y :: rest => if decide (y = x) then l else suffix_from x rest
  end.

(** The prefix of [l] up to and including [x]; [None] when [x] is not
    reached. *)
Fixpoint prefix_through (x : nat) (l : list nat) : option (list nat) :=
  match l with
  | [] => None
  | y :: rest => if decide (y = x) then Some [y] else (y ::.) <$> prefix_through x rest
  end.

(** getter [nodes] of a fragment: the walk from [startNode] along
    [nextSibling] to [endNode]; it dereferences [null] when the end marker
    is not reached. *)
Definition fragment_nodes (f : nat) : M (list nat) :=
  s ← get;
  fo ← deref (get_frag s f);
  let sibs := default [startNode fo]
    (p ← raw_parentNode s (startNode fo); pd ← get_node s p; Some (suffix_from (startNode fo) (childNodes pd))) in
  deref (prefix_through (endNode fo) sibs).

(** [next && next.fragment || next] *)
Definition wrap_fragment (s : state) (n : nat) : ref :=
  match fragment_of s n with
  | Some g => Fragment g
  | None => DomNode n
  end.

(** helper [firstChild(node)] *)
Definition firstChild (s : state) (node : ref) : option ref :=
  match node with
  | DomNode n => wrap_fragment s <$> raw_firstChild s n
  | Fragment f => wrap_fragment s <$> frag_firstChild s f
  end.

(** helper [nextSibling(node)]: a following start marker stands for its
    fragment, a following end marker for the end of the enclosing
    fragment. *)
Definition nextSibling (s : state) (node : ref) : option ref :=
  next ← match node with
         | DomNode n => raw_nextSibling s n
         | Fragment f => frag_nextSibling s f
         end;
  match fragment_of s next with
  | Some g =>
      if decide ((startNode <$> get_frag s g) = Some next) then Some (Fragment g) else None
  | None => Some (DomNode next)
  end.

(** [referenceNode && referenceNode.startNode || referenceNode] *)
Definition reference_start (s : state) (reference : option ref) : option nat :=
  match reference with
  | Some (DomNode n) => Some n
  | Some (Fragment g) => startNode <$> get_frag s g
  | None => None
  end.

(** helper [insertBefore] for a real node; a fragment as parent answers
    with its own [insertBefore] method, which inserts into the parent of
    its markers, before its end marker by default. *)
Definition insertBefore_node (n : nat) (reference : option ref) (parent : ref) : M unit :=
  s ← get;
  match parent with
  | DomNode p => dom_insertBefore p n (reference_start s reference)
  | Fragment g =>
      fo ← deref (get_frag s g);
      let actualReference :=
        match reference_start s reference with
        | None => Some (endNode fo)
        | Some r => Some r
        end in
      p ← deref (raw_parentNode s (startNode fo));
      dom_insertBefore p n actualReference
  end.

(** helper [insertBefore(node, referenceNode, parentNode)]; a fragment is
    inserted by its [insertInto], node by node. *)
Definition insertBefore (node : ref) (reference : option ref) (parent : ref) : M ref :=
  match node with
  | Fragment f =>
      ns ← fragment_nodes f;
      forEach ns (λ n, insertBefore_node n reference parent);;
      ret node
  | DomNode n => insertBefore_node n reference parent;; ret node
  end.

(** helper [insertAfter(node, referenceNode, parentNode)] *)
Definition insertAfter (node : ref) (reference : option ref) (parent : ref) : M ref :=
  s ← get;
  let next := match reference with
              | Some (DomNode n) => DomNode <$> raw_nextSibling s n
              | Some (Fragment f) => DomNode <$> frag_nextSibling s f
              | None => None
              end in
  insertBefore node next parent.

(** helper [removeChild(node)]: real nodes have [remove()], which does
    nothing for a node without a parent; a fragment moves its nodes into
    its detached container. *)
Definition removeChild (node : ref) : M unit :=
  match node with
  | DomNode n =>
      s ← get;
      match raw_parentNode s n with
      | Some p => dom_remove p n
      | None => ret tt
      end
  | Fragment f =>
      ns ← fragment_nodes f;
      fo ← (s ← get; deref (get_frag s f));
      forEach ns (λ n, dom_insertBefore (detachedContainer fo) n None)
  end.

(** [createFragmentNode(startNode, nextNode, parentNode)] *)
Definition createFragmentNode (startN nextN parent : option ref) : M nat :=
  s0 ← get;
  let f := fresh (dom (frags s0)) in
  st ← createTextNode "";
  en ← createTextNode "";
  modify (λ s, set_nodes (alter (set_node_fragment (Some f)) en
                         (alter (set_node_fragment (Some f)) st (nodes s))) s);;
  dc ← createDocumentFragment;
  modify (λ s, set_frags (<[f := MkFragment st en dc None false]> (frags s)) s);;
  s ← get;
  let parent' :=
    match parent with
    | Some p => p
    | None =>
        match startN with
        | Some (DomNode n) => from_option DomNode (DomNode dc) (raw_parentNode s n)
        | Some (Fragment g) => from_option DomNode (DomNode dc) (frag_parentNode s g)
        | None => DomNode dc
        end
    end in
  insertBefore (DomNode st) startN parent';;
  insertBefore (DomNode en) nextN parent';;
  ret f.

(** [beginFragmentNode(startNode, parentNode)]: the end marker goes to the
    end of the parent until the pending [at_] is called. *)
Definition beginFragmentNode (startN : option ref) (parent : option ref) : M nat :=
  f ← createFragmentNode startN None parent;
  modify (λ s, set_frags (alter (set_frag_at_ (Some (parent, startN))) f (frags s)) s);;
  ret f.

(** The pending [at_(nextNode)] of a fragment. *)
Definition call_at_ (f : nat) (pending : option ref * option ref) (nextN : option ref) : M unit :=
  modify (λ s, set_frags (alter (set_frag_at_ None) f (frags s)) s);;
  s ← get;
  fo ← deref (get_frag s f);
  parent ← match pending with
           | (Some p, _) => ret p
           | (None, Some (DomNode n)) => DomNode <$> deref (raw_parentNode s n)
           | (None, Some (Fragment g)) => DomNode <$> deref (frag_parentNode s g)
           | (None, None) => throw "TypeError"
           end;
  insertBefore (DomNode (endNode fo)) nextN parent;;
  ret tt.

(** ** Attribute patching: [VElement.aA_] (morphAttrs) *)

(** The calls [VElement.aA_] makes on the real element. *)
Inductive attrOp :=
| SetAttr (ns : option string) (name value : string)
| RemoveAttr (ns : option string) (name : string)
| SetProp (name : string) (value : jsval).

Global Instance attrOp_eq_dec : EqDecision attrOp.
Proof. solve_decision. Defined.

(** [VElement.bF_] (removePreservedAttributes): "by default this static
    method is a no-op"; the module that replaces it is not part of this
    bundle. *)
Definition bF_ (a : attrs) : attrs := a.

(** Where the attribute called [attrName] in a virtual map lives on the
    real element: "xlink:href" is the attribute "href" of the XLink
    namespace, any other name is an attribute without namespace. *)
Definition attr_slot (attrName : string) : option string * string :=
  if decide (attrName = ATTR_XLINK_HREF) then (Some NS_XLINK, ATTR_HREF) else (None, attrName).

(** One round of the loop over the new map. *)
Definition patch_attr (oldAttrs : attrs) (entry : string * jsval) : list attrOp :=
  let attrValue := entry.2 in
  let '(namespaceURI, attrName) := attr_slot entry.1 in
  if is_absent_value attrValue then [RemoveAttr namespaceURI attrName]
  else if negb (strict_eq (attr_get attrName oldAttrs) attrValue)
       then [SetAttr namespaceURI attrName (attrValueString attrValue)]
       else [].

(** One round of the loop over the old map. *)
Definition remove_stale_attr (newAttrs : attrs) (entry : string * jsval) : list attrOp :=
  if attr_in entry.1 newAttrs then []
  else if decide (entry.1 = ATTR_XLINK_HREF)
       then [RemoveAttr (Some ATTR_XLINK_HREF) ATTR_HREF]
       else [RemoveAttr None entry.1].

(** The comparison of the three simple attributes. *)
Definition simple_attr (oldAttrs newAttrs : attrs) (name prop : string) : list attrOp :=
  let attrValue := attr_get name newAttrs in
  if negb (strict_eq (attr_get name oldAttrs) attrValue) then [SetProp prop attrValue] else [].

(** The calls of [VElement.aA_(fromEl, vFromEl, toEl)] on [fromEl];
    [None] is a [TypeError].  Only elements carry flags and an attribute
    map; on anything else (fragments reach this function too) the map is
    [undefined], over which [for-in] does not iterate but whose properties
    cannot be read. *)
Definition morphAttrs_ops (vFromEl toEl : vnode) : option (list attrOp) :=
  let fromFlags := _f_ vFromEl in
  let toFlags := _f_ toEl in
  if has_flag toFlags FLAG_CUSTOM_ELEMENT then
    (* assign(fromEl, attrs) *)
    Some (from_option (λ a, map (λ e, SetProp e.1 e.2) (attrs_entries a)) [] (bA_ toEl))
  else
    match bA_ vFromEl, bA_ toEl with
    | Some oldAttrs, Some newAttrs =>
        if decide (attrs_addr oldAttrs = attrs_addr newAttrs) then Some []
        else
          let oldAttrs := bF_ oldAttrs in
          if has_flag toFlags FLAG_SIMPLE_ATTRS && has_flag fromFlags FLAG_SIMPLE_ATTRS then
            Some (simple_attr oldAttrs newAttrs "class" "className"
                  ++ simple_attr oldAttrs newAttrs "id" "id"
                  ++ simple_attr oldAttrs newAttrs "style" "style.cssText")%list
          else
            let newAttrs := bF_ newAttrs in
            Some ((attrs_entries newAttrs ≫= patch_attr oldAttrs)
                  ++ (if decide (aE_ toEl = KNull)
                      then attrs_entries oldAttrs ≫= remove_stale_attr newAttrs
                      else []))%list
    | Some oldAttrs, None =>
        if decide (aE_ toEl = KNull)
        then (if attrs_entries oldAttrs is [] then Some [] else None)
        else Some []
    | None, Some newAttrs =>
        if forallb (λ e, is_absent_value e.2) (attrs_entries newAttrs)
        then Some (attrs_entries newAttrs ≫= patch_attr EMPTY_OBJECT)
        else None
    | None, None => Some []
    end.

(** Property writes that the browser reflects onto attributes; any other
    property is kept in the dictionary of live properties. *)
Definition reflected_attribute (prop : string) : option string :=
  if decide (prop = "className") then Some "class"
  else if decide (prop = "id") then Some "id"
  else if decide (prop = "style.cssText") then Some "style"
  else None.

Definition dom_writeProperty (el : nat) (name : string) (value : jsval) : M unit :=
  match reflected_attribute name with
  | Some a =>
      modify (λ s, set_nodes
        (alter (λ d, set_attributes (<[(None, a) := toString value]> (node_attributes d)) d) el (nodes s)) s);;
      emit (EvSetProperty el name value)
  | None => dom_setProperty el name value
  end.

Definition apply_attrOp (el : ref) (op : attrOp) : M unit :=
  match el with
  | DomNode n =>
      match op with
      | SetAttr ns name value => dom_setAttribute n ns name value
      | RemoveAttr ns name => dom_removeAttribute n ns name
      | SetProp name value => dom_writeProperty n name value
      end
  | Fragment _ =>
      match op with
      | SetProp _ _ => ret tt      (* an expando on the fragment object *)
      | _ => throw "TypeError"     (* a fragment has no setAttribute *)
      end
  end.

(** [VElement.aA_(fromEl, vFromEl, toEl)] *)
Definition morphAttrs (fromEl : ref) (vFromEl toEl : vnode) : M unit :=
  modify (λ s, set_vElementByDOMNode (<[fromEl := toEl]> (vElementByDOMNode s)) s);;
  ops ← deref (morphAttrs_ops vFromEl toEl);
  forEach ops (apply_attrOp fromEl).

(** The attribute of the real element that a call writes or removes. *)
Definition op_target (op : attrOp) : option (option string * string) :=
  match op with
  | SetAttr ns name _ => Some (ns, name)
  | RemoveAttr ns name => Some (ns, name)
  | SetProp name _ => (λ a, (None, a)) <$> reflected_attribute name
  end.

(** The calls among [ops] that touch the attribute [name] (no namespace). *)
Definition ops_on (name : string) (ops : list attrOp) : list attrOp :=
  filter (λ op, op_target op = Some (None, name)) ops.

(** Elements used as examples: a pair flagged with simple attributes
    whose class goes from "a" to [null], a keyed pair flagged with simple
    attributes whose class disappears from the map, and the pair whose
    class goes from "a" to "b" while the id stays "x". *)
Definition div (a : attrs) (key : vkey) (flags : Z) : vnode :=
  VElement "DIV" a key None flags None None None [].
Definition simple_class_a : vnode := div (Attrs (Addr 1) [("class", JStr "a")]) KNull FLAG_SIMPLE_ATTRS.
Definition simple_class_null : vnode := div (Attrs (Addr 2) [("class", JNull)]) KNull FLAG_SIMPLE_ATTRS.
Definition keyed_simple_class_a : vnode :=
  div (Attrs (Addr 1) [("class", JStr "a")]) (KStr "k") FLAG_SIMPLE_ATTRS.
Definition keyed_simple_no_class : vnode :=
  div (Attrs (Addr 2) [("id", JStr "x")]) (KStr "k") FLAG_SIMPLE_ATTRS.
Definition keyed_class_a_id_x : vnode :=
  div (Attrs (Addr 1) [("class", JStr "a"); ("id", JStr "x")]) (KStr "k") 0.
Definition keyed_class_b : vnode := div (Attrs (Addr 2) [("class", JStr "b")]) (KStr "k") 0.
Definition class_a_id_x : vnode :=
  div (Attrs (Addr 1) [("class", JStr "a"); ("id", JStr "x")]) KNull 0.
Definition class_b_id_x : vnode :=
  div (Attrs (Addr 2) [("class", JStr "b"); ("id", JStr "x")]) KNull 0.

(** A document that holds one element [<div class="a">] at address 0. *)
Definition empty_state : state := MkState ∅ ∅ ∅ ∅ ∅ ∅ ∅ ∅ ∅ [] [].
Definition div_class_a_state : state :=
  set_nodes {[ 0 := MkDomNode ELEMENT_NODE "DIV" "" XHTML_NS {[ (None, "class") := "a" ]} ∅ None [] None ]}
    empty_state.

(** ** Components: [destroy], [y_] and [destroyNodeRecursive] *)

Definition get_component (s : state) (c : string) : component :=
  default (MkComponent None false ∅) (components s !! c).

Definition update_component (c : string) (f : component → component) : M unit :=
  modify (λ s, set_components (<[c := f (get_component s c)]> (components s)) s).

(** [emitLifecycleEvent(component, eventType)]: the handler and the
    listeners are application code; the model records the emission. *)
Definition emitLifecycleEvent (c : string) (eventType : string) : M unit :=
  emit (EvLifecycle c eventType).

(** [Component.prototype.y_] *)
Definition y_ (c : string) : M unit :=
  s ← get;
  if q_ (get_component s c) then ret tt
  else
    emitLifecycleEvent c "destroy";;
    update_component c (set_q_ true);;
    s ← get;
    root ← deref (h_ (get_component s c));           (* a WeakMap key must be an object *)
    modify (λ s, set_componentByDOMNode (delete root (componentByDOMNode s)) s);;
    update_component c (set_h_ None).

(** [destroyComponentForNode(node)] *)
Definition destroyComponentForNode (node : ref) : M unit :=
  s ← get;
  let r := match node with
           | DomNode n => wrap_fragment s n
           | Fragment _ => node
           end in
  match componentByDOMNode s !! r with
  | Some c =>
      y_ c;;
      modify (λ s, set_componentLookup (componentLookup s ∖ {[c]}) s)
  | None => ret tt
  end.

(** [/\[\]$/.test(key)] *)
Definition is_repeated_key (key : string) : bool :=
  bool_decide (2 ≤ String.length key)%nat &&
  bool_decide (String.substring (String.length key - 2) 2 key = "[]").

(** The children visited by [destroyNodeRecursive]: from [node.firstChild]
    along [nextSibling] up to [node.endNode]. *)
Fixpoint take_until (x : nat) (l : list nat) : list nat :=
  match l with
  | [] => []
  | y :: rest => if decide (y = x) then [] else y :: take_until x rest
  end.
Definition children_to_destroy (s : state) (node : ref) : list nat :=
  match node with
  | DomNode n => from_option childNodes [] (get_node s n)
  | Fragment f =>
      match get_frag s f with
      | Some fo =>
          match frag_firstChild s f with
          | Some c =>
              take_until (endNode fo)
                (suffix_from c (default [] (p ← raw_parentNode s c; childNodes <$> get_node s p)))
          | None => []
          end
      | None => []
      end
  end.

(** [destroyNodeRecursive(node, component)] *)
Fixpoint destroyNodeRecursive (fuel : nat) (node : ref) (comp : option string) : M unit :=
  match fuel with
  | O => out_of_fuel
  | S fuel' =>
      destroyComponentForNode node;;
      s ← get;
      if bool_decide (ref_nodeType s node = ELEMENT_NODE ∨ ref_nodeType s node = FRAGMENT_NODE) then
        match comp, key_truthy (default KUndefined (keysByDOMNode s !! node)) with
        | Some c, Some key =>
            match v_ (get_component s c) !! key with
            | Some (KeyedNode r) =>
                if decide (r = node) then
                  if bool_decide (is_Some (componentByDOMNode s !! node)) && is_repeated_key key
                  then ret tt    (* deletes a property of the node itself *)
                  else update_component c (λ co, set_v_ (delete key (v_ co)) co)
                else ret tt
            | _ => ret tt
            end
        | _, _ => ret tt
        end;;
        s ← get;
        forEach (children_to_destroy s node) (λ child, destroyNodeRecursive fuel' (DomNode child) comp)
      else ret tt
  end.

(** [Component.prototype.destroy] *)
Definition destroy (fuel : nat) (c : string) : M unit :=
  emit (EvDestroyCalled c);;
  s ← get;
  if q_ (get_component s c) then ret tt
  else
    root ← deref (h_ (get_component s c));
    ns ← match root with
         | Fragment f => fragment_nodes f
         | DomNode _ => throw "TypeError"
         end;
    y_ c;;
    forEach ns (λ n,
      destroyNodeRecursive fuel (DomNode n) None;;
      s ← get;
      p ← deref (raw_parentNode s n);
      dom_remove p n);;
    match root with
    | Fragment f => modify (λ s, set_frags (alter (set_frag_detached true) f (frags s)) s)
    | DomNode _ => ret tt
    end;;
    modify (λ s, set_componentLookup (componentLookup s ∖ {[c]}) s);;
    update_component c (λ co, set_v_ ∅ (set_h_ None co)).

(** ** Materialising a virtual node: [aC_(doc)] *)

Definition materialize_attr (el : nat) (entry : string * jsval) : M unit :=
  if is_absent_value entry.2 then ret tt
  else dom_setAttribute el (attr_slot entry.1).1 (attr_slot entry.1).2 (attrValueString entry.2).

Definition aC_ (v : vnode) : M ref :=
  match v with
  | VElement tagName attributes _ _ flags _ ns _ _ =>
      el ← match ns with
           | Some u => createElementNS u tagName
           | None => createElement tagName
           end;
      (if has_flag flags FLAG_CUSTOM_ELEMENT then
         forEach (attrs_entries attributes) (λ e, dom_writeProperty el e.1 e.2)
       else
         forEach (attrs_entries attributes) (materialize_attr el);;
         if has_flag flags FLAG_IS_TEXTAREA
         then dom_writeProperty el "value" (JStr (aJ_ v))
         else ret tt);;
      modify (λ s, set_vElementByDOMNode (<[DomNode el := v]> (vElementByDOMNode s)) s);;
      ret (DomNode el)
  | VText value => DomNode <$> createTextNode value
  | VComment value => DomNode <$> createComment value
  | VFragment key _ _ _ =>
      f ← createFragmentNode None None None;
      modify (λ s, set_keysByDOMNode (<[Fragment f := key]> (keysByDOMNode s)) s);;
      modify (λ s, set_vElementByDOMNode (<[Fragment f := v]> (vElementByDOMNode s)) s);;
      ret (Fragment f)
  | VDocumentFragment _ => DomNode <$> createDocumentFragment
  | VComponent _ _ _ _ _ => throw "TypeError"
  end.

(** [virtualizeElement(node)], as the reconciler calls it (without
    [virtualizeChildNodes]). *)
Definition is_xmlns (name : string) : bool :=
  bool_decide (name = "xmlns") || String.prefix "xmlns:" name.

Definition virtualizeElement (s : state) (n : nat) : vnode :=
  let d := default (MkDomNode ELEMENT_NODE "" "" "" ∅ ∅ None [] None) (get_node s n) in
  let entries :=
    omap (λ a, let '((ns, name), value) := a in
               if is_xmlns name || bool_decide (name = "data-marko") then None
               else if decide (ns = Some NS_XLINK) then Some (ATTR_XLINK_HREF, JStr value)
               else Some (name, JStr value))
         (map_to_list (node_attributes d)) in
  let a := if decide (map_to_list (node_attributes d) = []) then EMPTY_OBJECT
           else Attrs (VirtualizedAddr n) entries in
  let isTextArea := bool_decide (nodeName d = "TEXTAREA") in
  VElement (nodeName d) a KNull None
    (if isTextArea then FLAG_IS_TEXTAREA else 0%Z) None
    (if decide (namespaceURI d = XHTML_NS) then None else Some (namespaceURI d))
    (if isTextArea then Some (toString (dom_getProperty s n "value")) else None)
    [].

(** ** Special elements ([dist/morphdom/specialElHandlers]) *)

(** [property != string] *)
Definition loose_ne (v : jsval) (str : string) : bool :=
  match v with
  | JUndefined | JNull => true
  | _ => negb (bool_decide (toString v = str))
  end.

Definition syncBooleanAttrProp (fromEl : nat) (toEl : vnode) (name : string) : M unit :=
  s ← get;
  let target := aK_ toEl name in
  if strict_eq (dom_getProperty s fromEl name) (JBool target) then ret tt
  else
    dom_setProperty fromEl name (JBool target);;
    if target then dom_setAttribute fromEl None name ""
    else dom_removeAttribute fromEl None name.

Definition sync_value (fromEl : nat) (newValue : string) : M unit :=
  s ← get;
  if loose_ne (dom_getProperty s fromEl "value") newValue
  then dom_setProperty fromEl "value" (JStr newValue)
  else ret tt.

Definition selected_option (toEl : vnode) : Z :=
  (fold_left (λ acc child,
      if decide (aB_ child = Some "OPTION")
      then (acc.1 + 1, if aK_ child "selected" then acc.1 + 1 else acc.2)%Z
      else acc) (vchildren toEl) ((-1)%Z, 0%Z)).2.

(** [specialElHandlers[nodeName]]: the module exports handlers for four
    node names. *)
Definition specialElHandler (nodeName : option string) (fromEl : nat) (toEl : vnode) : M unit :=
  if decide (nodeName = Some "OPTION") then syncBooleanAttrProp fromEl toEl "selected"
  else if decide (nodeName = Some "INPUT") then
    syncBooleanAttrProp fromEl toEl "checked";;
    syncBooleanAttrProp fromEl toEl "disabled";;
    sync_value fromEl (aJ_ toEl);;
    s ← get;
    if bool_decide (is_Some (dom_getAttribute s fromEl None "value")) && negb (aK_ toEl "value")
    then dom_removeAttribute fromEl None "value"
    else ret tt
  else if decide (nodeName = Some "TEXTAREA") then
    let newValue := aJ_ toEl in
    sync_value fromEl newValue;;
    s ← get;
    match raw_firstChild s fromEl with
    | Some fc =>
        let oldValue := from_option nodeValue "" (get_node s fc) in
        if bool_decide (oldValue = newValue)
           || (bool_decide (newValue = "")
               && negb (loose_ne (dom_getProperty s fromEl "placeholder") oldValue))
        then ret tt
        else dom_setNodeValue fc newValue
    | None => ret tt
    end
  else if decide (nodeName = Some "SELECT") then
    if aK_ toEl "multiple" then ret tt
    else
      s ← get;
      let selected := selected_option toEl in
      if strict_eq (dom_getProperty s fromEl "selectedIndex") (JNum selected) then ret tt
      else dom_setProperty fromEl "selectedIndex" (JNum selected)
  else ret tt.

(** ** The reconciler ([dist/morphdom/index]) *)

(** [isAutoKey(key)]: [!/^@/.test(key)] *)
Definition isAutoKey (key : string) : bool := negb (String.prefix "@" key).

(** [compareNodeNames(fromEl, toEl)] *)
Definition compareNodeNames (fromEl toEl : vnode) : bool := bool_decide (aB_ fromEl = aB_ toEl).

(** [key.replace(pattern, "")]: the first occurrence is removed. *)
Fixpoint remove_first (pat s : string) : string :=
  if String.prefix pat s
  then String.substring (String.length pat) (String.length s - String.length pat) s
  else match s with
       | EmptyString => EmptyString
       | String c rest => String c (remove_first pat rest)
       end.

(** [normalizeComponentKey(key, parentId)] *)
Definition normalizeComponentKey (key parentId : string) : string :=
  if String.prefix "#" key then remove_first ("#" +:+ parentId +:+ "-") key else key.

(** [addComponentRootToKeyedElements(keyedElements, key, rootNode, componentId)] *)
Definition addComponentRootToKeyedElements (owner key : string) (rootNode : ref) (componentId : string) : M unit :=
  update_component owner (λ co,
    if is_repeated_key key then
      match v_ co !! key with
      | Some (KeyedRepeated m) => set_v_ (<[key := KeyedRepeated (<[componentId := rootNode]> m)]> (v_ co)) co
      | Some (KeyedNode _) => co      (* the property lands on the node found there *)
      | None => set_v_ (<[key := KeyedRepeated {[componentId := rootNode]}]> (v_ co)) co
      end
    else set_v_ (<[key := KeyedNode rootNode]> (v_ co)) co).

(** [component.v_[key] = node] *)
Definition register_key (c : option string) (key : string) (node : ref) : M unit :=
  c' ← deref c;
  update_component c' (λ co, set_v_ (<[key := KeyedNode node]> (v_ co)) co).

(** The local variables of [morphChildren] that survive from one round of
    its loops to the next. *)
Record vars := MkVars {
  curFromNodeChild : option ref;
  fromNextSibling : option ref;
  curFromNodeKey : vkey;
}.

(** [(curToNodeChild._f_ & FLAG_PRESERVE) === 0 && !curToNodeChild.aG_] *)
Definition not_preserved (v : vnode) : bool :=
  negb (has_flag (_f_ v) FLAG_PRESERVE) && negb (aG_ v).

(** The first comment "F/" among [l]; the search dereferences [null] when
    there is none. *)
Definition find_fragment_end (s : state) (l : list nat) : option nat :=
  List.find (λ n, bool_decide (from_option nodeType 0%Z (get_node s n) = COMMENT_NODE)
                  && bool_decide (from_option nodeValue "" (get_node s n) = "F/")) l.

Section Morph.

Variable ctx : context.
(** The bound on the rounds of each loop and on [destroyNodeRecursive]. *)
Variable fuel : nat.
(** The recursive call [morphChildren(fromNode, toNode, parentComponent)]. *)
Variable morphChildren_rec : ref → vnode → option string → M unit.

Definition destroyComponent (c : string) : M unit := destroy fuel c.

(** [detachNode(node, parentNode, ownerComponent)] *)
Definition detachNode (node : ref) (parentN : ref) (ownerComponent : option string) : M unit :=
  s ← get;
  if bool_decide (ref_nodeType s node = ELEMENT_NODE ∨ ref_nodeType s node = FRAGMENT_NODE) then
    modify (λ s, set_detachedNodes (detachedNodes s ++ [node]) s);;
    modify (λ s, set_detachedByDOMNode
      (<[node := from_option MarkOwner MarkTrue ownerComponent]> (detachedByDOMNode s)) s)
  else
    destroyNodeRecursive fuel node None;;
    removeChild node.

(** [morphEl(fromEl, vFromEl, toEl, toElKey, ownerComponent, parentComponent)] *)
Definition morphEl (fromEl : ref) (vFromEl toEl : vnode) (toElKey : vkey)
    (ownerComponent parentComponent : option string) : M unit :=
  let nodeName := aB_ toEl in
  match Q_ ctx, key_truthy toElKey with
  | true, Some k => register_key ownerComponent k fromEl
  | _, _ => ret tt
  end;;
  let constId := aI_ toEl in
  if bool_decide (constId ≠ None) && bool_decide (aI_ vFromEl = constId) then ret tt
  else
    morphAttrs fromEl vFromEl toEl;;
    if from_option (λ k, bool_decide (k ∈ _y_ ctx)) false (key_truthy toElKey) then ret tt
    else
      (if decide (nodeName = Some "TEXTAREA") then ret tt
       else morphChildren_rec fromEl toEl parentComponent);;
      match fromEl with
      | DomNode n => specialElHandler nodeName n toEl
      | Fragment _ => ret tt
      end.

(** [insertVirtualNodeBefore(vNode, key, referenceEl, parentEl, ownerComponent, parentComponent)];
    [onNodeAdded] ends in [eventDelegation._I_], a no-op in this bundle. *)
Definition insertVirtualNodeBefore (vNode : vnode) (key : vkey) (referenceEl : option ref)
    (parentEl : ref) (ownerComponent parentComponent : option string) : M unit :=
  realNode ← aC_ vNode;
  insertBefore realNode referenceEl parentEl;;
  if bool_decide (aD_ vNode = ELEMENT_NODE ∨ aD_ vNode = FRAGMENT_NODE) then
    match key_truthy key with
    | Some k =>
        modify (λ s, set_keysByDOMNode (<[realNode := KStr k]> (keysByDOMNode s)) s);;
        register_key (if isAutoKey k then parentComponent else ownerComponent) k realNode
    | None => ret tt
    end;;
    morphChildren_rec realNode vNode parentComponent
  else ret tt.

(** [morphComponent(component, vComponent)] *)
Definition morphComponent (c : string) (vComponent : vnode) : M unit :=
  s ← get;
  root ← deref (h_ (get_component s c));
  morphChildren_rec root vComponent (Some c).

(** The registration of a keyed component root shared by the two ways a
    new component is mounted. *)
Definition register_component_root (key : vkey) (ownerComponent parentComponent : option string)
    (rootNode : ref) (c : string) : M unit :=
  match key_truthy key, ownerComponent with
  | Some k, Some owner =>
      parentId ← deref parentComponent;
      let k' := normalizeComponentKey k parentId in
      addComponentRootToKeyedElements owner k' rootNode c;;
      modify (λ s, set_keysByDOMNode (<[rootNode := KStr k']> (keysByDOMNode s)) s)
  | _, _ => ret tt
  end.

(** [insertVirtualComponentBefore(vComponent, referenceNode, referenceNodeParentEl,
    component, key, ownerComponent, parentComponent)] *)
Definition insertVirtualComponentBefore (vComponent : vnode) (referenceNode : option ref)
    (referenceNodeParentEl : ref) (c : string) (key : vkey)
    (ownerComponent parentComponent : option string) : M unit :=
  f ← createFragmentNode None None None;
  rootNode ← insertBefore (Fragment f) referenceNode referenceNodeParentEl;
  update_component c (set_h_ (Some rootNode));;
  modify (λ s, set_componentByDOMNode (<[rootNode := c]> (componentByDOMNode s)) s);;
  register_component_root key ownerComponent parentComponent rootNode c;;
  morphComponent c vComponent.

(** One round of the outer loop for a component placeholder.  The answer
    tells whether the target child was consumed (the [continue] after a
    stale component at the cursor was destroyed keeps it). *)
Definition component_step (fromNode : ref) (parentComponent : option string)
    (curToNodeChild : vnode) (c : string) (vs : vars) : M (bool * vars) :=
  let cur := curFromNodeChild vs in
  let curToNodeKey := aE_ curToNodeChild in
  let ownerComponent := match aF_ curToNodeChild with Some o => Some o | None => parentComponent end in
  s ← get;
  if bool_decide (c ∉ componentLookup s) then
    if Q_ ctx then
      f ← beginFragmentNode cur (Some fromNode);
      let rootNode := Fragment f in
      update_component c (set_h_ (Some rootNode));;
      modify (λ s, set_componentByDOMNode (<[rootNode := c]> (componentByDOMNode s)) s);;
      register_component_root curToNodeKey ownerComponent parentComponent rootNode c;;
      morphComponent c curToNodeChild;;
      s ← get;
      ret (true, MkVars (nextSibling s rootNode) (fromNextSibling vs) (curFromNodeKey vs))
    else
      insertVirtualComponentBefore curToNodeChild cur fromNode c curToNodeKey ownerComponent parentComponent;;
      ret (true, vs)
  else
    let matching_h_ := h_ (get_component s c) in
    if bool_decide (matching_h_ ≠ cur) then
      match cur ≫= (λ cn, componentByDOMNode s !! cn) with
      | Some fromComponent =>
          if bool_decide (fromComponent ∉ _z_ ctx) then
            (* the component at the cursor was not rendered: destroy it and retry *)
            root ← deref (h_ (get_component s fromComponent));
            let next := nextSibling s root in
            destroyComponent fromComponent;;
            ret (false, MkVars next (fromNextSibling vs) (curFromNodeKey vs))
          else
            root ← deref matching_h_;
            insertBefore root cur fromNode;;
            (if aG_ curToNodeChild then ret tt else morphComponent c curToNodeChild);;
            ret (true, vs)
      | None =>
          root ← deref matching_h_;
          insertBefore root cur fromNode;;
          (if aG_ curToNodeChild then ret tt else morphComponent c curToNodeChild);;
          ret (true, vs)
      end
    else
      let vs' := MkVars (cur ≫= nextSibling s) (fromNextSibling vs) (curFromNodeKey vs) in
      (if aG_ curToNodeChild then ret tt else morphComponent c curToNodeChild);;
      ret (true, vs').

(** The resolution of the key of a keyed target child: the owner id is
    appended to an automatic key that crosses a component boundary, the
    reference component is chosen, and its [KeySequence] (created on first
    use) disambiguates the key. *)
Definition resolve_key (parentComponent ownerComponent : option string) (key : string)
    : M (string * string) :=
  scoped ← (if isAutoKey key then
              if decide (ownerComponent = parentComponent) then ret (key, parentComponent)
              else (o ← deref ownerComponent; ret (key +:+ ":" +:+ o, parentComponent))
            else ret (key, ownerComponent));
  referenceComponent ← deref scoped.2;
  s ← get;
  let keySequence := default KeySequence.new (keySequences s !! referenceComponent) in
  let '(resolved, keySequence') := KeySequence._i_ scoped.1 keySequence in
  modify (set_keySequences (<[referenceComponent := keySequence']> (keySequences s)));;
  ret (resolved, referenceComponent).

(** [toNextSibling && toNextSibling.aE_ === curFromNodeKey] *)
Definition peek_matches (toNextSibling : option vnode) (key : vkey) : bool :=
  match toNextSibling with
  | Some n => bool_decide (aE_ n = key)
  | None => false
  end.

(** The relocation of the real node found under the key of the target
    child when it is not the node at the cursor (the node is compatible and
    the target is not preserved).  Answers the new [fromNextSibling]. *)
Definition relocate_match (fromNode : ref) (ownerComponent : option string)
    (matchingFromEl : ref) (toNextSibling : option vnode) (vs : vars) : M (option ref) :=
  let cur := curFromNodeChild vs in
  if decide (fromNextSibling vs = Some matchingFromEl) then
    if peek_matches toNextSibling (curFromNodeKey vs) then
      (* single element swap *)
      insertBefore matchingFromEl cur fromNode;;
      ret cur
    else
      (* single element removal *)
      s ← get;
      let next := nextSibling s matchingFromEl in
      match cur with
      | Some c => detachNode c fromNode ownerComponent
      | None => ret tt
      end;;
      ret next
  else
    insertAfter matchingFromEl cur fromNode;;
    match cur with
    | Some c => detachNode c fromNode ownerComponent
    | None => ret tt
    end;;
    ret (fromNextSibling vs).

(** The keyed target child finds its key in the table of the reference
    component. *)
Definition keyed_match (fromNode : ref) (parentComponent ownerComponent : option string)
    (curToNodeChild : vnode) (curToNodeKey : string) (toNextSibling : option vnode)
    (matchingFromEl : ref) (vs : vars) : M (option ref) :=
  modify (λ s, set_detachedByDOMNode (delete matchingFromEl (detachedByDOMNode s)) s);;
  let cur := curFromNodeChild vs in
  if not_preserved curToNodeChild then
    s ← get;
    curVFromNodeChild ← deref (vElementByDOMNode s !! matchingFromEl);
    if compareNodeNames curVFromNodeChild curToNodeChild then
      next ← relocate_match fromNode ownerComponent matchingFromEl toNextSibling vs;
      (if has_flag (_f_ curToNodeChild) FLAG_PRESERVE then ret tt
       else morphEl matchingFromEl curVFromNodeChild curToNodeChild (KStr curToNodeKey)
              ownerComponent parentComponent);;
      ret next
    else
      insertVirtualNodeBefore curToNodeChild (KStr curToNodeKey) cur fromNode ownerComponent parentComponent;;
      detachNode matchingFromEl fromNode ownerComponent;;
      ret (fromNextSibling vs)
  else
    (* preserve the node, but the node at the cursor still has to be diffed *)
    insertBefore matchingFromEl cur fromNode;;
    ret cur.

(** The keyed target child whose key is unknown to the reference
    component, while the server-rendered tree is being adopted
    ([isRerenderInBrowser]): a real element of the same name, or a
    fragment delimited by comments, is adopted.  Answers the cursor after
    the adopted node, or [None] when nothing could be adopted. *)
Definition adopt_keyed (fromNode : ref) (parentComponent ownerComponent : option string)
    (referenceComponent : string) (curToNodeChild : vnode)
    (curToNodeKey curToNodeKeyOriginal : string) (c : ref) (next : option ref)
    : M (option (option ref)) :=
  s ← get;
  match c with
  | DomNode n =>
      let d := get_node s n in
      if bool_decide (ref_nodeType s c = ELEMENT_NODE)
         && bool_decide (Some (from_option nodeName "" d) = aB_ curToNodeChild) then
        let curVFromNodeChild := virtualizeElement s n in
        modify (λ s, set_keysByDOMNode (<[c := KStr curToNodeKey]> (keysByDOMNode s)) s);;
        morphEl c curVFromNodeChild curToNodeChild (KStr curToNodeKey) ownerComponent parentComponent;;
        ret (Some next)
      else if bool_decide (aD_ curToNodeChild = FRAGMENT_NODE)
              && bool_decide (ref_nodeType s c = COMMENT_NODE)
              && bool_decide (from_option nodeValue "" d = "F#" +:+ curToNodeKeyOriginal) then
        let sibs := default [n] (p ← raw_parentNode s n; pd ← get_node s p; Some (suffix_from n (childNodes pd))) in
        endN ← deref (find_fragment_end s sibs);
        f ← createFragmentNode (Some c) (DomNode <$> raw_nextSibling s endN) (Some fromNode);
        let fragment := Fragment f in
        modify (λ s, set_keysByDOMNode (<[fragment := KStr curToNodeKey]> (keysByDOMNode s)) s);;
        modify (λ s, set_vElementByDOMNode (<[fragment := curToNodeChild]> (vElementByDOMNode s)) s);;
        register_key (Some referenceComponent) curToNodeKey fragment;;
        removeChild c;;
        removeChild (DomNode endN);;
        (if aG_ curToNodeChild then ret tt
         else morphChildren_rec fragment curToNodeChild parentComponent);;
        s ← get;
        ret (Some (DomNode <$> frag_nextSibling s f))
      else ret None
  | Fragment _ => ret None
  end.

(** One round of the outer loop for a keyed target child. *)
Definition keyed_step (fromNode : ref) (parentComponent : option string)
    (curToNodeChild : vnode) (curToNodeKeyOriginal : string) (toNextSibling : option vnode)
    (vs : vars) : M vars :=
  let ownerComponent := match aF_ curToNodeChild with Some o => Some o | None => parentComponent end in
  '(curToNodeKey, referenceComponent) ← resolve_key parentComponent ownerComponent curToNodeKeyOriginal;
  s ← get;
  let cur := curFromNodeChild vs in
  let vs := match cur with
            | Some c => MkVars cur (nextSibling s c) (default KUndefined (keysByDOMNode s !! c))
            | None => MkVars cur (fromNextSibling vs) KUndefined
            end in
  let curVFromNodeChild := cur ≫= (λ c, vElementByDOMNode s !! c) in
  if decide (curFromNodeKey vs = KStr curToNodeKey) then
    (* the elements line up *)
    (if not_preserved curToNodeChild then
       match cur with
       | Some c =>
           vFrom ← deref curVFromNodeChild;
           if compareNodeNames curToNodeChild vFrom then
             morphEl c vFrom curToNodeChild (KStr curToNodeKey) ownerComponent parentComponent
           else
             detachNode c fromNode ownerComponent;;
             insertVirtualNodeBefore curToNodeChild (KStr curToNodeKey) cur fromNode ownerComponent parentComponent
       | None => ret tt
       end
     else ret tt);;
    ret (MkVars (fromNextSibling vs) (fromNextSibling vs) (curFromNodeKey vs))
  else
    match v_ (get_component s referenceComponent) !! curToNodeKey with
    | None =>
        adopted ← match Q_ ctx, cur with
                  | true, Some c =>
                      adopt_keyed fromNode parentComponent ownerComponent referenceComponent
                        curToNodeChild curToNodeKey curToNodeKeyOriginal c (fromNextSibling vs)
                  | _, _ => ret None
                  end;
        match adopted with
        | Some next => ret (MkVars next (fromNextSibling vs) (curFromNodeKey vs))
        | None =>
            insertVirtualNodeBefore curToNodeChild (KStr curToNodeKey) cur fromNode ownerComponent parentComponent;;
            ret (MkVars cur cur (curFromNodeKey vs))
        end
    | Some (KeyedNode matchingFromEl) =>
        next ← keyed_match fromNode parentComponent ownerComponent curToNodeChild curToNodeKey
                 toNextSibling matchingFromEl vs;
        ret (MkVars next next (curFromNodeKey vs))
    | Some (KeyedRepeated _) => throw "TypeError"
    end.

(** One real child met by the inner loop of an unkeyed target child.
    [None]: the real child is skipped untouched; [Some true]: it is
    compatible and was patched; [Some false]: it is not compatible. *)
Definition try_match (parentComponent ownerComponent : option string) (curToNodeChild : vnode)
    (c : ref) (key : vkey) : M (option bool * vkey) :=
  s ← get;
  let curFromNodeType := ref_nodeType s c in
  if decide (curFromNodeType = aD_ curToNodeChild) then
    if decide (curFromNodeType = ELEMENT_NODE) then
      match vElementByDOMNode s !! c, c with
      | None, DomNode n =>
          if Q_ ctx then
            let vFrom := virtualizeElement s n in
            if compareNodeNames vFrom curToNodeChild then
              morphEl c vFrom curToNodeChild (aE_ curToNodeChild) ownerComponent parentComponent;;
              ret (Some true, key)
            else ret (Some false, key)
          else ret (None, key)     (* skip over nodes that don't look like ours *)
      | None, Fragment _ => ret (None, key)
      | Some vFrom, _ =>
          let key := aE_ vFrom in
          if bool_decide (key_truthy key = None) && compareNodeNames vFrom curToNodeChild then
            morphEl c vFrom curToNodeChild (aE_ curToNodeChild) ownerComponent parentComponent;;
            ret (Some true, key)
          else ret (Some false, key)
      end
    else if bool_decide (curFromNodeType = TEXT_NODE ∨ curFromNodeType = COMMENT_NODE) then
      match c with
      | DomNode n =>
          (if decide (from_option nodeValue "" (get_node s n) = aH_ curToNodeChild) then ret tt
           else dom_setNodeValue n (aH_ curToNodeChild));;
          ret (Some true, key)
      | Fragment _ => ret (Some false, key)
      end
    else ret (Some false, key)
  else ret (Some false, key).

(** The inner loop of an unkeyed target child.  Answers whether a match
    was found, and the variables at the exit. *)
Fixpoint scan (n : nat) (fromNode : ref) (parentComponent ownerComponent : option string)
    (curToNodeChild : vnode) (vs : vars) : M (bool * vars) :=
  match curFromNodeChild vs with
  | None => ret (false, vs)
  | Some c =>
      match n with
      | O => out_of_fuel
      | S n' =>
          s ← get;
          let next := nextSibling s c in
          match componentByDOMNode s !! c with
          | Some fromComponent =>
              (if bool_decide (fromComponent ∈ _z_ ctx) then ret tt
               else destroyComponent fromComponent);;
              scan n' fromNode parentComponent ownerComponent curToNodeChild
                (MkVars next next (curFromNodeKey vs))
          | None =>
              '(compatible, key) ← try_match parentComponent ownerComponent curToNodeChild c (curFromNodeKey vs);
              match compatible with
              | Some true => ret (true, MkVars next next key)
              | None =>
                  scan n' fromNode parentComponent ownerComponent curToNodeChild (MkVars next next key)
              | Some false =>
                  match key_truthy key with
                  | Some k =>
                      if bool_decide (k ∈ _x_ ctx) then ret tt
                      else detachNode c fromNode ownerComponent
                  | None => detachNode c fromNode ownerComponent
                  end;;
                  scan n' fromNode parentComponent ownerComponent curToNodeChild (MkVars next next key)
              end
          end
      end
  end.

(** One round of the outer loop for an unkeyed target child that is not a
    component. *)
Definition unkeyed_step (fromNode : ref) (parentComponent : option string)
    (curToNodeChild : vnode) (vs : vars) : M vars :=
  let ownerComponent := match aF_ curToNodeChild with Some o => Some o | None => parentComponent end in
  '(matched, vs') ← scan fuel fromNode parentComponent ownerComponent curToNodeChild vs;
  if (matched : bool) then ret vs'
  else
    insertVirtualNodeBefore curToNodeChild (aE_ curToNodeChild) (curFromNodeChild vs') fromNode
      ownerComponent parentComponent;;
    ret (MkVars (fromNextSibling vs') (fromNextSibling vs') (curFromNodeKey vs')).

(** The outer loop over the target children. *)
Fixpoint outer (n : nat) (fromNode : ref) (parentComponent : option string)
    (targets : list vnode) (vs : vars) : M vars :=
  match targets with
  | [] => ret vs
  | curToNodeChild :: rest =>
      match n with
      | O => out_of_fuel
      | S n' =>
          match curToNodeChild, key_truthy (aE_ curToNodeChild) with
          | VComponent c _ _ _ _, _ =>
              '(consumed, vs') ← component_step fromNode parentComponent curToNodeChild c vs;
              outer n' fromNode parentComponent (if (consumed : bool) then rest else targets) vs'
          | _, Some key =>
              vs' ← keyed_step fromNode parentComponent curToNodeChild key (head rest) vs;
              outer n' fromNode parentComponent rest vs'
          | _, None =>
              vs' ← unkeyed_step fromNode parentComponent curToNodeChild vs;
              outer n' fromNode parentComponent rest vs'
          end
      end
  end.

(** The loop that runs once the target children are consumed. *)
Fixpoint tail_cleanup (n : nat) (fromNode : ref) (parentComponent : option string)
    (cur : option ref) : M unit :=
  match cur with
  | None => ret tt
  | Some c =>
      match n with
      | O => out_of_fuel
      | S n' =>
          s ← get;
          let next := nextSibling s c in
          match componentByDOMNode s !! c with
          | Some fromComponent =>
              (if bool_decide (fromComponent ∈ _z_ ctx) then ret tt
               else destroyComponent fromComponent);;
              tail_cleanup n' fromNode parentComponent next
          | None =>
              let curVFromNodeChild := vElementByDOMNode s !! c in
              let referenceComponent :=
                if isAutoKey (key_string (default KUndefined (keysByDOMNode s !! fromNode)))
                then parentComponent
                else curVFromNodeChild ≫= aF_ in
              detachNode c fromNode referenceComponent;;
              tail_cleanup n' fromNode parentComponent next
          end
      end
  end.

(** [fromNode.at_]: the pending closure of an unfinished fragment. *)
Definition pending_at_ (s : state) (fromNode : ref) : option (nat * (option ref * option ref)) :=
  match fromNode with
  | Fragment f => fo ← get_frag s f; p ← frag_at_ fo; Some (f, p)
  | DomNode _ => None
  end.

(** [morphChildren(fromNode, toNode, parentComponent)] *)
Definition morphChildren_body (fromNode : ref) (toNode : vnode) (parentComponent : option string) : M unit :=
  s ← get;
  vs ← outer fuel fromNode parentComponent (vchildren toNode)
          (MkVars (firstChild s fromNode) None KUndefined);
  s ← get;
  match pending_at_ s fromNode with
  | Some (f, pending) => call_at_ f pending (curFromNodeChild vs)
  | None => tail_cleanup fuel fromNode parentComponent (curFromNodeChild vs)
  end.

End Morph.

Fixpoint morphChildren (fuel : nat) (ctx : context) (fromNode : ref) (toNode : vnode)
    (parentComponent : option string) : M unit :=
  match fuel with
  | O => out_of_fuel
  | S n => morphChildren_body ctx n (morphChildren n ctx) fromNode toNode parentComponent
  end.

(** The pass over [detachedNodes] that ends [morphdom]. *)
Definition sweep_node (fuel : nat) (node : ref) : M unit :=
  s ← get;
  match detachedByDOMNode s !! node with
  | Some detachedFromComponent =>
      modify (λ s, set_detachedByDOMNode (delete node (detachedByDOMNode s)) s);;
      match componentByDOMNode s !! node with
      | Some componentToDestroy => destroy fuel componentToDestroy
      | None =>
          let parent := match node with
                        | DomNode n => raw_parentNode s n
                        | Fragment f => frag_parentNode s f
                        end in
          match parent with
          | Some _ =>
              destroyNodeRecursive fuel node
                (match detachedFromComponent with MarkOwner c => Some c | MarkTrue => None end);;
              removeChild node
          | None => ret tt
          end
      end
  | None => ret tt
  end.

(** [morphdom(fromNode, toNode, doc, componentsContext)]: [keySequences]
    and [detachedNodes] are new for every call; the parent component of
    the root is [toNode._b_]. *)
Definition morphdom (fuel : nat) (ctx : context) (fromNode : ref) (toNode : vnode) : M unit :=
  modify (λ s, set_detachedNodes [] (set_keySequences ∅ s));;
  morphChildren fuel ctx fromNode toNode
    (match toNode with VComponent c _ _ _ _ => Some c | _ => None end);;
  s ← get;
  forEach (detachedNodes s) (sweep_node fuel).

(** ** Predicates used by the statements *)



(** What destroying components may change: the component instances,
    [componentByDOMNode], [componentLookup], and the log, which only grows
    by lifecycle events. *)
Definition destroyed_only (s s' : state) : Prop :=
  nodes s' = nodes s ∧ frags s' = frags s ∧ keysByDOMNode s' = keysByDOMNode s
  ∧ vElementByDOMNode s' = vElementByDOMNode s
  ∧ detachedByDOMNode s' = detachedByDOMNode s ∧ detachedNodes s' = detachedNodes s
  ∧ keySequences s' = keySequences s
  ∧ ∃ evs, log s' = (log s ++ evs)%list ∧ Forall (λ e, is_dom_mutation e = false) evs.

(** The real node [p] has the children [l], in this order, and each of
    them points back to [p]. *)
Definition children_wf (s : state) (p : nat) (l : list nat) : Prop :=
  (childNodes <$> nodes s !! p) = Some l
  ∧ NoDup l ∧ (p ∉ l)
  ∧ ∀ c, c ∈ l → raw_parentNode s c = Some p.

(** The real node is no boundary marker of a fragment. *)
Definition plain (s : state) (n : nat) : Prop := fragment_of s n = None.

(** The node is queued for the final pass and carries the mark. *)
Definition queued (s : state) (node : ref) (ownerComponent : option string) : Prop :=
  node ∈ detachedNodes s
  ∧ detachedByDOMNode s !! node = Some (from_option MarkOwner MarkTrue ownerComponent).


(** ** The inner loop of an unkeyed target child *)

(** [detachedNodes.push(node); detachedByDOMNode.set(node, ownerComponent || true)] *)
Definition queue (ownerComponent : option string) (node : ref) (s : state) : state :=
  set_detachedByDOMNode
    (<[node := from_option MarkOwner MarkTrue ownerComponent]> (detachedByDOMNode s))
    (set_detachedNodes (detachedNodes s ++ [node]) s).





(** ** Trees that a second pass leaves alone *)






(** What the two records of a real element share. *)
Definition head_same (v v' : vnode) : Prop :=
  aB_ v = aB_ v' ∧ (attrs_entries <$> bA_ v) = (attrs_entries <$> bA_ v')
  ∧ key_truthy (aE_ v) = key_truthy (aE_ v').




(** ** The first render *)







(** ** The loop over the real children that are left *)




(** ** Destroying a component once *)

(** [component.q_]: the component is destroyed. *)
Definition destroyed (s : state) (c : string) : bool := q_ (get_component s c).

(** The number of "destroy" events emitted for the component. *)
Definition emitted (s : state) (c : string) : nat :=
  length (filter (λ e, e = EvLifecycle c "destroy") (log s)).

(** From [s] to [s'] every component that was destroyed stays destroyed,
    and the "destroy" event of a component was emitted once if the
    component was destroyed in between, and not at all otherwise. *)
Definition once (s s' : state) : Prop :=
  ∀ c, (destroyed s c = true → destroyed s' c = true)
       ∧ emitted s' c = (emitted s c + (if destroyed s c then 0 else if destroyed s' c then 1 else 0))%nat.

(** Every run of [m] that returns emits the "destroy" events once. *)
Definition keeps_once {A} (m : M A) : Prop := ∀ s a s', m s = Ok (a, s') → once s s'.

(** ** Example data for the reconciler *)

(** A render context outside of the adoption of a server-rendered tree,
    with nothing preserved and no component rendered. *)
Definition plain_context : context := MkContext ∅ ∅ ∅ false.

(** Two elements that carry the same constant-id token and different
    attribute maps. *)
Definition const_class_a : vnode :=
  VElement "DIV" (Attrs (Addr 1) [("class", JStr "a")]) KNull None 0 (Some "8b8673_0") None None [].
Definition const_class_b : vnode :=
  VElement "DIV" (Attrs (Addr 2) [("class", JStr "b")]) KNull None 0 (Some "8b8673_0") None None
    [VText "new"].

(** An empty [<body>] at address 0 and one component, "c0", whose
    children the trees below describe. *)
Definition body_state : state :=
  MkState {[ 0 := MkDomNode ELEMENT_NODE "BODY" "" XHTML_NS ∅ ∅ None [] None ]}
    ∅ ∅ ∅ ∅ ∅ {[ "c0" := MkComponent None false ∅ ]} ∅ ∅ [] [].
Definition element (tag : string) (key : vkey) (children : list vnode) : vnode :=
  VElement tag EMPTY_OBJECT key None 0 None None None children.
Definition render (children : list vnode) : vnode := VComponent "c0" KNull None false children.
Definition keyed_b_c_d : vnode :=
  render [element "B" (KStr "b") []; element "C" (KStr "c") []; element "D" (KStr "d") []].
Definition keyed_d_b : vnode := render [element "D" (KStr "d") []; element "B" (KStr "b") []].
Definition keyed_c_b_d : vnode :=
  render [element "C" (KStr "c") []; element "B" (KStr "b") []; element "D" (KStr "d") []].

(** The children of the [<body>]. *)
Definition body_children (s : state) : list nat := from_option childNodes [] (nodes s !! 0).

(** Two renders in a row; the log is emptied in between, so that the
    answer holds the calls of the second render only. *)
Definition render_twice (fuel : nat) (ctx : context) (first second : vnode) : result (state * state) :=
  match morphdom fuel ctx (DomNode 0) first body_state with
  | Ok (_, s1) =>
      match morphdom fuel ctx (DomNode 0) second (set_log [] s1) with
      | Ok (_, s2) => Ok (s1, s2)
      | Throw e => Throw e
      | OutOfFuel => OutOfFuel
      end
  | Throw e => Throw e
  | OutOfFuel => OutOfFuel
  end.



(** The state after a first render of [t] into the empty [<body>]. *)
Definition rendered (t : vnode) : state :=
  match morphdom 20 plain_context (DomNode 0) t body_state with
  | Ok (_, s) => s
  | _ => body_state
  end.

Definition div_x : vnode := render [element "DIV" KNull [VText "x"]].
Definition span_x : vnode := render [element "SPAN" KNull [VText "x"]].



(** A component "c1" whose output is one [<p>], rendered inside the first
    of two keyed [<div>]s, inside the second, or not at all. *)
Definition widget : vnode := VComponent "c1" KNull None false [element "P" KNull []].
Definition widget_in_first_div : vnode :=
  render [element "DIV" (KStr "a") [widget]; element "DIV" (KStr "b") []].
Definition widget_in_second_div : vnode :=
  render [element "DIV" (KStr "a") []; element "DIV" (KStr "b") [widget]].
Definition no_widget : vnode :=
  render [element "DIV" (KStr "a") []; element "DIV" (KStr "b") []].

(** After a render the component runtime mounts the new component: it
    enters [componentLookup]; the log is emptied. *)
Definition mounted (s : state) : state :=
  set_log [] (set_componentLookup ({["c1"]} ∪ componentLookup s) s).

(** The context of a render in which the component "c1" was rendered
    again ([beginComponent] enters its id into [_z_]). *)
Definition widget_context : context := MkContext ∅ ∅ {["c1"]} false.

(** * Further parts of the runtime *)

(** ** Plain objects ([raptor-util/extend]) *)

(** A JavaScript object used as a record is the list of its own enumerable
    properties in the order of [for-in], the order in which they were
    added; names that are array indices, which [for-in] visits first, are
    outside of the model. *)

(** [name in o] *)
Definition has_prop (name : string) (o : list (string * jsval)) : bool := bool_decide (name ∈ o.*1).

(** [o[name] = value]: an existing property keeps its place, a new one
    goes to the end. *)
Fixpoint set_prop (name : string) (value : jsval) (o : list (string * jsval)) : list (string * jsval) :=
  match o with
  | [] => [(name, value)]
  | (n, v) :: rest =>
      if decide (n = name) then (n, value) :: rest else (n, v) :: set_prop name value rest
  end.

(** [delete o[name]] *)
Definition delete_prop (name : string) (o : list (string * jsval)) : list (string * jsval) :=
  filter (λ e, e.1 ≠ name) o.

(** [extend(target, source)]: a missing target is a new object; the
    properties of the source are copied one by one. *)
Definition extend (target : option (list (string * jsval))) (source : option (list (string * jsval))) : list (string * jsval) :=
  foldl (λ t propName, set_prop propName (get_entry propName (default [] source)) t)
        (default [] target) (default [] source).*1.

(** ** The state of a component ([dist/components/State]) *)

Module State.

Record t := Mk {
  V_ : list (string * jsval);            (* the raw state *)
  s_ : bool;              (* dirty *)
  K_ : option (list (string * jsval));     (* the old state, or null *)
  J_ : option (list (string * jsval));     (* the changes, or null *)
  _E_ : option (list (string * jsval));    (* the names forced to be dirty, or null *)
}.

Definition set_V_ (v : list (string * jsval)) (st : t) : t := Mk v (s_ st) (K_ st) (J_ st) (_E_ st).
Definition set_J_ (v : option (list (string * jsval))) (st : t) : t := Mk (V_ st) (s_ st) (K_ st) v (_E_ st).
Definition set__E_ (v : option (list (string * jsval))) (st : t) : t := Mk (V_ st) (s_ st) (K_ st) (J_ st) v.

(** [new State(component)] *)
Definition new : t := Mk [] false None None None.

(** [f_()]: the reset that ends an update. *)
Definition f_ (st : t) : t := Mk (V_ st) false None None None.

(** [E_(name, value, shouldEnsure, forceDirty)].  [ensure] defines an
    accessor on the prototype and leaves the fields alone.  The call
    [this._b_.D_()] reaches the component and the update manager only: the
    answer tells whether it was made. *)
Definition E_ (name : string) (value : jsval) (forceDirty : bool) (st : t) : result (t * bool) :=
  let rawState := V_ st in
  let st1 :=
    if forceDirty then set__E_ (Some (set_prop name (JBool true) (default [] (_E_ st)))) st
    else st in
  if negb forceDirty && strict_eq (get_entry name rawState) value then Ok (st, false)
  else
    let '(st2, called) :=
      if s_ st1 then (st1, false)
      else (Mk (extend (Some []) (Some rawState)) true (Some rawState) (Some []) (_E_ st1), true) in
    match J_ st2 with
    | None => Throw "TypeError"
    | Some changes =>
        let st3 := set_J_ (Some (set_prop name value changes)) st2 in
        Ok (set_V_ (if decide (value = JUndefined) then delete_prop name (V_ st3)
                    else set_prop name value (V_ st3)) st3,
            called)
    end.

(** A run of calls on the same state; the answer counts the calls of
    [D_]. *)
Fixpoint each {A} (l : list A) (f : A → t → result (t * bool)) (st : t) : result (t * nat) :=
  match l with
  | [] => Ok (st, 0)
  | x :: rest =>
      match f x st with
      | Ok (st1, called) =>
          match each rest f st1 with
          | Ok (st2, calls) => Ok (st2, (if called then 1 else 0) + calls)
          | Throw e => Throw e
          | OutOfFuel => OutOfFuel
          end
      | Throw e => Throw e
      | OutOfFuel => OutOfFuel
      end
  end.

(** [C_(newState)]: the properties that the new state lacks are set to
    [undefined], then every property of the new state is set. *)
Definition C_ (newState : list (string * jsval)) (st : t) : result (t * nat) :=
  let rawState := V_ st in
  match each rawState.*1 (λ key st,
          if has_prop key newState then Ok (st, false) else E_ key JUndefined false st) st with
  | Ok (st1, calls1) =>
      match each newState.*1 (λ key, E_ key (get_entry key newState) false) st1 with
      | Ok (st2, calls2) => Ok (st2, calls1 + calls2)
      | Throw e => Throw e
      | OutOfFuel => OutOfFuel
      end
  | Throw e => Throw e
  | OutOfFuel => OutOfFuel
  end.

(** The bookkeeping of a state: a clean state has no old state and no
    changes; a dirty one has both, and every property reads as the change
    recorded for it, or as in the old state when none is recorded. *)
Definition consistent (st : t) : Prop :=
  if s_ st then
    ∃ old changes, K_ st = Some old ∧ J_ st = Some changes
      ∧ ∀ k, get_entry k (V_ st) = if has_prop k changes then get_entry k changes else get_entry k old
  else K_ st = None ∧ J_ st = None.

(** No property is stored with the value [undefined]. *)
Definition defined (o : list (string * jsval)) : Prop := ∀ e, e ∈ o → e.2 ≠ JUndefined.

(** A step on a state that keeps its bookkeeping. *)
Definition tracked_step (f : t → result (t * bool)) : Prop :=
  ∀ st, consistent st →
    ∃ st' called, f st = Ok (st', called)
      ∧ consistent st'
      ∧ called = negb (s_ st) && s_ st'
      ∧ (s_ st = true → s_ st' = true ∧ K_ st' = K_ st)
      ∧ (s_ st = false → if s_ st' then K_ st' = Some (V_ st) else st' = st)
      ∧ (defined (V_ st) → defined (V_ st')).

End State.

(** ** Queueing updates ([dist/components/update-manager]) *)

Module UpdateManager.

(** The variables of the module; [scheduled] counts the calls
    [nextTick(updateUnbatchedComponents)].  A batch is [{ao_: null}] or
    holds the array of the components queued in it; components are named by
    their ids. *)
Record t := Mk {
  updatesScheduled : bool;
  batchStack : list (option (list string));
  unbatchedQueue : list string;
  scheduled : nat;
}.

Definition scheduleUpdates (m : t) : t :=
  if updatesScheduled m then m
  else Mk true (batchStack m) (unbatchedQueue m) (S (scheduled m)).

(** [queueComponentUpdate(component)] *)
Definition H_ (component : string) (m : t) : t :=
  let batchStackLen := length (batchStack m) in
  if decide (batchStackLen = 0) then
    let m1 := scheduleUpdates m in
    Mk (updatesScheduled m1) (batchStack m1) (unbatchedQueue m1 ++ [component]) (scheduled m1)
  else
    Mk (updatesScheduled m)
       (alter (λ batch, Some (default [] batch ++ [component])) (batchStackLen - 1) (batchStack m))
       (unbatchedQueue m) (scheduled m).

(** How often the component is queued, in a batch or outside. *)
Definition queued (component : string) (m : t) : nat :=
  length (filter (λ c, c = component) (unbatchedQueue m ++ concat (default [] <$> batchStack m))).

End UpdateManager.

(** ** The dirty flags of a component ([dist/components/Component]) *)

Module Dirty.

(** The fields of a component that its setters read and write. *)
Record t := Mk {
  id : string;
  g_ : option State.t;    (* the state, or null *)
  r_ : bool;              (* an update is queued *)
  s_ : bool;              (* the input changed *)
}.

Definition set_g_ (v : option State.t) (c : t) : t := Mk (id c) v (r_ c) (s_ c).

(** [D_()] *)
Definition D_ (w : t * UpdateManager.t) : t * UpdateManager.t :=
  if r_ w.1 then w
  else (Mk (id w.1) (g_ w.1) true (s_ w.1), UpdateManager.H_ (id w.1) w.2).

(** [forceUpdate()] *)
Definition forceUpdate (w : t * UpdateManager.t) : t * UpdateManager.t :=
  D_ (Mk (id w.1) (g_ w.1) (r_ w.1) true, w.2).

(** A method of the state called through [this.g_]; [D_] is called back
    from the state as often as the method says. *)
Definition on_state (f : State.t → result (State.t * nat)) (w : t * UpdateManager.t) :
    result (t * UpdateManager.t) :=
  match g_ w.1 with
  | None => Throw "TypeError"
  | Some st =>
      match f st with
      | Ok (st', calls) => Ok (Nat.iter calls D_ (set_g_ (Some st') w.1, w.2))
      | Throw e => Throw e
      | OutOfFuel => OutOfFuel
      end
  end.

(** [setState(name, value)] with a name, and with an object *)
Definition setState (name : string) (value : jsval) : t * UpdateManager.t → result (t * UpdateManager.t) :=
  on_state (State.each [name] (λ k, State.E_ k value false)).
Definition setState_object (newState : list (string * jsval)) (w : t * UpdateManager.t) :
    result (t * UpdateManager.t) :=
  match newState with
  | [] => Ok w      (* the state is read inside of the loop only *)
  | _ => on_state (State.each newState.*1 (λ k, State.E_ k (get_entry k newState) false)) w
  end.

(** [setStateDirty(name, value)], called with both arguments *)
Definition setStateDirty (name : string) (value : jsval) : t * UpdateManager.t → result (t * UpdateManager.t) :=
  on_state (State.each [name] (λ k, State.E_ k value true)).

(** [replaceState(newState)] *)
Definition replaceState (newState : list (string * jsval)) : t * UpdateManager.t → result (t * UpdateManager.t) :=
  on_state (State.C_ newState).

(** [f_()] *)
Definition f_ (c : t) : t := Mk (id c) (State.f_ <$> g_ c) false false.

(** getter [I_]: the component is dirty. *)
Definition I_ (c : t) : bool := s_ c || from_option State.s_ false (g_ c).

(** The calls that application code makes between two updates. *)
Inductive call :=
| SetState (name : string) (value : jsval)
| SetStateObject (newState : list (string * jsval))
| SetStateDirty (name : string) (value : jsval)
| ReplaceState (newState : list (string * jsval))
| ForceUpdate.

Definition run_call (c : call) (w : t * UpdateManager.t) : result (t * UpdateManager.t) :=
  match c with
  | SetState name value => setState name value w
  | SetStateObject newState => setState_object newState w
  | SetStateDirty name value => setStateDirty name value w
  | ReplaceState newState => replaceState newState w
  | ForceUpdate => Ok (forceUpdate w)
  end.

Fixpoint run (cs : list call) (w : t * UpdateManager.t) : result (t * UpdateManager.t) :=
  match cs with
  | [] => Ok w
  | c :: rest =>
      match run_call c w with
      | Ok w1 => run rest w1
      | Throw e => Throw e
      | OutOfFuel => OutOfFuel
      end
  end.

End Dirty.

(** ** Comparing the input of a component ([checkInputChanged]) *)

(** An input: [null] or [undefined], or an object, which has an identity. *)
Definition input := option (nat * list (string * jsval)).

(** [checkInputChanged(existingComponent, oldInput, newInput)] *)
Definition checkInputChanged (oldInput newInput : input) : bool :=
  match oldInput, newInput with
  | None, None => false
  | None, Some _ | Some _, None => true
  | Some (a, old), Some (b, new) =>
      if decide (a = b) then false
      else
        let oldKeys := old.*1 in
        let newKeys := new.*1 in
        if negb (bool_decide (length oldKeys = length newKeys)) then true
        else existsb (λ key, negb (strict_eq (get_entry key old) (get_entry key new))) oldKeys
  end.

(** ** Ids of nested elements and components ([dist/components/ComponentDef]) *)

Module ComponentDef.

Record t := Mk {
  id : string;
  _g_ : nat;                        (* the integer of the next scoped id *)
  w_ : option KeySequence.t;        (* the key sequence, or null *)
}.

(** [new ComponentDef(component, componentId, globalComponentsContext)] *)
Definition new (componentId : string) : t := Mk componentId 0 None.

(** [elId(nestedId)] *)
Definition elId (nestedId : option string) (d : t) : string :=
  match nestedId with
  | None => id d
  | Some nestedId =>
      if String.prefix "#" nestedId
      then ("#" +:+ id d) +:+ "-" +:+ String.substring 1 (String.length nestedId - 1) nestedId
      else id d +:+ "-" +:+ nestedId
  end.

(** [_k_()]: the next id of a nested component that has no key. *)
Definition _k_ (d : t) : string * t :=
  (id d +:+ "-c" +:+ pretty (_g_ d), Mk (id d) (S (_g_ d)) (w_ d)).

(** [n] calls of [_k_] in a row. *)
Fixpoint next_ids (n : nat) (d : t) : list string * t :=
  match n with
  | O => ([], d)
  | S n' =>
      let '(i, d1) := _k_ d in
      let '(rest, d2) := next_ids n' d1 in
      (i :: rest, d2)
  end.

End ComponentDef.

(** ** The attributes of a real element and its attribute map *)







(** ** What destroying leaves alone *)

(** Every run of [m] that returns relates the state before and the state
    after by [R]. *)
Definition preserves {A} (R : state → state → Prop) (m : M A) : Prop :=
  ∀ s a s', m s = Ok (a, s') → R s s'.

(** The key tables of the components only lose entries. *)
Definition keys_shrink (s s' : state) : Prop :=
  ∀ c k, v_ (get_component s c) !! k = None → v_ (get_component s' c) !! k = None.

(** No real node becomes the root of a component. *)
Definition roots_shrink (s s' : state) : Prop :=
  ∀ r, componentByDOMNode s !! r = None → componentByDOMNode s' !! r = None.

(** The fragment objects are the same, and a real node without parent
    stays without parent. *)
Definition detached_stay (s s' : state) : Prop :=
  frags s' = frags s ∧ ∀ y, raw_parentNode s y = None → raw_parentNode s' y = None.

(** A keyed [<li>] (1) with a [<b>] (2) inside, under the [<body>]; the
    component "c0" holds the [<li>] under its key. *)
Definition keyed_li_state : state :=
  MkState
    {[ 0 := MkDomNode ELEMENT_NODE "BODY" "" XHTML_NS ∅ ∅ None [1] None;
       1 := MkDomNode ELEMENT_NODE "LI" "" XHTML_NS ∅ ∅ (Some 0) [2] None;
       2 := MkDomNode ELEMENT_NODE "B" "" XHTML_NS ∅ ∅ (Some 1) [] None ]}
    ∅ {[ DomNode 1 := KStr "@item" ]} ∅ ∅ ∅
    {[ "c0" := MkComponent None false {[ "@item" := KeyedNode (DomNode 1) ]} ]} ∅ ∅ [] [].

(** ** Example data for fragments *)

(** A [<body>] (0) with a [<p>] (1), the fragment 0 around a [<b>] (3)
    between its markers (2 and 4), and a [<i>] (5); the detached container
    of the fragment (6) is empty, and a [<div>] (7) outside of the
    [<body>] holds a text (8). *)
Definition fragment_state : state :=
  MkState
    {[ 0 := MkDomNode ELEMENT_NODE "BODY" "" XHTML_NS ∅ ∅ None [1; 2; 3; 4; 5] None;
       1 := MkDomNode ELEMENT_NODE "P" "" XHTML_NS ∅ ∅ (Some 0) [] None;
       2 := MkDomNode TEXT_NODE "#text" "" "" ∅ ∅ (Some 0) [] (Some 0);
       3 := MkDomNode ELEMENT_NODE "B" "" XHTML_NS ∅ ∅ (Some 0) [] None;
       4 := MkDomNode TEXT_NODE "#text" "" "" ∅ ∅ (Some 0) [] (Some 0);
       5 := MkDomNode ELEMENT_NODE "I" "" XHTML_NS ∅ ∅ (Some 0) [] None;
       6 := MkDomNode DOCUMENT_FRAGMENT_NODE "#document-fragment" "" "" ∅ ∅ None [] None;
       7 := MkDomNode ELEMENT_NODE "DIV" "" XHTML_NS ∅ ∅ None [8] None;
       8 := MkDomNode TEXT_NODE "#text" "t" "" ∅ ∅ (Some 7) [] None ]}
    {[ 0 := MkFragment 2 4 6 None false ]} ∅ ∅ ∅ ∅ ∅ ∅ ∅ [] [].

(** ** Walking the children of a node or of a fragment *)

(** The loop [for (c = firstChild(parent); c; c = nextSibling(c))] with
    the helpers of [dist/morphdom/helpers]: the nodes it visits. *)
Fixpoint walk (fuel : nat) (s : state) (cur : option ref) : list ref :=
  match fuel, cur with
  | S fuel', Some c => c :: walk fuel' s (nextSibling s c)
  | _, _ => []
  end.

(** What stands between the children of a parent: a real node that is no
    marker, or a fragment with its two markers and the nodes between
    them. *)
Inductive item :=
| INode (n : nat)
| IFrag (f : nat) (st : nat) (mid : list nat) (en : nat).

Definition item_nodes (it : item) : list nat :=
  match it with
  | INode n => [n]
  | IFrag _ st mid en => st :: mid ++ [en]
  end.

Definition item_ref (it : item) : ref :=
  match it with
  | INode n => DomNode n
  | IFrag f _ _ _ => Fragment f
  end.

Definition item_ok (s : state) (it : item) : Prop :=
  match it with
  | INode n => plain s n
  | IFrag f st mid en =>
      (∃ fo, frags s !! f = Some fo ∧ startNode fo = st ∧ endNode fo = en)
      ∧ fragment_of s st = Some f
  end.

(** The children [pre ++ ... ++ post] of the real node [p] hold the
    children of [parent] between [pre] and [post]: all of them for a real
    node, those between the markers for a fragment. *)
Definition holds_children (s : state) (parent : ref) (p : nat) (pre post : list nat) : Prop :=
  match parent with
  | DomNode q => q = p ∧ pre = [] ∧ post = []
  | Fragment g =>
      ∃ fo pre' post',
        frags s !! g = Some fo
        ∧ pre = pre' ++ [startNode fo] ∧ post = endNode fo :: post'
        ∧ fragment_of s (endNode fo) = Some g
  end.

(** ** The component of a real node ([getParentComponentForEl]) *)

(** The element of [l] that precedes [x]. *)
Fixpoint before (x : nat) (l : list nat) : option nat :=
  match l with
  | y :: rest =>
      match rest with
      | z :: _ => if decide (z = x) then Some y else before x rest
      | [] => None
      end
  | [] => None
  end.

(** [node.previousSibling] of a real node *)
Definition raw_previousSibling (s : state) (n : nat) : option nat :=
  d ← get_node s n; p ← parentNode d; pd ← get_node s p;
  if decide (head (childNodes pd) = Some n) then None else before n (childNodes pd).

(** [getParentComponentForEl(node)]: the walk back over the previous
    siblings and up to the parents, with [node.fragment || node] at every
    step, to the first node that is the root of a component.  A fragment
    has no [previousSibling]. *)
Fixpoint getParentComponentForEl (fuel : nat) (s : state) (node : option ref) :
    result (option string) :=
  match fuel with
  | O => OutOfFuel
  | S fuel' =>
      match node with
      | None => Ok None
      | Some r =>
          match componentByDOMNode s !! r with
          | Some c => Ok (Some c)
          | None =>
              let next :=
                match r with
                | DomNode n =>
                    match raw_previousSibling s n with
                    | Some x => Some x
                    | None => raw_parentNode s n
                    end
                | Fragment g => frag_parentNode s g
                end in
              getParentComponentForEl fuel' s (wrap_fragment s <$> next)
          end
      end
  end.

(** The document of [fragment_state], in which the fragment is the root of
    the component "c1". *)
Definition component_fragment_state : state :=
  set_componentByDOMNode {[ Fragment 0 := "c1" ]} fragment_state.

(** ** Example data for the special elements *)

(** A [<textarea>] whose text child and value are "old", and a target
    textarea with the value "new". *)
Definition textarea_state : state :=
  set_nodes {[ 0 := MkDomNode ELEMENT_NODE "TEXTAREA" "" XHTML_NS ∅ {[ "value" := JStr "old" ]} None [1] None;
               1 := MkDomNode TEXT_NODE "#text" "old" "" ∅ ∅ (Some 0) [] None ]}
    empty_state.
Definition textarea_new : vnode :=
  VElement "TEXTAREA" (Attrs (Addr 1) []) KNull None 0 None None (Some "new") [].

(** ** Building the children of a virtual node *)

(** A run of [this.bn_(child)] calls, one for each child. *)
Fixpoint bn_each (this : nat) (children : list nat) (h : gmap nat VNode.obj) :
    result (gmap nat VNode.obj) :=
  match children with
  | [] => Ok h
  | child :: rest =>
      match VNode.bn_ this child h with
      | Ok (_, h') => bn_each this rest h'
      | Throw e => Throw e
      | OutOfFuel => OutOfFuel
      end
  end.

(** The values of the text nodes at the addresses [l], one after the
    other. *)
Definition text_values (l : list nat) (h : gmap nat VNode.obj) : string :=
  foldr String.append "" (omap (λ c, VNode.aH_ <$> h !! c) l).

(** A new [<textarea>] and two new text nodes. *)
Definition textarea_heap : gmap nat VNode.obj :=
  <[2 := VNode.newVText "b"]>
    (<[1 := VNode.newVText "a"]> (<[0 := VNode.newVElement (Some 2%Z) true]> ∅)).
(** A new element and two new text nodes. *)
Definition two_texts_heap : gmap nat VNode.obj :=
  <[2 := VNode.newVText "b"]>
    (<[1 := VNode.newVText "a"]> (<[0 := VNode.newVElement (Some 2%Z) false]> ∅)).

(** ** Listeners ([events-light])

    The base class of components.  A listener is a function of the
    application, named by a number, or the wrapper [g] that [once] makes
    around one; a wrapper has an identity of its own and remembers the
    type it was registered for.  The functions of the application are
    taken to return without calling the emitter; each call is recorded
    with its arguments.  Types named like members of [Object.prototype]
    are outside of the model. *)

Module EventEmitter.

Inductive listener :=
| Fn (f : nat)
| G (g : nat) (type : string) (f : nat).

(** [a === b] on functions *)
Definition same (a b : listener) : bool :=
  match a, b with
  | Fn x, Fn y => bool_decide (x = y)
  | G x _ _, G y _ _ => bool_decide (x = y)
  | _, _ => false
  end.

(** The function of the application behind a listener. *)
Definition target (l : listener) : nat :=
  match l with
  | Fn f => f
  | G _ _ f => f
  end.

Definition is_Fn (l : listener) : bool :=
  match l with
  | Fn _ => true
  | G _ _ _ => false
  end.

(** [events[type]] is a function or an array of functions. *)
Inductive slot :=
| One (l : listener)
| Many (ls : list listener).

Record t := Mk {
  _e : option (gmap string slot);       (* [$e], or null *)
  nulled : gset nat;                    (* the wrappers whose [listener] is null *)
  made : nat;                           (* the number of wrappers made *)
  calls : list (nat * list jsval);      (* the calls of functions of the application *)
}.

Definition set__e (v : option (gmap string slot)) (ee : t) : t :=
  Mk v (nulled ee) (made ee) (calls ee).

(** [new EventEmitter()] *)
Definition new : t := Mk (Some ∅) ∅ 0 [].

Definition addListener (type : string) (l : listener) (prepend : bool) (ee : t) : t :=
  let events := default ∅ (_e ee) in
  let listeners :=
    match events !! type with
    | Some (One l') => Many (if prepend then [l; l'] else [l'; l])
    | Some (Many ls) => Many (if prepend then l :: ls else ls ++ [l])
    | None => One l
    end in
  set__e (Some (<[type := listeners]> events)) ee.

Definition on (type : string) (f : nat) : t → t := addListener type (Fn f) false.
Definition prependListener (type : string) (f : nat) : t → t := addListener type (Fn f) true.

Definition once (type : string) (f : nat) (ee : t) : t :=
  addListener type (G (made ee) type f) false (Mk (_e ee) (nulled ee) (S (made ee)) (calls ee)).

(** [removeListener(type, listener)]: the loop splices every occurrence
    out of the array, which stays in place. *)
Definition removeListener (type : string) (l : listener) (ee : t) : t :=
  match _e ee with
  | Some events =>
      match events !! type with
      | Some (One l') => if same l' l then set__e (Some (delete type events)) ee else ee
      | Some (Many ls) =>
          set__e (Some (<[type := Many (filter (λ x, same x l = false) ls)]> events)) ee
      | None => ee
      end
  | None => ee
  end.

Definition removeAllListeners (type : string) (ee : t) : t :=
  match _e ee with
  | Some events => set__e (Some (delete type events)) ee
  | None => ee
  end.

Definition listenerCount (type : string) (ee : t) : nat :=
  match _e ee ≫= λ events, events !! type with
  | Some (One _) => 1
  | Some (Many ls) => length ls
  | None => 0
  end.

(** [invokeListener(ee, listener, args)]; the body of a wrapper [g] is
    [this.removeListener(type, g); if (listener) { listener.apply(this,
    arguments); listener = null; }]. *)
Definition invokeListener (l : listener) (args : list jsval) (ee : t) : t :=
  match l with
  | Fn f => Mk (_e ee) (nulled ee) (made ee) (calls ee ++ [(f, args)])
  | G g type f =>
      let ee1 := removeListener type l ee in
      if decide (g ∈ nulled ee1) then ee1
      else Mk (_e ee1) ({[g]} ∪ nulled ee1) (made ee1) (calls ee1 ++ [(f, args)])
  end.

(** [emit(type, ...args)]: the answer is [undefined], [false] or [true];
    what is thrown for an "error" that nobody listens to is the argument,
    or an [Error] made of it. *)
Definition emit (type : string) (args : list jsval) (ee : t) : result (option bool * t) :=
  match _e ee with
  | None => Ok (None, ee)
  | Some events =>
      match events !! type with
      | None => if decide (type = "error") then Throw "Error" else Ok (Some false, ee)
      | Some (One l) => Ok (Some true, invokeListener l args ee)
      | Some (Many ls) => Ok (Some true, foldl (λ ee l, invokeListener l args ee) ee ls)
      end
  end.

(** The listeners of a type, in the order of the calls. *)
Definition listeners (type : string) (ee : t) : list listener :=
  match _e ee ≫= λ events, events !! type with
  | Some (One l) => [l]
  | Some (Many ls) => ls
  | None => []
  end.

(** The identities of the wrappers among listeners, and the listeners
    that are none of the wrappers [W]. *)
Definition wrapper (l : listener) : option nat :=
  match l with
  | G g _ _ => Some g
  | Fn _ => None
  end.
Definition wrappers (ls : list listener) : list nat := omap wrapper ls.
Definition kept (W : list nat) (l : listener) : bool :=
  match l with
  | Fn _ => true
  | G g _ _ => bool_decide (g ∉ W)
  end.

(** The calls of an application. *)
Inductive call :=
| On (type : string) (f : nat)
| PrependListener (type : string) (f : nat)
| Once (type : string) (f : nat)
| RemoveListener (type : string) (f : nat)
| RemoveAllListeners (type : string)
| Emit (type : string) (args : list jsval).

Definition run_call (c : call) (ee : t) : result t :=
  match c with
  | On type f => Ok (on type f ee)
  | PrependListener type f => Ok (prependListener type f ee)
  | Once type f => Ok (once type f ee)
  | RemoveListener type f => Ok (removeListener type (Fn f) ee)
  | RemoveAllListeners type => Ok (removeAllListeners type ee)
  | Emit type args =>
      match emit type args ee with
      | Ok (_, ee') => Ok ee'
      | Throw e => Throw e
      | OutOfFuel => OutOfFuel
      end
  end.

Fixpoint run (cs : list call) (ee : t) : result t :=
  match cs with
  | [] => Ok ee
  | c :: rest =>
      match run_call c ee with
      | Ok ee' => run rest ee'
      | Throw e => Throw e
      | OutOfFuel => OutOfFuel
      end
  end.

(** The wrappers that are registered are registered once, for the type
    they remember, and none has been called. *)
Definition wf (ee : t) : Prop :=
  is_Some (_e ee)
  ∧ (∀ type g ty f, G g ty f ∈ listeners type ee → ty = type ∧ g < made ee ∧ g ∉ nulled ee)
  ∧ (∀ type, NoDup (wrappers (listeners type ee)))
  ∧ (∀ type type' g, g ∈ wrappers (listeners type ee) → g ∈ wrappers (listeners type' ee) →
       type = type')
  ∧ (∀ g, g ∈ nulled ee → g < made ee).

(** A run of [on] and [prependListener] calls for one type; [true] stands
    for [prependListener]. *)
Definition register (type : string) (regs : list (bool * nat)) (ee : t) : t :=
  foldl (λ ee r, addListener type (Fn r.2) r.1 ee) ee regs.

End EventEmitter.

(** * Properties *)

(** ** KeySequence *)

Section KeySequenceFacts.

Import KeySequence.






End KeySequenceFacts.

(** ** Appending children to a virtual node *)

Section VNodeFacts.

Import VNode.

(** Appending a second child to a node declared with one child is no
    error: both children are linked and the counter passes the declared
    count. *)
Lemma bn__accepts_child_beyond_count :
  ∃ h1 h2,
    bn_ 0 1 one_child_heap = Ok (1, h1) ∧
    bn_ 0 2 h1 = Ok (2, h2) ∧
    (bG_ <$> h2 !! 0) = Some (Some 1%Z) ∧
    (bH_ <$> h2 !! 0) = Some 2%Z ∧
    childNodes 5 0 h2 = [1; 2].
Proof. eexists _, _. vm_compute. repeat split; reflexivity. Qed.

(** C8 (amended). [bn_] never consults the declared child count: on a
    node that is not a textarea it always returns the child, bumps the
    counter of appended children, leaves the declared count alone and
    links the child as the last child; its only error is the [TypeError]
    for a child of a textarea that is not a text node. *)
Theorem bn__ignores_declared_count (h : gmap nat obj) (this child : nat) (t c : obj) :
  h !! this = Some t →
  h !! child = Some c →
  this ≠ child →
  if bD_ t && negb (bJ_ c) then bn_ this child h = Throw "TypeError"
  else ∃ h',
      bn_ this child h = Ok (child, h') ∧
      (bH_ <$> h' !! this) = Some (bH_ t + 1)%Z ∧
      (bG_ <$> h' !! this) = Some (bG_ t) ∧
      (bD_ t = false →
       (bI_ <$> h' !! this) = Some (Some child) ∧ (bw_ <$> h' !! child) = Some (Some this)).
Proof.
  intros Ht Hc Hne. unfold bn_. rewrite Ht, Hc.
  destruct (bD_ t) eqn:HD; simpl.
  - destruct (bJ_ c) eqn:HJ; simpl; [|done].
    eexists. split; [done|].
    rewrite !lookup_alter_eq, Ht. simpl. by repeat split.
  - eexists. split; [done|].
    destruct (bI_ t) as [l|] eqn:HI;
      repeat split; intros;
      repeat (rewrite lookup_alter; case_decide; simplify_eq);
      rewrite ?Ht, ?Hc; simpl; done.
Qed.

(** The theorem at a node declared with one child that already has one. *)
Lemma bn__ignores_declared_count_witness :
  ∃ h',
    bn_ 0 2 full_heap = Ok (2, h') ∧
    (bH_ <$> h' !! 0) = Some 2%Z ∧
    (bG_ <$> h' !! 0) = Some (Some 1%Z) ∧
    (false = false →
     (bI_ <$> h' !! 0) = Some (Some 2) ∧ (bw_ <$> h' !! 2) = Some (Some 0)).
Proof.
  exact (bn__ignores_declared_count full_heap 0 2
           (set_bI_ (Some 1) (set_bz_ (Some 1) (set_bH_ 1%Z (newVElement (Some 1%Z) false))))
           (newVText "b") eq_refl eq_refl ltac:(lia)).
Defined.

End VNodeFacts.

(** ** Attribute patching *)

Section AttrFacts.

Lemma ops_on_nil name ops :
  (∀ op, op ∈ ops → op_target op ≠ Some (None, name)) → ops_on name ops = [].
Proof.
  unfold ops_on. induction ops as [|op ops IH]; intros H; [done|].
  rewrite filter_cons_False.
  - apply IH. intros op' Hop'. apply H. by right.
  - apply H. by left.
Qed.

Lemma ops_on_app name ops1 ops2 :
  ops_on name (ops1 ++ ops2) = (ops_on name ops1 ++ ops_on name ops2)%list.
Proof. apply filter_app. Qed.

Lemma patch_attr_target old e op :
  op ∈ patch_attr old e → op_target op = Some (attr_slot e.1).
Proof.
  unfold patch_attr. destruct (attr_slot e.1) as [ns n].
  repeat case_match; intros Hop; repeat (apply elem_of_cons in Hop as [->|Hop]); try done;
    by apply elem_of_nil in Hop.
Qed.

Lemma attr_slot_plain name : name ≠ ATTR_XLINK_HREF → attr_slot name = (None, name).
Proof. intros. unfold attr_slot. by case_decide. Qed.

Lemma attr_slot_inj n1 n2 : attr_slot n1 = attr_slot n2 → n1 = n2.
Proof. unfold attr_slot. repeat case_decide; congruence. Qed.

Lemma patch_attr_other_slot old (entries : list (string * jsval)) name op :
  name ∉ entries.*1 → op ∈ entries ≫= patch_attr old → op_target op ≠ Some (attr_slot name).
Proof.
  intros Hn Hop. apply list_elem_of_bind in Hop as (e & Hop & He).
  rewrite (patch_attr_target _ _ _ Hop). intros [= Heq%attr_slot_inj].
  apply Hn. rewrite <- Heq. apply (list_elem_of_fmap_2 fst _ _ He).
Qed.

Lemma ops_on_patch_same old name value :
  name ≠ ATTR_XLINK_HREF →
  ops_on name (patch_attr old (name, value)) = patch_attr old (name, value).
Proof.
  intros Hne. unfold ops_on, patch_attr. simpl. rewrite attr_slot_plain by done.
  repeat case_match; rewrite ?filter_nil; try done; by rewrite filter_cons_True.
Qed.

Lemma ops_on_patch old (entries : list (string * jsval)) name value :
  NoDup entries.*1 → (name, value) ∈ entries → name ≠ ATTR_XLINK_HREF →
  ops_on name (entries ≫= patch_attr old) = patch_attr old (name, value).
Proof.
  induction entries as [|e entries IH]; intros Hnd Hin Hne.
  - by apply elem_of_nil in Hin.
  - rewrite bind_cons, ops_on_app. simpl in *. apply NoDup_cons in Hnd as [Hnotin Hnd].
    apply elem_of_cons in Hin as [<-|Hin].
    + rewrite ops_on_patch_same by done.
      rewrite (ops_on_nil name (entries ≫= _)); [by rewrite app_nil_r|].
      intros op Hop. rewrite <- (attr_slot_plain name) by done.
      by apply (patch_attr_other_slot old entries).
    + rewrite IH by done. rewrite ops_on_nil; [done|].
      intros op Hop. rewrite (patch_attr_target _ _ _ Hop).
      rewrite <- (attr_slot_plain name) by done. intros [= Heq%attr_slot_inj].
      apply Hnotin. rewrite Heq. apply (list_elem_of_fmap_2 fst _ _ Hin).
Qed.

Lemma stale_op new (entries : list (string * jsval)) op :
  op ∈ entries ≫= remove_stale_attr new →
  ∃ name, name ∈ entries.*1 ∧ attr_in name new = false ∧
    op = if decide (name = ATTR_XLINK_HREF) then RemoveAttr (Some ATTR_XLINK_HREF) ATTR_HREF
         else RemoveAttr None name.
Proof.
  intros Hop. apply list_elem_of_bind in Hop as (e & Hop & He).
  unfold remove_stale_attr in Hop. destruct (attr_in e.1 new) eqn:He1.
  - by apply elem_of_nil in Hop.
  - exists e.1. split; [apply (list_elem_of_fmap_2 fst _ _ He)|]. split; [done|].
    case_decide; by apply list_elem_of_singleton in Hop.
Qed.

Lemma ops_on_stale new (entries : list (string * jsval)) name :
  attr_in name new = true →
  ops_on name (entries ≫= remove_stale_attr new) = [].
Proof.
  intros Hin. apply ops_on_nil. intros op Hop.
  apply stale_op in Hop as (n & _ & Hn & ->).
  case_decide; simpl; [done|]. intros [= <-]. congruence.
Qed.

Lemma general_path_ops vFromEl toEl oldAttrs newAttrs :
  bA_ vFromEl = Some oldAttrs →
  bA_ toEl = Some newAttrs →
  has_flag (_f_ toEl) FLAG_CUSTOM_ELEMENT = false →
  has_flag (_f_ toEl) FLAG_SIMPLE_ATTRS && has_flag (_f_ vFromEl) FLAG_SIMPLE_ATTRS = false →
  attrs_addr oldAttrs ≠ attrs_addr newAttrs →
  morphAttrs_ops vFromEl toEl =
    Some ((attrs_entries newAttrs ≫= patch_attr oldAttrs)
          ++ (if decide (aE_ toEl = KNull)
              then attrs_entries oldAttrs ≫= remove_stale_attr newAttrs else []))%list.
Proof.
  intros Hold Hnew Hcustom Hsimple Haddr.
  unfold morphAttrs_ops. rewrite Hcustom, Hold, Hnew, Hsimple.
  by destruct (decide (attrs_addr oldAttrs = attrs_addr newAttrs)).
Qed.

(** C4 (amended). Attribute patch rules on the general path of
    [VElement.aA_] -- the target is not a custom element, the two elements
    are not both flagged with simple attributes, and the old and new maps
    are different objects: for every attribute of the new map other than
    "xlink:href", the calls that touch it are exactly one
    [removeAttribute] when its new value is null, undefined or false, one
    [setAttribute] when its new value differs from the old one, and none
    when the value is unchanged. *)
Theorem morphAttrs_patch_rules (vFromEl toEl : vnode) (oldAttrs newAttrs : attrs)
    (name : string) (value : jsval) :
  bA_ vFromEl = Some oldAttrs →
  bA_ toEl = Some newAttrs →
  has_flag (_f_ toEl) FLAG_CUSTOM_ELEMENT = false →
  has_flag (_f_ toEl) FLAG_SIMPLE_ATTRS && has_flag (_f_ vFromEl) FLAG_SIMPLE_ATTRS = false →
  attrs_addr oldAttrs ≠ attrs_addr newAttrs →
  NoDup (attrs_entries newAttrs).*1 →
  (name, value) ∈ attrs_entries newAttrs →
  name ≠ ATTR_XLINK_HREF →
  ∃ ops, morphAttrs_ops vFromEl toEl = Some ops ∧
    ops_on name ops =
      if is_absent_value value then [RemoveAttr None name]
      else if strict_eq (attr_get name oldAttrs) value then []
           else [SetAttr None name (attrValueString value)].
Proof.
  intros Hold Hnew Hcustom Hsimple Haddr Hnd Hin Hne.
  rewrite (general_path_ops _ _ _ _ Hold Hnew Hcustom Hsimple Haddr).
  eexists. split; [done|].
  rewrite ops_on_app, (ops_on_patch _ _ name value) by done.
  assert (attr_in name newAttrs = true) as Hattr.
  { apply bool_decide_eq_true. apply (list_elem_of_fmap_2 fst _ _ Hin). }
  assert (ops_on name (if decide (aE_ toEl = KNull)
                       then attrs_entries oldAttrs ≫= remove_stale_attr newAttrs else []) = []) as ->.
  { case_decide; [by apply ops_on_stale|done]. }
  rewrite app_nil_r. unfold patch_attr. simpl. rewrite attr_slot_plain by done.
  destruct (is_absent_value value); [done|]. by destruct (strict_eq _ _).
Qed.

(** The rules at the class attribute of the example: one [setAttribute]. *)
Lemma morphAttrs_patch_rules_witness :
  ∃ ops, morphAttrs_ops class_a_id_x class_b_id_x = Some ops ∧
    ops_on "class" ops = [SetAttr None "class" "b"].
Proof.
  apply (morphAttrs_patch_rules class_a_id_x class_b_id_x
           (Attrs (Addr 1) [("class", JStr "a"); ("id", JStr "x")])
           (Attrs (Addr 2) [("class", JStr "b"); ("id", JStr "x")])
           "class" (JStr "b")); try reflexivity; try discriminate.
  - simpl. apply NoDup_cons. split; [|apply NoDup_singleton]. by intros ?%list_elem_of_singleton.
  - by left.
Defined.

(** Patching [{class:"a", id:"x"}] to [{class:"b", id:"x"}] issues one call,
    for class. *)
Example class_a_to_b_one_mutation :
  morphAttrs_ops class_a_id_x class_b_id_x = Some [SetAttr None "class" "b"].
Proof. reflexivity. Qed.

(** With simple attributes on both elements a class that becomes [null]
    is written through [className], not removed. *)
Lemma simple_attrs_null_not_removed :
  morphAttrs_ops simple_class_a simple_class_null = Some [SetProp "className" JNull]
  ∧ ¬ ∃ ops ns, morphAttrs_ops simple_class_a simple_class_null = Some ops ∧ RemoveAttr ns "class" ∈ ops.
Proof.
  split; [reflexivity|]. intros (ops & ns & [= <-] & Hin).
  apply list_elem_of_singleton in Hin. discriminate.
Qed.


Lemma bind_Ok {A B} (m : M A) (f : A → M B) s a s1 :
  m s = Ok (a, s1) → (m ≫= f) s = f a s1.
Proof. intros H. unfold mbind, M_bind, bind. by rewrite H. Qed.

Lemma forEach_cons_Ok {A} (f : A → M unit) x l s s1 :
  f x s = Ok (tt, s1) → forEach (x :: l) f s = forEach l f s1.
Proof. intros H. simpl. unfold mbind, M_bind, bind. by rewrite H. Qed.

Lemma apply_attrOp_frame el op s :
  ∃ s', apply_attrOp (DomNode el) op s = Ok (tt, s') ∧
    ∀ ns name, op_target op ≠ Some (ns, name) →
      dom_getAttribute s' el ns name = dom_getAttribute s el ns name.
Proof.
  destruct op as [ns0 n0 v|ns0 n0|p v]; simpl.
  - eexists. split; [reflexivity|]. intros ns name Hne.
    unfold dom_getAttribute, get_node. simpl. rewrite lookup_alter_eq.
    destruct (nodes s !! el); simpl; [|done].
    rewrite lookup_insert_ne; [done|congruence].
  - eexists. split; [reflexivity|]. intros ns name Hne.
    unfold dom_getAttribute, get_node. simpl. rewrite lookup_alter_eq.
    destruct (nodes s !! el); simpl; [|done].
    rewrite lookup_delete_ne; [done|congruence].
  - unfold dom_writeProperty. destruct (reflected_attribute p) as [a|] eqn:Hp.
    + eexists. split; [reflexivity|]. intros ns name Hne.
      unfold dom_getAttribute, get_node. simpl. rewrite lookup_alter_eq.
      destruct (nodes s !! el); simpl; [|done].
      rewrite lookup_insert_ne; [done|]. intros Heq. apply Hne. by rewrite <- Heq.
    + eexists. split; [reflexivity|]. intros ns name Hne.
      unfold dom_getAttribute, get_node. simpl. rewrite lookup_alter_eq.
      by destruct (nodes s !! el).
Qed.

Lemma apply_attrOps_frame el ops s :
  ∃ s', forEach ops (apply_attrOp (DomNode el)) s = Ok (tt, s') ∧
    ∀ ns name, (∀ op, op ∈ ops → op_target op ≠ Some (ns, name)) →
      dom_getAttribute s' el ns name = dom_getAttribute s el ns name.
Proof.
  revert s. induction ops as [|op ops IH]; intros s.
  - exists s. split; [done|]. done.
  - destruct (apply_attrOp_frame el op s) as (s1 & Hop & Hf1).
    destruct (IH s1) as (s2 & Hops & Hf2).
    exists s2. split.
    + by rewrite (forEach_cons_Ok _ _ _ _ _ Hop).
    + intros ns name Hall. rewrite Hf2, Hf1; [done| |].
      * apply Hall. by left.
      * intros op' Hop'. apply Hall. by right.
Qed.

(** C9 (amended). On the general path of [VElement.aA_], the removal of
    an old attribute that is absent from the new map is issued exactly
    when the key of the target element is [null]; for a keyed target every
    attribute absent from the new map keeps its value on the real
    element. *)
Theorem morphAttrs_stale_removal_only_unkeyed (el : nat) (vFromEl toEl : vnode)
    (oldAttrs newAttrs : attrs) (s : state) :
  bA_ vFromEl = Some oldAttrs →
  bA_ toEl = Some newAttrs →
  has_flag (_f_ toEl) FLAG_CUSTOM_ELEMENT = false →
  has_flag (_f_ toEl) FLAG_SIMPLE_ATTRS && has_flag (_f_ vFromEl) FLAG_SIMPLE_ATTRS = false →
  attrs_addr oldAttrs ≠ attrs_addr newAttrs →
  ∃ ops s',
    morphAttrs_ops vFromEl toEl = Some ops ∧
    morphAttrs (DomNode el) vFromEl toEl s = Ok (tt, s') ∧
    (∀ name, name ∈ (attrs_entries oldAttrs).*1 → attr_in name newAttrs = false →
       name ≠ ATTR_XLINK_HREF →
       RemoveAttr None name ∈ ops ↔ aE_ toEl = KNull) ∧
    (aE_ toEl ≠ KNull → ∀ name, attr_in name newAttrs = false →
       dom_getAttribute s' el (attr_slot name).1 (attr_slot name).2
       = dom_getAttribute s el (attr_slot name).1 (attr_slot name).2).
Proof.
  intros Hold Hnew Hcustom Hsimple Haddr.
  pose proof (general_path_ops _ _ _ _ Hold Hnew Hcustom Hsimple Haddr) as Hops.
  set (s0 := set_vElementByDOMNode (<[DomNode el := toEl]> (vElementByDOMNode s)) s).
  destruct (apply_attrOps_frame el
              ((attrs_entries newAttrs ≫= patch_attr oldAttrs)
               ++ (if decide (aE_ toEl = KNull)
                   then attrs_entries oldAttrs ≫= remove_stale_attr newAttrs else []))%list s0)
    as (s' & Hrun & Hframe).
  eexists _, s'. split; [exact Hops|]. split; [|split].
  - unfold morphAttrs. rewrite Hops. exact Hrun.
  - intros name Hin Hnotin Hne. split.
    + intros Hop. apply elem_of_app in Hop as [Hop|Hop].
      * exfalso. apply list_elem_of_bind in Hop as (e & Hop & He).
        pose proof (patch_attr_target _ _ _ Hop) as Ht. simpl in Ht.
        rewrite <- (attr_slot_plain name) in Ht by done.
        injection Ht as Ht%attr_slot_inj. subst name.
        apply bool_decide_eq_false in Hnotin. apply Hnotin.
        apply (list_elem_of_fmap_2 fst _ _ He).
      * case_decide; [done|]. by apply elem_of_nil in Hop.
    + intros Hk. apply elem_of_app. right. rewrite decide_True by done.
      apply list_elem_of_fmap in Hin as (e & -> & He).
      apply list_elem_of_bind. exists e. split; [|done].
      unfold remove_stale_attr. rewrite Hnotin. rewrite decide_False by done. by left.
  - intros Hk name Hnotin. rewrite decide_False, app_nil_r in Hframe by done.
    rewrite Hframe; [done|].
    intros op Hop. destruct (attr_slot name) as [ns n] eqn:Hslot. simpl. rewrite <- Hslot.
    apply (patch_attr_other_slot oldAttrs (attrs_entries newAttrs)); [|done].
    by apply bool_decide_eq_false in Hnotin.
Qed.

Lemma morphAttrs_stale_removal_only_unkeyed_witness :
  ∃ ops s',
    morphAttrs_ops keyed_class_a_id_x keyed_class_b = Some ops ∧
    morphAttrs (DomNode 0) keyed_class_a_id_x keyed_class_b div_class_a_state = Ok (tt, s') ∧
    (∀ name, name ∈ ["class"; "id"] → attr_in name (Attrs (Addr 2) [("class", JStr "b")]) = false →
       name ≠ ATTR_XLINK_HREF →
       RemoveAttr None name ∈ ops ↔ KStr "k" = KNull) ∧
    (KStr "k" ≠ KNull → ∀ name, attr_in name (Attrs (Addr 2) [("class", JStr "b")]) = false →
       dom_getAttribute s' 0 (attr_slot name).1 (attr_slot name).2
       = dom_getAttribute div_class_a_state 0 (attr_slot name).1 (attr_slot name).2).
Proof.
  exact (morphAttrs_stale_removal_only_unkeyed 0 keyed_class_a_id_x keyed_class_b
           (Attrs (Addr 1) [("class", JStr "a"); ("id", JStr "x")])
           (Attrs (Addr 2) [("class", JStr "b")]) div_class_a_state
           eq_refl eq_refl eq_refl eq_refl ltac:(discriminate)).
Defined.

(** With simple attributes on both elements, a class that is absent from
    the new map of a keyed element is overwritten. *)
Lemma simple_attrs_overwrite_absent_class :
  ∃ s', morphAttrs (DomNode 0) keyed_simple_class_a keyed_simple_no_class div_class_a_state = Ok (tt, s')
    ∧ attr_in "class" (Attrs (Addr 2) [("id", JStr "x")]) = false
    ∧ dom_getAttribute div_class_a_state 0 None "class" = Some "a"
    ∧ dom_getAttribute s' 0 None "class" = Some "undefined".
Proof. eexists. vm_compute. repeat split; reflexivity. Qed.

End AttrFacts.

(** ** The reconciler *)

Section MorphFacts.

(** C5. Constant-id short-circuit: when the new virtual element carries a
    constant-id token equal to that of the old virtual element, [morphEl]
    does nothing but (while a server-rendered tree is adopted) register
    the element under its key: no attribute is compared, the recursive
    call on the children is not made, and the real tree, the record of the
    virtual element and the log are left as they were, whatever the two
    attribute maps hold. *)
Theorem morphEl_constant_id_short_circuit (ctx : context)
    (rec : ref → vnode → option string → M unit) (fromEl : ref) (vFromEl toEl : vnode)
    (toElKey : vkey) (ownerComponent parentComponent : option string) (c : string) (s : state) :
  aI_ toEl = Some c →
  aI_ vFromEl = Some c →
  morphEl ctx rec fromEl vFromEl toEl toElKey ownerComponent parentComponent s =
    (match Q_ ctx, key_truthy toElKey with
     | true, Some k => register_key ownerComponent k fromEl s
     | _, _ => Ok (tt, s)
     end)
  ∧ ∀ s', morphEl ctx rec fromEl vFromEl toEl toElKey ownerComponent parentComponent s = Ok (tt, s') →
      log s' = log s ∧ nodes s' = nodes s ∧ vElementByDOMNode s' = vElementByDOMNode s
      ∧ keySequences s' = keySequences s ∧ detachedNodes s' = detachedNodes s.
Proof.
  intros Hto Hfrom.
  assert (morphEl ctx rec fromEl vFromEl toEl toElKey ownerComponent parentComponent s =
    (match Q_ ctx, key_truthy toElKey with
     | true, Some k => register_key ownerComponent k fromEl s
     | _, _ => Ok (tt, s)
     end)) as Heq.
  { unfold morphEl. rewrite Hto, Hfrom. simpl.
    rewrite bool_decide_eq_true_2 by done. simpl.
    unfold mbind, M_bind, bind.
    destruct (Q_ ctx); [|done]. destruct (key_truthy toElKey); [|done].
    by destruct (register_key ownerComponent s0 fromEl s) as [[[] ?]| |]. }
  split; [exact Heq|].
  intros s'. rewrite Heq. destruct (Q_ ctx); [|by intros [= <-]].
  destruct (key_truthy toElKey); [|by intros [= <-]].
  unfold register_key. destruct ownerComponent; simpl; [|done].
  intros [= <-]. done.
Qed.

(** The theorem at two elements whose attribute maps differ. *)
Lemma morphEl_constant_id_short_circuit_witness :
  morphEl plain_context (λ _ _ _, throw "unreachable") (DomNode 0) const_class_a const_class_b
    KNull None None div_class_a_state = Ok (tt, div_class_a_state)
  ∧ ∀ s', morphEl plain_context (λ _ _ _, throw "unreachable") (DomNode 0) const_class_a
            const_class_b KNull None None div_class_a_state = Ok (tt, s') →
      log s' = log div_class_a_state ∧ nodes s' = nodes div_class_a_state
      ∧ vElementByDOMNode s' = vElementByDOMNode div_class_a_state
      ∧ keySequences s' = keySequences div_class_a_state
      ∧ detachedNodes s' = detachedNodes div_class_a_state.
Proof.
  exact (morphEl_constant_id_short_circuit plain_context (λ _ _ _, throw "unreachable")
           (DomNode 0) const_class_a const_class_b KNull None None "8b8673_0"
           div_class_a_state eq_refl eq_refl).
Defined.

End MorphFacts.


(** ** Destroying and detaching real nodes *)


Lemma modify_bind {B} (f : state → state) (k : unit → M B) s :
  (modify f ≫= k) s = k tt (f s).
Proof. done. Qed.

Lemma get_bind {B} (k : state → M B) s : (get ≫= k) s = k s s.
Proof. done. Qed.

Lemma destroyed_only_refl s : destroyed_only s s.
Proof. repeat split. exists []. by rewrite app_nil_r. Qed.

Lemma destroyed_only_trans s1 s2 s3 :
  destroyed_only s1 s2 → destroyed_only s2 s3 → destroyed_only s1 s3.
Proof.
  intros (? & ? & ? & ? & ? & ? & ? & evs1 & Hl1 & He1) (? & ? & ? & ? & ? & ? & ? & evs2 & Hl2 & He2).
  repeat split; try congruence.
  exists (evs1 ++ evs2)%list. split; [by rewrite Hl2, Hl1, app_assoc|by apply Forall_app].
Qed.











Lemma unlink_parent_None (m : gmap nat domNode) n :
  (unlink n m !! n ≫= parentNode) = None.
Proof.
  unfold unlink. destruct (m !! n ≫= parentNode) as [p|] eqn:Hp; [|done].
  rewrite lookup_alter_eq. by destruct (alter _ p m !! n).
Qed.


Section DetachFacts.
Context (ctx : context) (rec : ref → vnode → option string → M unit).


End DetachFacts.


(** A node detached and then matched again by key in the same pass
    survives it: rendering the keyed children [B; C; D] and then [D; B]
    queues [B] and [C], moves [D] and [B], and removes [C] only; the real
    nodes of [D] and [B] are the ones of the first render. *)
Example rescued_node_survives :
  ∃ s1 s2,
    render_twice 20 plain_context keyed_b_c_d keyed_d_b = Ok (s1, s2)
    ∧ body_children s1 = [1; 2; 3]
    ∧ detachedNodes s2 = [DomNode 1; DomNode 2]
    ∧ body_children s2 = [3; 1]
    ∧ log s2 = [EvInsertBefore 0 3 (Some 2); EvInsertBefore 0 1 None; EvRemoveChild 0 2].
Proof. eexists _, _. vm_compute. repeat split; reflexivity. Qed.

(** ** Lists of children *)

Lemma after_middle (pre post : list nat) c :
  c ∉ pre → after c (pre ++ c :: post) = head post.
Proof.
  induction pre as [|y pre IH]; intros Hc; simpl.
  - by rewrite decide_True.
  - rewrite decide_False; [apply IH|]; set_solver.
Qed.

Lemma filter_ne_notin (l : list nat) n : n ∉ l → filter (λ c, c ≠ n) l = l.
Proof.
  induction l as [|y l IH]; intros Hn; [done|].
  rewrite filter_cons_True by set_solver. f_equal. apply IH. set_solver.
Qed.

Lemma filter_ne_middle (pre post : list nat) n :
  n ∉ pre → n ∉ post → filter (λ c, c ≠ n) (pre ++ n :: post) = (pre ++ post)%list.
Proof.
  intros Hpre Hpost. rewrite filter_app, filter_cons_False by (intros H; by apply H).
  by rewrite !filter_ne_notin.
Qed.

Lemma insert_before_ref_middle (pre post : list nat) n r :
  r ∉ pre → insert_before_ref n (Some r) (pre ++ r :: post) = (pre ++ n :: r :: post)%list.
Proof.
  induction pre as [|y pre IH]; intros Hr; simpl.
  - by rewrite decide_True.
  - rewrite decide_False; [by rewrite IH by set_solver|]. intros [= ->]. set_solver.
Qed.

Lemma insert_before_ref_end (l : list nat) n : insert_before_ref n None l = (l ++ [n])%list.
Proof. induction l as [|y l IH]; simpl; [done|]. by rewrite IH. Qed.

(** ** Navigation in a well-formed list of children *)


Lemma raw_nextSibling_wf s p pre c post :
  children_wf s p (pre ++ c :: post) → raw_nextSibling s c = head post.
Proof.
  intros (Hl & Hnd & Hp & Hpar).
  unfold raw_nextSibling. pose proof (Hpar c) as Hc. unfold raw_parentNode in Hc.
  destruct (get_node s c) as [d|] eqn:Hd; [|by (discriminate Hc; set_solver)].
  simpl in *. rewrite Hc by set_solver. simpl. unfold get_node.
  destruct (nodes s !! p) as [pd|]; [|done]. simpl in *. injection Hl as ->.
  apply after_middle. apply NoDup_app in Hnd as (_ & Hnd & _). intros Hin.
  apply (Hnd c Hin). by left.
Qed.


(** ** Moving a child within its parent *)



(** ** The keyed match ahead of the cursor *)

Lemma NoDup_middle (l1 l2 : list nat) x : NoDup (l1 ++ x :: l2) → (x ∉ l1) ∧ (x ∉ l2).
Proof.
  intros H. apply NoDup_app in H as (_ & H1 & H2). apply NoDup_cons in H2 as [H2 _].
  split; [|done]. intros Hin. apply (H1 x Hin). by left.
Qed.




Section RelocateFacts.
Context (ctx : context) (rec : ref → vnode → option string → M unit).


End RelocateFacts.




(** ** The inner loop of an unkeyed target child *)




Section ScanFacts.
Context (ctx : context) (fuel : nat) (rec : ref → vnode → option string → M unit) (p_ : nat).









End ScanFacts.



(** [<div>x</div>] is rendered, then [<span>x</span>]: a new [<span>] with
    a new text is inserted, and the old [<div>] is detached and removed at
    the end of the pass. *)
Example div_replaced_by_span :
  ∃ s1 s2,
    render_twice 20 plain_context div_x span_x = Ok (s1, s2)
    ∧ body_children s1 = [1]
    ∧ body_children s2 = [3]
    ∧ detachedNodes s2 = [DomNode 1]
    ∧ raw_parentNode s2 1 = None
    ∧ log s2 = [EvInsertBefore 0 3 None; EvInsertBefore 3 4 None; EvRemoveChild 0 1].
Proof. eexists _, _. vm_compute. repeat split; reflexivity. Qed.

(** ** A second pass over an unchanged tree *)

Lemma head_same_refl v : head_same v v.
Proof. done. Qed.




Lemma strict_eq_refl v : strict_eq v v = true.
Proof. destruct v; simpl; try done; by apply bool_decide_eq_true_2. Qed.















Section SilentPass.
Context (ctx : context).








End SilentPass.


(** ** The first render of a tree *)








Lemma insertBefore_append s p pd l a d :
  nodes s !! p = Some pd → childNodes pd = l →
  nodes s !! a = Some d → parentNode d = None → a ≠ p →
  insertBefore (DomNode a) None (DomNode p) s =
    Ok (DomNode a,
        set_log (log s ++ [EvInsertBefore p a None])
          (set_nodes (<[a := set_parentNode (Some p) d]>
                        (<[p := set_childNodes (l ++ [a]) pd]> (nodes s))) s)).
Proof.
  intros Hp Hl Ha Hd Hap.
  assert (dom_insertBefore p a None s =
            Ok (tt, set_log (log s ++ [EvInsertBefore p a None])
                      (set_nodes (<[a := set_parentNode (Some p) d]>
                                    (<[p := set_childNodes (l ++ [a]) pd]> (nodes s))) s))) as Hins.
  { assert (alter (set_parentNode (Some p)) a
              (alter (λ d, set_childNodes (insert_before_ref a None (childNodes d)) d) p (nodes s))
            = <[a := set_parentNode (Some p) d]>
                (<[p := set_childNodes (l ++ [a]) pd]> (nodes s))) as Hmap.
    { apply map_eq. intros k.
      destruct (decide (k = a)) as [->|Hka].
      - rewrite lookup_insert_eq, lookup_alter_eq, lookup_alter_ne, Ha by done. done.
      - rewrite lookup_insert_ne, lookup_alter_ne by done.
        destruct (decide (k = p)) as [->|Hkp].
        + rewrite lookup_insert_eq, lookup_alter_eq, Hp. simpl. by rewrite Hl, insert_before_ref_end.
        + by rewrite lookup_insert_ne, lookup_alter_ne. }
    unfold dom_insertBefore. rewrite get_bind.
    rewrite decide_False by done.
    unfold unlink. rewrite Ha. simpl. rewrite Hd.
    unfold mbind, M_bind, bind, ret, modify, emit. simpl. rewrite Hmap. reflexivity. }
  unfold insertBefore, insertBefore_node.
  unfold mbind at 1, M_bind at 1, bind at 1. rewrite get_bind. simpl reference_start.
  by rewrite Hins.
Qed.










Section FirstRender.
Context (ctx : context).





End FirstRender.






(** Keyed children rendered twice: the second pass issues no call. *)
Example keyed_children_second_pass_silent :
  ∃ s1 s2,
    render_twice 20 plain_context keyed_b_c_d keyed_b_c_d = Ok (s1, s2)
    ∧ log s2 = [] ∧ nodes s2 = nodes s1.
Proof. eexists _, _. vm_compute. repeat split; reflexivity. Qed.

Lemma once_refl s : once s s.
Proof. intros c. split; [done|]. destruct (destroyed s c); lia. Qed.

Lemma once_trans s1 s2 s3 : once s1 s2 → once s2 s3 → once s1 s3.
Proof.
  intros H12 H23 c. destruct (H12 c) as [Hd12 He12]. destruct (H23 c) as [Hd23 He23].
  split; [tauto|]. rewrite He23, He12.
  destruct (destroyed s1 c); [rewrite Hd12 by done; lia|].
  destruct (destroyed s2 c); [rewrite Hd23 by done; lia|]. lia.
Qed.

(** Steps that leave the components alone and log no "destroy" event. *)
Lemma once_quiet s s' evs :
  components s' = components s → log s' = log s ++ evs →
  Forall (λ e, ∀ c, e ≠ EvLifecycle c "destroy") evs →
  once s s'.
Proof.
  intros Hc Hl Hevs c. unfold destroyed, get_component, emitted. rewrite Hc, Hl.
  split; [done|]. rewrite filter_app, length_app.
  assert (filter (λ e, e = EvLifecycle c "destroy") evs = []) as ->.
  { clear Hl. induction Hevs as [|e evs He _ IH]; [done|].
    rewrite filter_cons_False by apply He. exact IH. }
  simpl. destruct (q_ _); lia.
Qed.

Lemma keeps_ret {A} (a : A) : keeps_once (ret a).
Proof. intros s a' s' H. injection H as _ H. subst s'. apply once_refl. Qed.

Lemma keeps_throw {A} e : keeps_once (@throw A e).
Proof. by intros s a s'. Qed.

Lemma keeps_out_of_fuel {A} : keeps_once (@out_of_fuel A).
Proof. by intros s a s'. Qed.

Lemma keeps_bind {A B} (m : M A) (k : A → M B) :
  keeps_once m → (∀ a, keeps_once (k a)) → keeps_once (m ≫= k).
Proof.
  intros Hm Hk s b s' H. unfold mbind, M_bind, bind in H.
  destruct (m s) as [[a s1]| |] eqn:Hms; [|done..].
  eapply once_trans; [by eapply Hm|by eapply Hk].
Qed.

Lemma keeps_get_bind {B} (k : state → M B) :
  (∀ s, keeps_once (k s)) → keeps_once (get ≫= k).
Proof. intros Hk s b s' H. rewrite get_bind in H. by eapply Hk. Qed.

Lemma keeps_modify (f : state → state) : (∀ s, once s (f s)) → keeps_once (modify f).
Proof. intros Hf s a s' H. injection H as H. subst s'. apply Hf. Qed.

Lemma keeps_deref {A} (o : option A) : keeps_once (deref o).
Proof. destruct o; [apply keeps_ret|apply keeps_throw]. Qed.

Lemma keeps_forEach {A} (l : list A) (f : A → M unit) :
  (∀ x, keeps_once (f x)) → keeps_once (forEach l f).
Proof.
  intros Hf. induction l as [|x l IH]; [apply keeps_ret|].
  simpl. apply keeps_bind; [apply Hf|]. intros _. exact IH.
Qed.

Lemma keeps_emit e : (∀ c, e ≠ EvLifecycle c "destroy") → keeps_once (emit e).
Proof.
  intros He. apply keeps_modify. intros s. apply (once_quiet _ _ [e]); [done|done|].
  by constructor.
Qed.

Lemma keeps_quiet_modify (f : state → state) :
  (∀ s, components (f s) = components s ∧ log (f s) = log s) → keeps_once (modify f).
Proof.
  intros Hf. apply keeps_modify. intros s. destruct (Hf s) as [Hc Hl].
  apply (once_quiet _ _ []); [done|by rewrite app_nil_r|constructor].
Qed.

Lemma keeps_update_component c (f : component → component) :
  (∀ co, q_ (f co) = q_ co) → keeps_once (update_component c f).
Proof.
  intros Hf. apply keeps_modify. intros s c'. unfold destroyed, emitted. simpl.
  assert (q_ (get_component (set_components (<[c := f (get_component s c)]> (components s)) s) c')
          = q_ (get_component s c')) as ->.
  { unfold get_component at 1. simpl. destruct (decide (c = c')) as [->|Hne].
    - rewrite lookup_insert_eq. simpl. apply Hf.
    - by rewrite lookup_insert_ne. }
  split; [done|]. destruct (q_ _); lia.
Qed.

Ltac keeps_step :=
  first
    [ apply keeps_ret | apply keeps_throw | apply keeps_out_of_fuel | apply keeps_deref
    | apply keeps_get_bind; intros ?
    | apply keeps_bind; [|intros ?]
    | apply keeps_forEach; intros ?
    | apply keeps_emit; by intros ?
    | apply keeps_quiet_modify; by intros ?
    | apply keeps_update_component; by intros ? ].

Lemma keeps_y_ c : keeps_once (y_ c).
Proof.
  intros s a s' H. unfold y_ in H. rewrite get_bind in H.
  destruct (q_ (get_component s c)) eqn:Hq.
  { injection H as H. subst s'. apply once_refl. }
  unfold emitLifecycleEvent, emit, update_component in H. rewrite !modify_bind, get_bind in H.
  set (s1 := set_components _ _) in H.
  assert (once s s1) as H1.
  { assert (log s1 = log s ++ [EvLifecycle c "destroy"]) as Hlog by done.
    assert (∀ c', q_ (get_component s1 c') = if decide (c = c') then true else q_ (get_component s c'))
      as Hq1.
    { intros c'. subst s1. unfold get_component at 1. simpl.
      destruct (decide (c = c')) as [->|Hne]; [by rewrite lookup_insert_eq|].
      by rewrite lookup_insert_ne. }
    intros c'. unfold destroyed, emitted. rewrite Hlog, Hq1, filter_app, length_app.
    destruct (decide (c = c')) as [->|Hne].
    - rewrite Hq. split; [done|]. by rewrite filter_cons_True.
    - split; [done|]. rewrite filter_cons_False by (intros [= ?]; done). simpl.
      destruct (q_ (get_component s c')); lia. }
  assert (keeps_once (root ← deref (h_ (get_component s1 c));
                      modify (λ s, set_componentByDOMNode (delete root (componentByDOMNode s)) s);;
                      update_component c (set_h_ None))) as Hrest.
  { repeat keeps_step. }
  eapply once_trans; [exact H1|]. by eapply Hrest.
Qed.

Lemma keeps_destroyComponentForNode node : keeps_once (destroyComponentForNode node).
Proof.
  unfold destroyComponentForNode. keeps_step.
  destruct (componentByDOMNode _ !! _); [|keeps_step].
  keeps_step; [apply keeps_y_|]. keeps_step.
Qed.

Lemma keeps_destroyNodeRecursive fuel : ∀ node comp, keeps_once (destroyNodeRecursive fuel node comp).
Proof.
  induction fuel as [|fuel IH]; intros node comp; [apply keeps_out_of_fuel|].
  simpl. keeps_step; [apply keeps_destroyComponentForNode|].
  keeps_step. destruct (bool_decide _); [|keeps_step].
  keeps_step.
  - destruct comp as [c|]; [|keeps_step].
    destruct (key_truthy _); [|keeps_step].
    destruct (v_ _ !! _) as [[r|m]|]; try keeps_step.
    destruct (decide _); [|keeps_step]. destruct (_ && _); keeps_step.
  - keeps_step. keeps_step. apply IH.
Qed.

Lemma keeps_dom_remove p n : keeps_once (dom_remove p n).
Proof. unfold dom_remove. repeat keeps_step. Qed.



Lemma bind_inv {A B} (m : M A) (k : A → M B) s b s' :
  (m ≫= k) s = Ok (b, s') → ∃ a s1, m s = Ok (a, s1) ∧ k a s1 = Ok (b, s').
Proof.
  unfold mbind, M_bind, bind. destruct (m s) as [[a s1]| |]; [|done..]. intros H. by exists a, s1.
Qed.

Lemma y__destroyed c s s' : y_ c s = Ok (tt, s') → destroyed s' c = true.
Proof.
  unfold y_. rewrite get_bind. destruct (q_ (get_component s c)) eqn:Hq.
  { intros H. injection H as H. by subst s'. }
  unfold emitLifecycleEvent, emit, update_component. rewrite !modify_bind, get_bind.
  set (s1 := set_components _ _).
  assert (destroyed s1 c = true) as H1.
  { unfold destroyed, get_component. subst s1. simpl. by rewrite lookup_insert_eq. }
  assert (keeps_once (root ← deref (h_ (get_component s1 c));
                      modify (λ s, set_componentByDOMNode (delete root (componentByDOMNode s)) s);;
                      update_component c (set_h_ None))) as Hrest.
  { repeat keeps_step. }
  intros H. by apply (Hrest _ _ _ H c).
Qed.

Lemma destroy_destroyed fuel c s s' : destroy fuel c s = Ok (tt, s') → destroyed s' c = true.
Proof.
  unfold destroy, emit. rewrite modify_bind, get_bind.
  change (get_component (set_log (log s ++ [EvDestroyCalled c]) s) c) with (get_component s c).
  destruct (q_ (get_component s c)) eqn:Hq.
  { intros H. injection H as H. by subst s'. }
  intros H.
  apply bind_inv in H as (root & s1 & _ & H).
  apply bind_inv in H as (ns & s2 & _ & H).
  apply bind_inv in H as ([] & s3 & Hy & H).
  apply y__destroyed in Hy.
  assert (keeps_once (forEach ns (λ n,
            destroyNodeRecursive fuel (DomNode n) None;;
            s ← get; p ← deref (raw_parentNode s n); dom_remove p n);;
          match root with
          | Fragment f => modify (λ s, set_frags (alter (set_frag_detached true) f (frags s)) s)
          | DomNode _ => ret tt
          end;;
          modify (λ s, set_componentLookup (componentLookup s ∖ {[c]}) s);;
          update_component c (λ co, set_v_ ∅ (set_h_ None co)))) as Hrest.
  { keeps_step.
    { keeps_step. keeps_step; [apply keeps_destroyNodeRecursive|].
      keeps_step. keeps_step; [keeps_step|]. apply keeps_dom_remove. }
    keeps_step; [destruct root; keeps_step|].
    keeps_step; [keeps_step|]. keeps_step. }
  by apply (Hrest _ _ _ H c).
Qed.



Lemma unlink_parent (m : gmap nat domNode) n y :
  y ≠ n → (unlink n m !! y ≫= parentNode) = (m !! y ≫= parentNode).
Proof.
  intros Hne. unfold unlink. destruct (m !! n ≫= parentNode) as [p|]; [|done].
  rewrite lookup_alter_ne by done. rewrite lookup_alter.
  destruct (decide (p = y)) as [->|?]; [|done]. by destruct (m !! y).
Qed.



Lemma fragment_nodes_frame f s s' ns :
  nodes s' = nodes s → frags s' = frags s →
  fragment_nodes f s = Ok (ns, s) → fragment_nodes f s' = Ok (ns, s').
Proof.
  intros Hn Hf. unfold fragment_nodes. rewrite !get_bind.
  unfold get_frag, raw_parentNode, get_node. rewrite Hn, Hf.
  destruct (frags s !! f) as [fo|]; [|done]. simpl.
  unfold mbind, M_bind, bind, ret, deref.
  destruct (prefix_through _ _); [|done]. intros H. injection H as ->. done.
Qed.


(** ** The real children that are left *)



Section TailFacts.
Context (ctx : context) (fuel : nat).







End TailFacts.





(** The component is rendered in the first [<div>], then in the second:
    its real nodes are moved, and it is not destroyed. *)
Example moved_component_is_not_destroyed :
  ∃ s',
    morphdom 20 widget_context (DomNode 0) widget_in_second_div (mounted (rendered widget_in_first_div))
      = Ok (tt, s')
    ∧ log s' = [EvInsertBefore 6 2 None; EvInsertBefore 6 5 None; EvInsertBefore 6 3 None]
    ∧ destroyed s' "c1" = false.
Proof. eexists. vm_compute. repeat split; reflexivity. Qed.

(** The component is rendered, then omitted: it is destroyed once and its
    real nodes are removed. *)
Example omitted_component_is_destroyed_once :
  ∃ s',
    morphdom 20 plain_context (DomNode 0) no_widget (mounted (rendered widget_in_first_div))
      = Ok (tt, s')
    ∧ log s' = [EvDestroyCalled "c1"; EvLifecycle "c1" "destroy";
                EvRemoveChild 1 2; EvRemoveChild 1 5; EvRemoveChild 1 3]
    ∧ destroyed s' "c1" = true ∧ emitted s' "c1" = 1%nat.
Proof. eexists. vm_compute. repeat split; reflexivity. Qed.

(** * Further properties *)

(** * Facts *)

Lemma get_entry_set_prop name value o k :
  get_entry k (set_prop name value o) = if decide (k = name) then value else get_entry k o.
Proof.
  induction o as [|[n v] o IH]; simpl.
  - destruct (decide (name = k)), (decide (k = name)); congruence.
  - destruct (decide (n = name)) as [->|Hn]; simpl.
    + destruct (decide (name = k)), (decide (k = name)); congruence.
    + destruct (decide (n = k)) as [->|Hk].
      * destruct (decide (k = name)); congruence.
      * done.
Qed.

Lemma get_entry_delete_prop name o k :
  get_entry k (delete_prop name o) = if decide (k = name) then JUndefined else get_entry k o.
Proof.
  unfold delete_prop. induction o as [|[n v] o IH].
  - simpl. by destruct (decide (k = name)).
  - rewrite filter_cons. simpl. destruct (decide (n ≠ name)) as [Hn|Hn]; simpl.
    + destruct (decide (n = k)) as [->|Hk]; [|done].
      by rewrite decide_False.
    + apply dec_stable in Hn. subst n. rewrite IH.
      destruct (decide (name = k)) as [<-|]; [by rewrite !decide_True by done|done].
Qed.

Lemma has_prop_set_prop name value o k :
  has_prop k (set_prop name value o) = bool_decide (k = name) || has_prop k o.
Proof.
  unfold has_prop. apply eq_true_iff_eq. rewrite orb_true_iff, !bool_decide_eq_true.
  induction o as [|[n v] o IH]; simpl.
  - rewrite elem_of_cons, !elem_of_nil. tauto.
  - destruct (decide (n = name)) as [->|Hn]; simpl; rewrite !elem_of_cons; simpl; tauto.
Qed.

Lemma get_entry_missing k (o : list (string * jsval)) : k ∉ o.*1 → get_entry k o = JUndefined.
Proof.
  induction o as [|[n v] o IH]; simpl; [done|]. rewrite not_elem_of_cons. intros [Hk Ho].
  rewrite decide_False by done. by apply IH.
Qed.

Lemma get_entry_elem k (o : list (string * jsval)) : k ∈ o.*1 → (k, get_entry k o) ∈ o.
Proof.
  induction o as [|[n v] o IH]; simpl; [by rewrite elem_of_nil|]. rewrite elem_of_cons. intros Hk.
  destruct (decide (n = k)) as [->|Hn]; [by left|]. right. apply IH. by destruct Hk.
Qed.

Lemma get_entry_copy k (o : list (string * jsval)) keys t :
  get_entry k (foldl (λ t propName, set_prop propName (get_entry propName o) t) t keys)
  = if decide (k ∈ keys) then get_entry k o else get_entry k t.
Proof.
  revert t. induction keys as [|p keys IH]; intros t; cbn [foldl].
  - rewrite decide_False; [done|]. apply not_elem_of_nil.
  - rewrite IH, get_entry_set_prop.
    destruct (decide (k ∈ keys)) as [Hk|Hk].
    + rewrite decide_True; [done|]. by right.
    + destruct (decide (k = p)) as [->|Hp].
      * rewrite decide_True; [done|]. by left.
      * rewrite decide_False; [done|]. rewrite elem_of_cons. tauto.
Qed.

Lemma get_entry_extend k (o : list (string * jsval)) :
  get_entry k (extend (Some []) (Some o)) = get_entry k o.
Proof.
  unfold extend. simpl. rewrite get_entry_copy. destruct (decide (k ∈ o.*1)); [done|].
  by rewrite (get_entry_missing k o).
Qed.

Lemma set_prop_elem name value (o : list (string * jsval)) e :
  e ∈ set_prop name value o → e = (name, value) ∨ e ∈ o.
Proof.
  induction o as [|[n v] o IH]; simpl.
  - rewrite elem_of_cons, elem_of_nil. tauto.
  - destruct (decide (n = name)) as [->|Hn]; rewrite !elem_of_cons; tauto.
Qed.

Section StateFacts.
Import State.

Lemma defined_copy (o : list (string * jsval)) keys t :
  defined o → defined t → keys ⊆ o.*1 →
  defined (foldl (λ t propName, set_prop propName (get_entry propName o) t) t keys).
Proof.
  intros Ho. revert t. induction keys as [|p keys IH]; intros t Ht Hk; simpl; [done|].
  apply IH.
  - intros e He. apply set_prop_elem in He as [->|He]; [|by apply Ht].
    apply (Ho (p, get_entry p o)). apply get_entry_elem, Hk. by left.
  - intros x Hx. apply Hk. by right.
Qed.

Lemma defined_set_prop name value o : value ≠ JUndefined → defined o → defined (set_prop name value o).
Proof. intros Hv Ho e He. apply set_prop_elem in He as [->|He]; [done|by apply Ho]. Qed.

Lemma defined_delete_prop name o : defined o → defined (delete_prop name o).
Proof. intros Ho e He. apply Ho. unfold delete_prop in He. by apply list_elem_of_filter in He as [_ ?]. Qed.

Lemma get_entry_store name value (o : list (string * jsval)) k :
  get_entry k (if decide (value = JUndefined) then delete_prop name o else set_prop name value o)
  = if decide (k = name) then value else get_entry k o.
Proof.
  destruct (decide (value = JUndefined)) as [->|Hv].
  - apply get_entry_delete_prop.
  - apply get_entry_set_prop.
Qed.

Lemma defined_store name value (o : list (string * jsval)) :
  defined o →
  defined (if decide (value = JUndefined) then delete_prop name o else set_prop name value o).
Proof.
  intros Ho. destruct (decide (value = JUndefined)) as [->|Hv].
  - by apply defined_delete_prop.
  - by apply defined_set_prop.
Qed.

Lemma defined_extend (o : list (string * jsval)) : defined o → defined (extend (Some []) (Some o)).
Proof.
  intros Ho. apply defined_copy; [done| |done]. intros e He. by apply elem_of_nil in He.
Qed.

(** What one call of [E_] does. *)
Lemma E__step name value forceDirty st :
  consistent st →
  ∃ st' called,
    E_ name value forceDirty st = Ok (st', called)
    ∧ consistent st'
    ∧ called = negb (s_ st) && s_ st'
    ∧ (s_ st = true → s_ st' = true ∧ K_ st' = K_ st)
    ∧ (s_ st = false → s_ st' = true → K_ st' = Some (V_ st))
    ∧ (∀ k, k ≠ name → get_entry k (V_ st') = get_entry k (V_ st))
    ∧ strict_eq (get_entry name (V_ st')) value = true
    ∧ (defined (V_ st) → defined (V_ st')).
Proof.
  intros Hc. unfold E_.
  destruct (negb forceDirty && strict_eq (get_entry name (V_ st)) value) eqn:Hsame.
  { exists st, false. apply andb_true_iff in Hsame as [_ Hsame].
    repeat split; try done.
    - by destruct (s_ st).
    - intros H1 H2. congruence. }
  clear Hsame.
  set (st1 := if forceDirty then _ else st).
  assert (Hst1 : V_ st1 = V_ st ∧ s_ st1 = s_ st ∧ K_ st1 = K_ st ∧ J_ st1 = J_ st)
    by (unfold st1; by destruct forceDirty).
  destruct Hst1 as (HV & Hs & HK & HJ). clearbody st1.
  unfold consistent in Hc.
  destruct (s_ st) eqn:Hdirty.
  - destruct Hc as (old & changes & HKo & HJc & Hread).
    rewrite Hs. simpl. rewrite HJ, HJc.
    eexists _, false. split; [reflexivity|]. simpl. rewrite Hs, HV, HK.
    split; [|split; [done|split; [by intros|split; [by intros|split; [|split]]]]].
    + unfold consistent. simpl. rewrite Hs. exists old, (set_prop name value changes).
      split; [by rewrite HK|split; [done|]]. intros k.
      rewrite get_entry_store, has_prop_set_prop, get_entry_set_prop.
      destruct (decide (k = name)) as [->|Hk].
      * by rewrite bool_decide_eq_true_2.
      * rewrite bool_decide_eq_false_2 by done. apply Hread.
    + intros k Hk. rewrite get_entry_store. by rewrite decide_False.
    + rewrite get_entry_store, decide_True by done. apply strict_eq_refl.
    + apply defined_store.
  - destruct Hc as [HKn HJn]. rewrite Hs. simpl.
    eexists _, true. split; [reflexivity|]. simpl.
    split; [|split; [done|split; [by intros|split; [by intros|split; [|split]]]]].
    + unfold consistent. simpl. exists (V_ st), [(name, value)].
      split; [done|split; [done|]]. intros k.
      rewrite get_entry_store, get_entry_extend. unfold has_prop. simpl.
      destruct (decide (k = name)) as [->|Hk].
      * rewrite bool_decide_eq_true_2 by (by left). by rewrite decide_True.
      * rewrite bool_decide_eq_false_2; [done|]. rewrite elem_of_cons, elem_of_nil. tauto.
    + intros k Hk. rewrite get_entry_store. rewrite decide_False by done. apply get_entry_extend.
    + rewrite get_entry_store, decide_True by done. apply strict_eq_refl.
    + intros Hd. by apply defined_store, defined_extend.
Qed.

Lemma strict_eq_undefined v : strict_eq v JUndefined = true → v = JUndefined.
Proof. by destruct v. Qed.

Lemma E__tracked name value forceDirty : tracked_step (E_ name value forceDirty).
Proof.
  intros st Hc. destruct (E__step name value forceDirty st Hc)
    as (st' & called & HE & Hc' & Hcalled & Hd & Hk & _ & _ & Hdef).
  exists st', called. repeat split; try done; try (by apply Hd).
  intros Hclean. destruct (s_ st') eqn:Hs'; [by apply Hk|].
  unfold E_ in HE. destruct (negb forceDirty && strict_eq (get_entry name (V_ st)) value).
  { by injection HE as <- _. }
  destruct forceDirty; simpl in HE; rewrite Hclean in HE; simpl in HE;
    injection HE as <- _; done.
Qed.

Lemma skip_tracked : tracked_step (λ st, Ok (st, false)).
Proof.
  intros st Hc. exists st, false. repeat split; try done.
  - by destruct (s_ st).
  - intros ->. done.
Qed.

Lemma each_tracked {A} (l : list A) (f : A → t → result (t * bool)) :
  (∀ x, tracked_step (f x)) →
  ∀ st, consistent st →
    ∃ st' calls, each l f st = Ok (st', calls)
      ∧ consistent st'
      ∧ calls = (if negb (s_ st) && s_ st' then 1 else 0)
      ∧ (s_ st = true → s_ st' = true ∧ K_ st' = K_ st)
      ∧ (s_ st = false → if s_ st' then K_ st' = Some (V_ st) else st' = st)
      ∧ (defined (V_ st) → defined (V_ st')).
Proof.
  intros Hf. induction l as [|x l IH]; intros st Hc; simpl.
  - exists st, 0. repeat split; try done.
    + by destruct (s_ st).
    + intros ->. done.
  - destruct (Hf x st Hc) as (st1 & called & -> & Hc1 & -> & Hd1 & Hk1 & Hdef1).
    destruct (IH st1 Hc1) as (st2 & calls & -> & Hc2 & -> & Hd2 & Hk2 & Hdef2).
    exists st2, ((if negb (s_ st) && s_ st1 then 1 else 0) + (if negb (s_ st1) && s_ st2 then 1 else 0)).
    split; [done|]. split; [done|].
    destruct (s_ st) eqn:Hs.
    + destruct (Hd1 eq_refl) as [Hs1 HK1]. destruct (Hd2 Hs1) as [Hs2 HK2].
      rewrite Hs1, Hs2. simpl. repeat split; try done; [congruence|by auto].
    + specialize (Hk1 eq_refl). destruct (s_ st1) eqn:Hs1.
      * destruct (Hd2 eq_refl) as [Hs2 HK2]. rewrite Hs2. simpl.
        repeat split; try done; [congruence|by auto].
      * subst st1. specialize (Hk2 eq_refl). simpl.
        destruct (s_ st2) eqn:Hs2; repeat split; try done; by auto.
Qed.


End StateFacts.




(** X2. Change tracking: any run of [E_] calls on a clean state returns.  When
    it leaves the state dirty, [D_] was called once, the old state [K_] is
    the raw state from before the run, and every property reads as the
    change recorded for it in [J_], or as in the old state when there is
    none.  When it leaves the state clean, the state is the one from before
    and [D_] was not called. *)
Theorem State_tracks_changes (ops : list (string * jsval * bool)) (st : State.t) :
  State.consistent st → State.s_ st = false →
  ∃ st' calls,
    State.each ops (λ op, State.E_ op.1.1 op.1.2 op.2) st = Ok (st', calls)
    ∧ if State.s_ st' then
        calls = 1 ∧ State.K_ st' = Some (State.V_ st)
        ∧ ∃ changes, State.J_ st' = Some changes
            ∧ ∀ k, get_entry k (State.V_ st')
                   = if has_prop k changes then get_entry k changes
                     else get_entry k (State.V_ st)
      else calls = 0 ∧ st' = st.
Proof.
  intros Hc Hclean.
  destruct (each_tracked ops (λ op, State.E_ op.1.1 op.1.2 op.2)) with (st := st)
    as (st' & calls & HE & Hc' & Hcalls & _ & Hk & _); [|done|].
  { intros op. apply E__tracked. }
  exists st', calls. split; [done|]. specialize (Hk Hclean). rewrite Hclean in Hcalls.
  unfold State.consistent in Hc'. destruct (State.s_ st') eqn:Hs'.
  - destruct Hc' as (old & changes & HK & HJ & Hread).
    split; [done|]. split; [done|]. exists changes. split; [done|].
    intros k. rewrite Hread. rewrite Hk in HK. by injection HK as <-.
  - by split.
Qed.

Lemma State_tracks_changes_witness :
  ∃ st' calls,
    State.each [("a", JNum 1, false); ("a", JNum 2, false)]
      (λ op, State.E_ op.1.1 op.1.2 op.2) State.new = Ok (st', calls)
    ∧ if State.s_ st' then
        calls = 1 ∧ State.K_ st' = Some (State.V_ State.new)
        ∧ ∃ changes, State.J_ st' = Some changes
            ∧ ∀ k, get_entry k (State.V_ st')
                   = if has_prop k changes then get_entry k changes
                     else get_entry k (State.V_ State.new)
      else calls = 0 ∧ st' = State.new.
Proof.
  apply (State_tracks_changes [("a", JNum 1, false); ("a", JNum 2, false)] State.new).
  - by vm_compute.
  - reflexivity.
Defined.

Lemma H__queued component m :
  UpdateManager.queued component (UpdateManager.H_ component m)
  = S (UpdateManager.queued component m)
  ∧ (UpdateManager.scheduled (UpdateManager.H_ component m) ≤ S (UpdateManager.scheduled m))%nat.
Proof.
  unfold UpdateManager.queued, UpdateManager.H_, UpdateManager.scheduleUpdates.
  destruct m as [sch stack queue n]. simpl.
  destruct (decide (length stack = 0)) as [Hl|Hl].
  - destruct sch; simpl; (split; [|lia]);
      rewrite !filter_app, !length_app, filter_cons_True by done; simpl; lia.
  - simpl. split; [|lia].
    destruct stack as [|b stack _] using rev_ind; [done|].
    rewrite length_app. simpl. replace (length stack + 1 - 1) with (length stack + 0) by lia.
    rewrite alter_app_r. simpl. rewrite !fmap_app, !concat_app. simpl.
    rewrite !app_nil_r, !filter_app, !length_app, filter_cons_True by done. simpl. lia.
Qed.

Section DirtyFacts.
Import Dirty.

Lemma D__twice w : D_ (D_ w) = D_ w.
Proof. unfold D_. destruct w as [c m]. simpl. by destruct (r_ c) eqn:Hr; simpl; rewrite ?Hr. Qed.

Lemma iter_D_ calls w : Nat.iter calls D_ w = if decide (calls = 0) then w else D_ w.
Proof.
  induction calls as [|n IH]; [done|]. simpl. rewrite IH.
  destruct (decide (n = 0)); [done|apply D__twice].
Qed.

(** One call keeps "queued if and only if dirty". *)
Lemma run_call_queued (cl : call) (c : t) (m : UpdateManager.t) (st : State.t) :
  g_ c = Some st → State.consistent st → r_ c = I_ c →
  ∃ c' m' st',
    run_call cl (c, m) = Ok (c', m')
    ∧ id c' = id c ∧ g_ c' = Some st' ∧ State.consistent st'
    ∧ r_ c' = I_ c'
    ∧ (I_ c = true → I_ c' = true)
    ∧ m' = if negb (I_ c) && I_ c' then UpdateManager.H_ (id c) m else m.
Proof.
  intros Hg Hc Hr.
  assert (Hstate : ∀ f : State.t → result (State.t * nat),
    (∃ st' calls, f st = Ok (st', calls) ∧ State.consistent st'
       ∧ calls = (if negb (State.s_ st) && State.s_ st' then 1 else 0)
       ∧ (State.s_ st = true → State.s_ st' = true)) →
    ∃ c' m' st',
      on_state f (c, m) = Ok (c', m')
      ∧ id c' = id c ∧ g_ c' = Some st' ∧ State.consistent st'
      ∧ r_ c' = I_ c'
      ∧ (I_ c = true → I_ c' = true)
      ∧ m' = if negb (I_ c) && I_ c' then UpdateManager.H_ (id c) m else m).
  { intros f (st' & calls & Hf & Hc' & Hcalls & Hkeep).
    unfold on_state. simpl. rewrite Hg, Hf, iter_D_.
    destruct c as [i g r s]. unfold I_ in *. simpl in *. subst g r.
    destruct s; simpl in *.
    - destruct (decide (calls = 0)); unfold D_; simpl; eexists _, _, st'; by repeat split.
    - destruct (State.s_ st) eqn:Hs; simpl in *.
      + specialize (Hkeep eq_refl). subst calls. simpl. eexists _, _, st'.
        repeat split; simpl; by rewrite ?Hkeep.
      + destruct (State.s_ st') eqn:Hs'; subst calls; simpl; unfold D_; simpl;
          eexists _, _, st'; repeat split; simpl; by rewrite ?Hs'. }
  assert (Heach : ∀ {A} (l : list A) (f : A → State.t → result (State.t * bool)),
    (∀ x, State.tracked_step (f x)) →
    ∃ st' calls, State.each l f st = Ok (st', calls) ∧ State.consistent st'
       ∧ calls = (if negb (State.s_ st) && State.s_ st' then 1 else 0)
       ∧ (State.s_ st = true → State.s_ st' = true)).
  { intros A l f Hf. destruct (each_tracked l f Hf st Hc) as (st' & calls & ? & ? & ? & Hd & _).
    exists st', calls. repeat split; try done. intros Hdirty. by apply Hd. }
  destruct cl as [name value|newState|name value|newState|]; simpl.
  - apply Hstate, Heach. intros x. apply E__tracked.
  - unfold setState_object. destruct newState as [|e newState].
    + exists c, m, st. repeat split; try done. by destruct (I_ c).
    + apply Hstate, Heach. intros x. apply E__tracked.
  - apply Hstate, Heach. intros x. apply E__tracked.
  - apply Hstate. unfold State.C_.
    destruct (each_tracked (State.V_ st).*1
                (λ key st, if has_prop key newState then Ok (st, false)
                           else State.E_ key JUndefined false st)) with (st := st)
      as (st1 & calls1 & -> & Hc1 & -> & Hd1 & Hk1 & _); [|done|].
    { intros key. destruct (has_prop key newState); [apply skip_tracked|apply E__tracked]. }
    destruct (each_tracked newState.*1 (λ key, State.E_ key (get_entry key newState) false))
      with (st := st1) as (st2 & calls2 & -> & Hc2 & -> & Hd2 & Hk2 & _); [|done|].
    { intros key. apply E__tracked. }
    eexists _, _. split; [done|]. split; [done|].
    destruct (State.s_ st) eqn:Hs.
    + destruct (Hd1 eq_refl) as [Hs1 _]. destruct (Hd2 Hs1) as [Hs2 _].
      rewrite Hs1, Hs2. by simpl.
    + destruct (State.s_ st1) eqn:Hs1.
      * destruct (Hd2 eq_refl) as [Hs2 _]. rewrite Hs2. by simpl.
      * simpl. by destruct (State.s_ st2).
  - unfold forceUpdate, D_. destruct c as [i g r s]. unfold I_ in *. simpl in *. subst g r.
    destruct s; simpl.
    + eexists _, _, st. by repeat split.
    + destruct (State.s_ st) eqn:Hs; simpl; eexists _, _, st; repeat split; simpl; by rewrite ?Hs.
Qed.

End DirtyFacts.

(** X3. Between two updates a component is queued once: after any run of
    [setState], [setStateDirty], [replaceState] and [forceUpdate] calls on
    a component that is queued if and only if it is dirty, this is still
    so; the update manager is told as the component turns dirty, once, and
    is left alone otherwise, so that the component is in the queues once
    more than before at most, and [nextTick] was called once at most. *)
Theorem component_queued_once (cs : list Dirty.call) (c : Dirty.t) (m : UpdateManager.t)
    (st : State.t) :
  Dirty.g_ c = Some st → State.consistent st → Dirty.r_ c = Dirty.I_ c →
  ∃ c' m',
    Dirty.run cs (c, m) = Ok (c', m')
    ∧ Dirty.r_ c' = Dirty.I_ c'
    ∧ m' = (if negb (Dirty.I_ c) && Dirty.I_ c' then UpdateManager.H_ (Dirty.id c) m else m)
    ∧ UpdateManager.queued (Dirty.id c) m'
      = (UpdateManager.queued (Dirty.id c) m
         + (if negb (Dirty.I_ c) && Dirty.I_ c' then 1 else 0))%nat
    ∧ (UpdateManager.scheduled m' ≤ S (UpdateManager.scheduled m))%nat.
Proof.
  intros Hg Hc Hr.
  assert (∃ c' m' st', Dirty.run cs (c, m) = Ok (c', m')
            ∧ Dirty.id c' = Dirty.id c ∧ Dirty.g_ c' = Some st' ∧ State.consistent st'
            ∧ Dirty.r_ c' = Dirty.I_ c'
            ∧ (Dirty.I_ c = true → Dirty.I_ c' = true)
            ∧ m' = if negb (Dirty.I_ c) && Dirty.I_ c' then UpdateManager.H_ (Dirty.id c) m else m)
    as (c' & m' & st' & Hrun & _ & _ & _ & Hr' & _ & Hm).
  { revert c m st Hg Hc Hr. induction cs as [|cl cs IH]; intros c m st Hg Hc Hr; simpl.
    - exists c, m, st. repeat split; try done. by destruct (Dirty.I_ c).
    - destruct (run_call_queued cl c m st Hg Hc Hr)
        as (c1 & m1 & st1 & -> & Hid1 & Hg1 & Hc1 & Hr1 & Hkeep1 & Hm1).
      destruct (IH c1 m1 st1 Hg1 Hc1 Hr1)
        as (c2 & m2 & st2 & -> & Hid2 & Hg2 & Hc2 & Hr2 & Hkeep2 & Hm2).
      exists c2, m2, st2. repeat split; try done; [congruence|by auto|].
      rewrite Hm2, Hm1, Hid1.
      destruct (Dirty.I_ c) eqn:HI.
      + rewrite (Hkeep1 eq_refl). rewrite (Hkeep2 (Hkeep1 eq_refl)). done.
      + destruct (Dirty.I_ c1) eqn:HI1.
        * by rewrite (Hkeep2 eq_refl).
        * done. }
  exists c', m'. split; [done|]. split; [done|]. split; [done|].
  rewrite Hm. destruct (negb (Dirty.I_ c) && Dirty.I_ c').
  - destruct (H__queued (Dirty.id c) m) as [-> ?]. split; [lia|done].
  - split; lia.
Qed.

Lemma component_queued_once_witness :
  ∃ c' m',
    Dirty.run [Dirty.SetState "a" (JNum 1); Dirty.SetState "b" (JNum 2)]
      (Dirty.Mk "c1" (Some State.new) false false, UpdateManager.Mk false [] [] 0) = Ok (c', m')
    ∧ Dirty.r_ c' = Dirty.I_ c'
    ∧ m' = (if negb (Dirty.I_ (Dirty.Mk "c1" (Some State.new) false false)) && Dirty.I_ c'
            then UpdateManager.H_ "c1" (UpdateManager.Mk false [] [] 0)
            else UpdateManager.Mk false [] [] 0)
    ∧ UpdateManager.queued "c1" m'
      = (UpdateManager.queued "c1" (UpdateManager.Mk false [] [] 0)
         + (if negb (Dirty.I_ (Dirty.Mk "c1" (Some State.new) false false)) && Dirty.I_ c'
            then 1 else 0))%nat
    ∧ (UpdateManager.scheduled m' ≤ S (UpdateManager.scheduled (UpdateManager.Mk false [] [] 0)))%nat.
Proof.
  apply (component_queued_once [Dirty.SetState "a" (JNum 1); Dirty.SetState "b" (JNum 2)]
           (Dirty.Mk "c1" (Some State.new) false false) (UpdateManager.Mk false [] [] 0) State.new).
  - reflexivity.
  - by vm_compute.
  - reflexivity.
Defined.

(** X4. [checkInputChanged] answers "unchanged" for two different objects only
    when they have the same properties with identical values, as long as
    no property of the old input is [undefined]. *)
Theorem checkInputChanged_sound (a b : nat) (old new : list (string * jsval)) :
  NoDup old.*1 → NoDup new.*1 → (∀ e, e ∈ old → e.2 ≠ JUndefined) →
  checkInputChanged (Some (a, old)) (Some (b, new)) = false →
  a = b ∨ (old.*1 ≡ₚ new.*1 ∧ ∀ k, strict_eq (get_entry k old) (get_entry k new) = true).
Proof.
  intros Hold Hnew Hdef. unfold checkInputChanged.
  destruct (decide (a = b)) as [->|Hab]; [by left|]. intros H. right.
  destruct (bool_decide (length old.*1 = length new.*1)) eqn:Hlen; [|done]. simpl in H.
  apply bool_decide_eq_true in Hlen.
  assert (Hsame : ∀ k, k ∈ old.*1 → strict_eq (get_entry k old) (get_entry k new) = true).
  { intros k Hk. destruct (strict_eq (get_entry k old) (get_entry k new)) eqn:Heq; [done|].
    assert (existsb (λ key, negb (strict_eq (get_entry key old) (get_entry key new))) old.*1 = true)
      as Hex; [|by rewrite Hex in H].
    apply existsb_exists. exists k. split; [by apply list_elem_of_In|by rewrite Heq]. }
  assert (Hsub : ∀ k, k ∈ old.*1 → k ∈ new.*1).
  { intros k Hk. destruct (decide (k ∈ new.*1)) as [|Hn]; [done|]. exfalso.
    specialize (Hsame k Hk). rewrite (get_entry_missing k new Hn) in Hsame.
    apply strict_eq_undefined in Hsame.
    apply (Hdef (k, get_entry k old)); [by apply get_entry_elem|done]. }
  assert (Hperm : old.*1 ≡ₚ new.*1).
  { apply submseteq_length_Permutation; [by apply NoDup_submseteq|lia]. }
  split; [done|]. intros k. destruct (decide (k ∈ old.*1)) as [Hk|Hk]; [by apply Hsame|].
  rewrite (get_entry_missing k old Hk), (get_entry_missing k new); [done|].
  by rewrite <- Hperm.
Qed.

Lemma checkInputChanged_sound_witness :
  1 = 2 ∨ ([("a", JNum 1); ("b", JStr "x")].*1 ≡ₚ [("b", JStr "x"); ("a", JNum 1)].*1
           ∧ ∀ k, strict_eq (get_entry k [("a", JNum 1); ("b", JStr "x")])
                    (get_entry k [("b", JStr "x"); ("a", JNum 1)]) = true).
Proof.
  apply (checkInputChanged_sound 1 2 [("a", JNum 1); ("b", JStr "x")] [("b", JStr "x"); ("a", JNum 1)]).
  - compute_done.
  - compute_done.
  - intros e He. repeat (apply elem_of_cons in He as [->|He]; [done|]). by apply elem_of_nil in He.
  - reflexivity.
Defined.

Lemma append_cons x (a b : string) : String x a +:+ b = String x (a +:+ b).
Proof. reflexivity. Qed.

Lemma append_nil (b : string) : "" +:+ b = b.
Proof. reflexivity. Qed.

Lemma prefix_app p s : String.prefix p (p +:+ s) = true.
Proof.
  induction p as [|c p IH]; [rewrite append_nil; by destruct s|].
  rewrite append_cons. simpl. destruct (Ascii.ascii_dec c c); [done|congruence].
Qed.

Lemma substring_all s : String.substring 0 (String.length s) s = s.
Proof. induction s as [|c s IH]; simpl; [done|]. by rewrite IH. Qed.


Lemma substring_app p s :
  String.substring (String.length p) (String.length (p +:+ s) - String.length p) (p +:+ s) = s.
Proof.
  induction p as [|c p IH].
  - rewrite append_nil. simpl. rewrite Nat.sub_0_r. apply substring_all.
  - rewrite append_cons. simpl. apply IH.
Qed.

Lemma remove_first_unfold pat s :
  remove_first pat s =
    if String.prefix pat s
    then String.substring (String.length pat) (String.length s - String.length pat) s
    else match s with
         | EmptyString => EmptyString
         | String c rest => String c (remove_first pat rest)
         end.
Proof. by destruct s. Qed.

Lemma remove_first_prefix p s : remove_first p (p +:+ s) = s.
Proof. rewrite remove_first_unfold, prefix_app. apply substring_app. Qed.

Lemma app_assoc_string (a b c : string) : (a +:+ b) +:+ c = a +:+ (b +:+ c).
Proof. induction a as [|x a IH]; [done|]. rewrite !append_cons. by rewrite IH. Qed.



Section KeyFacts.
Import KeySequence.


End KeyFacts.





(** X7. [normalizeComponentKey] undoes the scoping of [elId]: the id that
    [elId] makes of the nested id [#k] is normalized, with the id of the
    component, to [k]. *)
Theorem normalizeComponentKey_elId (d : ComponentDef.t) (k : string) :
  normalizeComponentKey (ComponentDef.elId (Some ("#" +:+ k)) d) (ComponentDef.id d) = k.
Proof.
  unfold ComponentDef.elId, normalizeComponentKey.
  assert (Hk : String.substring 1 (String.length ("#" +:+ k) - 1) ("#" +:+ k) = k)
    by apply (substring_app "#" k).
  rewrite Hk, !prefix_app.
  rewrite <- (app_assoc_string ("#" +:+ ComponentDef.id d) "-" k).
  rewrite (app_assoc_string "#" (ComponentDef.id d) "-").
  assert (Hp : String.prefix "#" (("#" +:+ ComponentDef.id d +:+ "-") +:+ k) = true)
    by (rewrite (app_assoc_string "#"); apply prefix_app).
  rewrite Hp. apply remove_first_prefix.
Qed.

(** X8. The ids that one [ComponentDef] hands out for nested components without
    a key are pairwise distinct. *)
Theorem ComponentDef_next_ids_distinct (n : nat) (d : ComponentDef.t) :
  NoDup (ComponentDef.next_ids n d).1.
Proof.
  assert (Hids : ∀ n d, (ComponentDef.next_ids n d).1
            = (λ i, ComponentDef.id d +:+ "-c" +:+ pretty (ComponentDef._g_ d + i)) <$> seq 0 n).
  { clear. induction n as [|n IH]; intros d; [done|]. simpl.
    destruct (ComponentDef.next_ids n _) as [rest d2] eqn:Hrest. simpl.
    rewrite Nat.add_0_r. f_equal.
    pose proof (IH (ComponentDef.Mk (ComponentDef.id d) (S (ComponentDef._g_ d)) (ComponentDef.w_ d))) as H.
    rewrite Hrest in H. simpl in H. rewrite H, <- fmap_S_seq, <- list_fmap_compose.
    apply list_fmap_ext. intros _ i _. simpl. do 3 f_equal. lia. }
  rewrite Hids. apply NoDup_fmap_2; [|apply NoDup_seq].
  intros i j H. apply (inj (String.append _)) in H. apply (inj (String.append "-c")) in H.
  apply (inj pretty) in H. lia.
Qed.

Lemma get_entry_unique name (entries : list (string * jsval)) :
  NoDup entries.*1 → ∀ v, (name, v) ∈ entries → get_entry name entries = v.
Proof.
  induction entries as [|[n w] entries IH]; intros Hnd v Hin; [by apply elem_of_nil in Hin|].
  simpl in *. apply NoDup_cons in Hnd as [Hn Hnd]. apply elem_of_cons in Hin as [[= -> ->]|Hin].
  - by rewrite decide_True.
  - rewrite decide_False; [by apply IH|]. intros ->. apply Hn.
    apply list_elem_of_fmap. by exists (name, v).
Qed.










(** ** Materializing an element and reading it back *)


Lemma omap_cons {A B} (f : A → option B) x l :
  omap f (x :: l) = match f x with Some y => y :: omap f l | None => omap f l end.
Proof. reflexivity. Qed.







Section Frames.
Context (R : state → state → Prop) {Hrefl : Reflexive R} {Htrans : Transitive R}.

Lemma preserves_ret {A} (a : A) : preserves R (ret a).
Proof. intros s a' s' H. injection H as _ H. by subst s'. Qed.

Lemma preserves_throw {A} e : preserves R (@throw A e).
Proof. by intros s a s'. Qed.

Lemma preserves_out_of_fuel {A} : preserves R (@out_of_fuel A).
Proof. by intros s a s'. Qed.

Lemma preserves_deref {A} (o : option A) : preserves R (deref o).
Proof. destruct o; [apply preserves_ret|apply preserves_throw]. Qed.

Lemma preserves_bind {A B} (m : M A) (k : A → M B) :
  preserves R m → (∀ a, preserves R (k a)) → preserves R (m ≫= k).
Proof.
  intros Hm Hk s b s' H. apply bind_inv in H as (a & s1 & H1 & H2).
  transitivity s1; [by eapply Hm|by eapply Hk].
Qed.

Lemma preserves_get_bind {B} (k : state → M B) :
  (∀ s, preserves R (k s)) → preserves R (get ≫= k).
Proof. intros Hk s b s' H. rewrite get_bind in H. by eapply Hk. Qed.

Lemma preserves_modify (f : state → state) : (∀ s, R s (f s)) → preserves R (modify f).
Proof. intros Hf s a s' H. injection H as H. subst s'. apply Hf. Qed.

Lemma preserves_forEach {A} (l : list A) (f : A → M unit) :
  (∀ x, preserves R (f x)) → preserves R (forEach l f).
Proof.
  intros Hf. induction l as [|x l IH]; [apply preserves_ret|].
  simpl. apply preserves_bind; [apply Hf|]. intros _. exact IH.
Qed.

(** The steps of [y_], [destroyComponentForNode] and
    [destroyNodeRecursive] keep [R] when the writes that they are made of
    do. *)
Hypothesis R_emit : ∀ e s, is_dom_mutation e = false → R s (set_log (log s ++ [e]) s).
Hypothesis R_component : ∀ c f s,
  (∀ co k, v_ co !! k = None → v_ (f co) !! k = None) →
  R s (set_components (<[c := f (get_component s c)]> (components s)) s).
Hypothesis R_unroot : ∀ r s, R s (set_componentByDOMNode (delete r (componentByDOMNode s)) s).
Hypothesis R_lookup : ∀ c s, R s (set_componentLookup (componentLookup s ∖ {[c]}) s).

Lemma preserves_y_ c : preserves R (y_ c).
Proof.
  unfold y_. apply preserves_get_bind. intros s. destruct (q_ _); [apply preserves_ret|].
  unfold emitLifecycleEvent, emit, update_component.
  apply preserves_bind; [apply preserves_modify; intros ?; by apply R_emit|]. intros _.
  apply preserves_bind; [apply preserves_modify; intros ?; by apply (R_component c (set_q_ true))|].
  intros _. apply preserves_get_bind. intros s1.
  apply preserves_bind; [apply preserves_deref|]. intros root.
  apply preserves_bind; [apply preserves_modify; intros ?; apply R_unroot|]. intros _.
  apply preserves_modify. intros ?. by apply (R_component c (set_h_ None)).
Qed.

Lemma preserves_destroyComponentForNode node : preserves R (destroyComponentForNode node).
Proof.
  unfold destroyComponentForNode. apply preserves_get_bind. intros s.
  destruct (componentByDOMNode _ !! _); [|apply preserves_ret].
  apply preserves_bind; [apply preserves_y_|]. intros _.
  apply preserves_modify. intros ?. apply R_lookup.
Qed.

Lemma preserves_destroyNodeRecursive fuel : ∀ node comp,
  preserves R (destroyNodeRecursive fuel node comp).
Proof.
  induction fuel as [|fuel IH]; intros node comp; [apply preserves_out_of_fuel|].
  simpl. apply preserves_bind; [apply preserves_destroyComponentForNode|]. intros _.
  apply preserves_get_bind. intros s. destruct (bool_decide _); [|apply preserves_ret].
  apply preserves_bind.
  - destruct comp as [c|]; [|apply preserves_ret].
    destruct (key_truthy _) as [key|]; [|apply preserves_ret].
    destruct (v_ _ !! _) as [[r|m]|]; try apply preserves_ret.
    destruct (decide _); [|apply preserves_ret]. destruct (_ && _); [apply preserves_ret|].
    unfold update_component. apply preserves_modify. intros ?.
    apply (R_component c (λ co, set_v_ (delete key (v_ co)) co)).
    intros co k Hk. simpl.
    destruct (decide (k = key)) as [->|Hne]; [by rewrite lookup_delete_eq|].
    by rewrite lookup_delete_ne by congruence.
  - intros _. apply preserves_get_bind. intros s1. apply preserves_forEach. intros child. apply IH.
Qed.

End Frames.

Global Instance destroyed_only_reflexive : Reflexive destroyed_only.
Proof. intros s. apply destroyed_only_refl. Qed.
Global Instance destroyed_only_transitive : Transitive destroyed_only.
Proof. intros s1 s2 s3. apply destroyed_only_trans. Qed.

Global Instance keys_shrink_reflexive : Reflexive keys_shrink.
Proof. by intros s c k. Qed.
Global Instance keys_shrink_transitive : Transitive keys_shrink.
Proof. intros s1 s2 s3 H12 H23 c k Hk. by apply H23, H12. Qed.

Lemma get_component_alter c f s c' :
  get_component (set_components (<[c := f (get_component s c)]> (components s)) s) c'
  = if decide (c = c') then f (get_component s c) else get_component s c'.
Proof.
  unfold get_component at 1. simpl. destruct (decide (c = c')) as [->|Hne].
  - by rewrite lookup_insert_eq.
  - by rewrite lookup_insert_ne.
Qed.

Lemma get_component_insert c x m s :
  get_component (set_components (<[c := x]> m) s) c = x.
Proof. unfold get_component. simpl. by rewrite lookup_insert_eq. Qed.

Lemma keys_shrink_destroyNodeRecursive fuel node comp :
  preserves keys_shrink (destroyNodeRecursive fuel node comp).
Proof.
  apply preserves_destroyNodeRecursive; try apply _.
  - by intros e s _ c k.
  - intros c f s Hf c' k Hk. rewrite get_component_alter.
    destruct (decide (c = c')) as [->|]; [by apply Hf|done].
  - by intros r s c k.
  - by intros c s c' k.
Qed.


(** X11. [destroyNodeRecursive] only destroys components: a run that returns
    leaves the real nodes, the fragments, the keys and the records of the
    real nodes and the detach queue as they were, and logs no call that
    changes the real tree. *)
Theorem destroyNodeRecursive_leaves_tree (fuel : nat) (node : ref) (comp : option string)
    (s s' : state) :
  destroyNodeRecursive fuel node comp s = Ok (tt, s') → destroyed_only s s'.
Proof.
  apply (preserves_destroyNodeRecursive destroyed_only).
  - intros e s0 He. repeat split. exists [e]. split; [done|]. by constructor.
  - intros c f s0 _. repeat split. exists []. by rewrite app_nil_r.
  - intros r s0. repeat split. exists []. by rewrite app_nil_r.
  - intros c s0. repeat split. exists []. by rewrite app_nil_r.
Qed.

Lemma destroyNodeRecursive_leaves_tree_witness :
  ∃ s', destroyNodeRecursive 3 (DomNode 1) (Some "c0") keyed_li_state = Ok (tt, s')
        ∧ destroyed_only keyed_li_state s'.
Proof.
  eexists. split; [by vm_compute|].
  apply (destroyNodeRecursive_leaves_tree 3 (DomNode 1) (Some "c0")). by vm_compute.
Defined.

(** X12. [destroyNodeRecursive(node, component)] on a keyed real element that
    is no root of a component and that the component holds under its key:
    when it returns, the key table of the component no longer holds the
    key. *)
Theorem destroyNodeRecursive_forgets_key (fuel : nat) (n : nat) (c key : string)
    (s s' : state) :
  destroyNodeRecursive fuel (DomNode n) (Some c) s = Ok (tt, s') →
  ref_nodeType s (DomNode n) = ELEMENT_NODE →
  plain s n → componentByDOMNode s !! DomNode n = None →
  keysByDOMNode s !! DomNode n = Some (KStr key) → key ≠ "" →
  v_ (get_component s c) !! key = Some (KeyedNode (DomNode n)) →
  v_ (get_component s' c) !! key = None.
Proof.
  intros Hrun Htype Hplain Hroot Hkey Hne Htable.
  destruct fuel as [|fuel]; [done|]. simpl in Hrun.
  assert (destroyComponentForNode (DomNode n) s = Ok (tt, s)) as Hd.
  { unfold destroyComponentForNode. rewrite get_bind. unfold wrap_fragment.
    unfold plain in Hplain. by rewrite Hplain, Hroot. }
  rewrite (bind_Ok _ _ _ _ _ Hd), get_bind in Hrun.
  rewrite bool_decide_eq_true_2 in Hrun by (by left).
  rewrite Hkey in Hrun. simpl in Hrun. rewrite decide_False in Hrun by done.
  rewrite Htable, decide_True in Hrun by done. rewrite Hroot in Hrun. simpl in Hrun.
  unfold update_component in Hrun. rewrite modify_bind, get_bind in Hrun.
  set (s1 := set_components _ s) in Hrun.
  assert (v_ (get_component s1 c) !! key = None) as H1.
  { unfold s1. rewrite get_component_alter, decide_True by done. simpl. apply lookup_delete_eq. }
  assert (preserves keys_shrink
            (forEach (children_to_destroy s1 (DomNode n))
               (λ child, destroyNodeRecursive fuel (DomNode child) (Some c)))) as Hrest.
  { apply preserves_forEach; try apply _. intros child. apply keys_shrink_destroyNodeRecursive. }
  by apply (Hrest _ _ _ Hrun).
Qed.

Lemma destroyNodeRecursive_forgets_key_witness :
  ∃ s', destroyNodeRecursive 3 (DomNode 1) (Some "c0") keyed_li_state = Ok (tt, s')
        ∧ v_ (get_component s' "c0") !! "@item" = None.
Proof.
  eexists. split; [by vm_compute|].
  apply (destroyNodeRecursive_forgets_key 3 1 "c0" "@item" keyed_li_state); by vm_compute.
Defined.

Global Instance roots_shrink_reflexive : Reflexive roots_shrink.
Proof. by intros s r. Qed.
Global Instance roots_shrink_transitive : Transitive roots_shrink.
Proof. intros s1 s2 s3 H12 H23 r Hr. by apply H23, H12. Qed.

Global Instance detached_stay_reflexive : Reflexive detached_stay.
Proof. by intros s. Qed.
Global Instance detached_stay_transitive : Transitive detached_stay.
Proof.
  intros s1 s2 s3 [Hf12 H12] [Hf23 H23]. split; [congruence|]. intros y Hy. by apply H23, H12.
Qed.

Lemma roots_shrink_nodes s s' :
  componentByDOMNode s' = componentByDOMNode s → roots_shrink s s'.
Proof. intros H r. by rewrite H. Qed.

Lemma detached_stay_nodes s s' : nodes s' = nodes s → frags s' = frags s → detached_stay s s'.
Proof. intros Hn Hf. split; [done|]. intros y. unfold raw_parentNode, get_node. by rewrite Hn. Qed.

Lemma roots_shrink_destroyNodeRecursive fuel node comp :
  preserves roots_shrink (destroyNodeRecursive fuel node comp).
Proof.
  apply preserves_destroyNodeRecursive; try apply _.
  - intros e s _. by apply roots_shrink_nodes.
  - intros c f s _. by apply roots_shrink_nodes.
  - intros r s r' Hr. simpl. destruct (decide (r = r')) as [->|Hne].
    + apply lookup_delete_eq.
    + by rewrite lookup_delete_ne.
  - intros c s. by apply roots_shrink_nodes.
Qed.

Lemma roots_shrink_y_ c : preserves roots_shrink (y_ c).
Proof.
  apply preserves_y_; try apply _.
  - intros e s _. by apply roots_shrink_nodes.
  - intros c' f s _. by apply roots_shrink_nodes.
  - intros r s r' Hr. simpl. destruct (decide (r = r')) as [->|Hne].
    + apply lookup_delete_eq.
    + by rewrite lookup_delete_ne.
Qed.

Lemma detached_stay_destroyNodeRecursive fuel node comp :
  preserves detached_stay (destroyNodeRecursive fuel node comp).
Proof.
  apply preserves_destroyNodeRecursive; try apply _.
  - intros e s _. by apply detached_stay_nodes.
  - intros c f s _. by apply detached_stay_nodes.
  - intros r s. by apply detached_stay_nodes.
  - intros c s. by apply detached_stay_nodes.
Qed.

Lemma detached_stay_y_ c : preserves detached_stay (y_ c).
Proof.
  apply preserves_y_; try apply _.
  - intros e s _. by apply detached_stay_nodes.
  - intros c' f s _. by apply detached_stay_nodes.
  - intros r s. by apply detached_stay_nodes.
Qed.

Lemma detached_stay_dom_remove p n s :
  ∃ s', dom_remove p n s = Ok (tt, s') ∧ detached_stay s s' ∧ raw_parentNode s' n = None
        ∧ componentByDOMNode s' = componentByDOMNode s.
Proof.
  eexists. split; [reflexivity|]. simpl. split; [|split; [|done]].
  - split; [done|]. intros y Hy. unfold raw_parentNode, get_node in *. simpl.
    destruct (decide (y = n)) as [->|Hne]; [apply unlink_parent_None|].
    by rewrite unlink_parent.
  - unfold raw_parentNode, get_node. simpl. apply unlink_parent_None.
Qed.

(** The loop of [destroy] over the nodes of the root. *)
Lemma destroy_loop fuel ns : ∀ s s',
  forEach ns (λ n, destroyNodeRecursive fuel (DomNode n) None;;
                   s ← get; p ← deref (raw_parentNode s n); dom_remove p n) s = Ok (tt, s') →
  detached_stay s s' ∧ roots_shrink s s' ∧ ∀ n, n ∈ ns → raw_parentNode s' n = None.
Proof.
  induction ns as [|n ns IH]; intros s s' H.
  - injection H as <-. split; [done|]. split; [done|]. intros n Hn. by apply elem_of_nil in Hn.
  - simpl in H. apply bind_inv in H as ([] & s3 & Hstep & Hrest).
    apply bind_inv in Hstep as ([] & s1 & Hrec & Hstep).
    rewrite get_bind in Hstep. apply bind_inv in Hstep as (p & s2 & Hp & Hrem).
    assert (s2 = s1) as -> by (destruct (raw_parentNode s1 n); [by injection Hp as _ <-|done]).
    destruct (detached_stay_dom_remove p n s1) as (s3' & Hrem' & Hd3 & Hn3 & Hc3).
    rewrite Hrem in Hrem'. injection Hrem' as <-.
    pose proof (detached_stay_destroyNodeRecursive fuel (DomNode n) None _ _ _ Hrec) as Hd1.
    pose proof (roots_shrink_destroyNodeRecursive fuel (DomNode n) None _ _ _ Hrec) as Hr1.
    destruct (IH s3 s' Hrest) as (Hd & Hr & Hns).
    split; [by do 2 (etransitivity; [eassumption|])|].
    split; [etransitivity; [exact Hr1|]; etransitivity; [by apply roots_shrink_nodes|exact Hr]|].
    intros x Hx. apply elem_of_cons in Hx as [->|Hx]; [|by apply Hns].
    by apply Hd.
Qed.

(** X13. What [destroy] leaves of a component that was not destroyed: the
    component has no root and no keyed elements, its id is out of the
    lookup of the mounted components, no real node is its root, the nodes
    of its root fragment are out of the tree, and the fragment is marked as
    detached. *)
Theorem destroy_unregisters (fuel : nat) (c : string) (f : nat) (ns : list nat) (s s' : state) :
  destroy fuel c s = Ok (tt, s') →
  destroyed s c = false →
  h_ (get_component s c) = Some (Fragment f) →
  fragment_nodes f s = Ok (ns, s) →
  destroyed s' c = true
  ∧ h_ (get_component s' c) = None
  ∧ v_ (get_component s' c) = ∅
  ∧ (c ∉ componentLookup s')
  ∧ componentByDOMNode s' !! Fragment f = None
  ∧ (frag_detached <$> frags s' !! f) = Some true
  ∧ ∀ n, n ∈ ns → raw_parentNode s' n = None.
Proof.
  intros Hrun Hq Hroot Hns. split; [by apply (destroy_destroyed fuel c s)|].
  unfold destroy, emit in Hrun. rewrite modify_bind, get_bind in Hrun.
  set (s0 := set_log _ s) in Hrun.
  change (get_component s0 c) with (get_component s c) in Hrun.
  unfold destroyed in Hq. rewrite Hq, Hroot in Hrun. simpl deref in Hrun.
  unfold mbind at 1, M_bind at 1, bind at 1, ret in Hrun.
  assert (fragment_nodes f s0 = Ok (ns, s0)) as Hns0 by (by apply (fragment_nodes_frame f s)).
  rewrite (bind_Ok _ _ _ _ _ Hns0) in Hrun.
  apply bind_inv in Hrun as ([] & s1 & Hy & Hrun).
  apply bind_inv in Hrun as ([] & s2 & Hloop & Hrun).
  rewrite !modify_bind in Hrun. unfold update_component, modify in Hrun.
  injection Hrun as <-.
  destruct (destroy_loop fuel ns s1 s2 Hloop) as ([Hf2 Hd2] & Hr2 & Hn2).
  pose proof (detached_stay_y_ c _ _ _ Hy) as [Hf1 _].
  assert (componentByDOMNode s1 !! Fragment f = None) as Hr1.
  { revert Hy. unfold y_. rewrite get_bind.
    change (get_component s0 c) with (get_component s c). rewrite Hq.
    unfold emitLifecycleEvent, emit, update_component. rewrite !modify_bind, get_bind.
    set (sa := set_components _ _).
    assert (h_ (get_component sa c) = Some (Fragment f)) as ->.
    { unfold sa. rewrite (get_component_alter c (set_q_ true)), decide_True by done. simpl.
      change (get_component (set_log _ s0) c) with (get_component s c). exact Hroot. }
    simpl deref. unfold mbind at 1, M_bind at 1, bind at 1, ret. rewrite modify_bind.
    unfold modify. intros [= <-]. simpl. apply lookup_delete_eq. }
  rewrite get_component_insert. simpl.
  split; [done|]. split; [done|].
  split; [intros Hin; apply elem_of_difference in Hin as [_ Hin]; apply Hin; by apply elem_of_singleton|].
  split; [by apply Hr2|].
  split.
  - rewrite lookup_alter_eq, Hf2, Hf1. simpl.
    unfold fragment_nodes in Hns. rewrite get_bind in Hns. unfold get_frag in Hns.
    destruct (frags s !! f); [done|done].
  - intros n Hn. unfold raw_parentNode, get_node. simpl. by apply Hn2.
Qed.

Lemma destroy_unregisters_witness :
  ∃ s', destroy 3 "c1" (mounted (rendered widget_in_first_div)) = Ok (tt, s')
    ∧ destroyed s' "c1" = true
    ∧ h_ (get_component s' "c1") = None
    ∧ v_ (get_component s' "c1") = ∅
    ∧ ("c1" ∉ componentLookup s')
    ∧ componentByDOMNode s' !! Fragment 0 = None
    ∧ (frag_detached <$> frags s' !! 0) = Some true
    ∧ ∀ n, n ∈ [2; 5; 3] → raw_parentNode s' n = None.
Proof.
  eexists. split; [by vm_compute|].
  apply (destroy_unregisters 3 "c1" 0 [2; 5; 3] (mounted (rendered widget_in_first_div)));
    by vm_compute.
Defined.



Lemma children_wf_node s p l :
  children_wf s p l → ∃ pd, nodes s !! p = Some pd ∧ childNodes pd = l.
Proof.
  intros (Hl & _). destruct (nodes s !! p) as [pd|]; [|done]. exists pd. split; [done|].
  simpl in Hl. by injection Hl.
Qed.

Lemma child_node s p l c :
  children_wf s p l → c ∈ l → ∃ d, nodes s !! c = Some d ∧ parentNode d = Some p.
Proof.
  intros (_ & _ & _ & Hpar) Hc. specialize (Hpar c Hc). unfold raw_parentNode, get_node in Hpar.
  destruct (nodes s !! c) as [d|]; [|done]. by exists d.
Qed.

Lemma NoDup_remove_middle (pre post : list nat) n : NoDup (pre ++ n :: post) → NoDup (pre ++ post).
Proof.
  intros H. apply NoDup_app in H as (H1 & H2 & H3). apply NoDup_cons in H3 as [_ H3].
  apply NoDup_app. split; [done|]. split; [|done]. intros x Hx Hx'. apply (H2 x Hx). by right.
Qed.

Lemma elem_of_middle (pre post : list nat) n : n ∈ pre ++ n :: post.
Proof. apply elem_of_app. right. by left. Qed.

Lemma elem_of_around (pre post : list nat) n x : x ∈ pre ++ post → x ∈ pre ++ n :: post.
Proof. rewrite !elem_of_app, elem_of_cons. tauto. Qed.

(** Moving a child of [p] to the end of another node [q]. *)
Lemma dom_insertBefore_move s p q n pre post lq :
  children_wf s p (pre ++ n :: post) → children_wf s q lq → p ≠ q → n ≠ q →
  ∃ s', dom_insertBefore q n None s = Ok (tt, s')
    ∧ children_wf s' p (pre ++ post) ∧ children_wf s' q (lq ++ [n])
    ∧ (∀ x, x ≠ p → x ≠ q → x ≠ n → nodes s' !! x = nodes s !! x)
    ∧ (∀ x, x ≠ n → raw_parentNode s' x = raw_parentNode s x)
    ∧ (∀ x, (nodeType <$> nodes s' !! x) = (nodeType <$> nodes s !! x)
            ∧ (node_fragment <$> nodes s' !! x) = (node_fragment <$> nodes s !! x))
    ∧ frags s' = frags s
    ∧ log s' = log s ++ [EvInsertBefore q n None].
Proof.
  intros Hp Hq Hpq Hnq.
  destruct (children_wf_node _ _ _ Hp) as (pd & Hpd & Hlp).
  destruct (children_wf_node _ _ _ Hq) as (qd & Hqd & Hlq).
  destruct (child_node s p _ n Hp) as (nd & Hnd & Hnp); [apply elem_of_middle|].
  pose proof Hp as (_ & Hndp & Hpp & Hparp). pose proof Hq as (_ & Hndq & Hqq & Hparq).
  apply NoDup_middle in Hndp as Hmid. destruct Hmid as [Hnpre Hnpost].
  assert (n ≠ p) as Hnp' by (intros ->; apply Hpp; apply elem_of_middle).
  assert (n ∉ lq) as Hnlq.
  { intros Hin. specialize (Hparq n Hin). unfold raw_parentNode, get_node in Hparq.
    rewrite Hnd in Hparq. simpl in Hparq. congruence. }
  set (m' := <[n := set_parentNode (Some q) nd]>
               (<[q := set_childNodes (lq ++ [n]) qd]>
                  (<[p := set_childNodes (pre ++ post) pd]> (nodes s)))).
  assert (alter (set_parentNode (Some q)) n
            (alter (λ d, set_childNodes (insert_before_ref n None (childNodes d)) d) q
               (unlink n (nodes s))) = m') as Hmap.
  { apply map_eq. intros k. unfold unlink, m'. rewrite Hnd. simpl. rewrite Hnp.
    destruct (decide (k = n)) as [->|Hkn].
    - rewrite lookup_insert_eq, lookup_alter_eq, lookup_alter_ne, lookup_alter_eq by done.
      rewrite lookup_alter_ne, Hnd by done. simpl. by destruct nd.
    - rewrite lookup_insert_ne, lookup_alter_ne by done.
      destruct (decide (k = q)) as [->|Hkq].
      + rewrite lookup_insert_eq, lookup_alter_eq, lookup_alter_ne, lookup_alter_ne, Hqd by done.
        simpl. by rewrite Hlq, insert_before_ref_end.
      + rewrite lookup_insert_ne, lookup_alter_ne, lookup_alter_ne by done.
        destruct (decide (k = p)) as [->|Hkp].
        * rewrite lookup_insert_eq, lookup_alter_eq, Hpd. simpl.
          rewrite Hlp, filter_ne_middle by done. done.
        * by rewrite lookup_insert_ne, lookup_alter_ne. }
  assert (Hpar' : ∀ x, x ≠ n → (m' !! x ≫= parentNode) = (nodes s !! x ≫= parentNode)).
  { intros x Hx. unfold m'. rewrite lookup_insert_ne by done.
    destruct (decide (x = q)) as [->|Hxq]; [by rewrite lookup_insert_eq, Hqd|].
    rewrite lookup_insert_ne by done.
    destruct (decide (x = p)) as [->|Hxp]; [by rewrite lookup_insert_eq, Hpd|].
    by rewrite lookup_insert_ne. }
  eexists. split.
  { unfold dom_insertBefore. rewrite get_bind. rewrite decide_False by done.
    unfold mbind, M_bind, bind, ret, modify, emit. simpl. rewrite Hmap. reflexivity. }
  split; [|split; [|split; [|split; [|split; [|done]]]]].
  - split; [|split; [by apply NoDup_remove_middle in Hndp|split]].
    + simpl. unfold m'. by rewrite lookup_insert_ne, lookup_insert_ne, lookup_insert_eq.
    + intros Hin. apply Hpp. by apply elem_of_around.
    + intros c Hc. unfold raw_parentNode, get_node. simpl.
      assert (c ≠ n) as Hcn.
      { intros ->. apply elem_of_app in Hc as [Hc|Hc]; [by apply Hnpre|by apply Hnpost]. }
      rewrite Hpar' by done. apply Hparp. by apply elem_of_around.
  - split; [|split; [|split]].
    + simpl. unfold m'. by rewrite lookup_insert_ne, lookup_insert_eq.
    + apply NoDup_app. split; [done|]. split; [|apply NoDup_singleton].
      intros x Hx Hx'. apply list_elem_of_singleton in Hx'. by subst.
    + intros Hin. apply elem_of_app in Hin as [Hin|Hin]; [done|].
      apply list_elem_of_singleton in Hin. by subst.
    + intros c Hc. unfold raw_parentNode, get_node. simpl.
      apply elem_of_app in Hc as [Hc|Hc].
      * rewrite Hpar' by (intros ->; done). by apply Hparq.
      * apply list_elem_of_singleton in Hc as ->. unfold m'. by rewrite lookup_insert_eq.
  - intros x Hxp Hxq Hxn. simpl. unfold m'. by rewrite !lookup_insert_ne.
  - intros x Hx. unfold raw_parentNode, get_node. simpl. by apply Hpar'.
  - intros x. simpl. unfold m'.
    destruct (decide (x = n)) as [->|Hxn]; [by rewrite lookup_insert_eq, Hnd|].
    rewrite lookup_insert_ne by done.
    destruct (decide (x = q)) as [->|Hxq]; [by rewrite lookup_insert_eq, Hqd|].
    rewrite lookup_insert_ne by done.
    destruct (decide (x = p)) as [->|Hxp]; [by rewrite lookup_insert_eq, Hpd|].
    by rewrite lookup_insert_ne.
Qed.

Lemma move_all q : ∀ ns s p pre post lq,
  p ≠ q → q ∉ ns → children_wf s p (pre ++ ns ++ post) → children_wf s q lq →
  ∃ s', forEach ns (λ n, dom_insertBefore q n None) s = Ok (tt, s')
    ∧ children_wf s' p (pre ++ post) ∧ children_wf s' q (lq ++ ns)
    ∧ (∀ x, x ≠ p → x ≠ q → x ∉ ns → nodes s' !! x = nodes s !! x)
    ∧ (∀ x, x ∉ ns → raw_parentNode s' x = raw_parentNode s x)
    ∧ (∀ x, (nodeType <$> nodes s' !! x) = (nodeType <$> nodes s !! x)
            ∧ (node_fragment <$> nodes s' !! x) = (node_fragment <$> nodes s !! x))
    ∧ frags s' = frags s
    ∧ log s' = log s ++ ((λ n, EvInsertBefore q n None) <$> ns).
Proof.
  induction ns as [|n ns IH]; intros s p pre post lq Hpq Hq Hp Hlq.
  - exists s. simpl in Hp. rewrite !app_nil_r. split; [done|].
    split; [done|]. split; [done|]. by repeat split.
  - apply not_elem_of_cons in Hq as [Hqn Hq].
    destruct (dom_insertBefore_move s p q n pre (ns ++ post) lq)
      as (s1 & Hrun & Hp1 & Hq1 & Hsame1 & Hpar1 & Hkind1 & Hf1 & Hlog1); [done..|].
    destruct (IH s1 p pre post (lq ++ [n]) Hpq Hq Hp1 Hq1)
      as (s2 & Hrun2 & Hp2 & Hq2 & Hsame2 & Hpar2 & Hkind2 & Hf2 & Hlog2).
    exists s2.
    split; [by rewrite (forEach_cons_Ok (λ n, dom_insertBefore q n None) n ns s s1 Hrun)|].
    split; [done|]. split; [by rewrite <- app_assoc in Hq2|].
    split; [|split; [|split; [|split; [congruence|]]]].
    + intros x Hxp Hxq Hx. apply not_elem_of_cons in Hx as [Hxn Hx].
      rewrite Hsame2, Hsame1 by done. done.
    + intros x Hx. apply not_elem_of_cons in Hx as [Hxn Hx]. rewrite Hpar2, Hpar1 by done. done.
    + intros x. destruct (Hkind1 x) as [<- <-]. apply Hkind2.
    + rewrite Hlog2, Hlog1, <- app_assoc. done.
Qed.

Lemma suffix_from_middle (pre post : list nat) x :
  x ∉ pre → suffix_from x (pre ++ x :: post) = x :: post.
Proof.
  induction pre as [|y pre IH]; intros Hx; simpl; [by rewrite decide_True|].
  apply not_elem_of_cons in Hx as [Hxy Hx]. rewrite decide_False by done. by apply IH.
Qed.

Lemma prefix_through_middle (pre post : list nat) x :
  x ∉ pre → prefix_through x (pre ++ x :: post) = Some (pre ++ [x]).
Proof.
  induction pre as [|y pre IH]; intros Hx; simpl; [by rewrite decide_True|].
  apply not_elem_of_cons in Hx as [Hxy Hx]. rewrite decide_False by done. by rewrite IH.
Qed.

(** The nodes of a fragment whose markers are children of [p]. *)
Lemma fragment_nodes_wf s f fo p pre inner post :
  frags s !! f = Some fo →
  children_wf s p (pre ++ startNode fo :: inner ++ endNode fo :: post) →
  fragment_nodes f s = Ok (startNode fo :: inner ++ [endNode fo], s).
Proof.
  intros Hf Hwf. unfold fragment_nodes. rewrite get_bind. unfold get_frag. rewrite Hf. simpl deref.
  unfold mbind at 1, M_bind at 1, bind at 1, ret.
  destruct (children_wf_node _ _ _ Hwf) as (pd & Hpd & Hl).
  pose proof Hwf as (_ & Hnd & _ & Hpar).
  rewrite (Hpar (startNode fo)) by apply elem_of_middle. simpl. unfold get_node. rewrite Hpd. simpl.
  rewrite Hl. apply NoDup_middle in Hnd as Hst. destruct Hst as [Hst _].
  rewrite suffix_from_middle by done.
  apply NoDup_app in Hnd as (_ & _ & Hnd).
  change (startNode fo :: inner ++ endNode fo :: post)
    with ((startNode fo :: inner) ++ endNode fo :: post) in Hnd |- *.
  apply NoDup_middle in Hnd as [Hen _]. by rewrite prefix_through_middle.
Qed.

Lemma forEach_ext {A} (f g : A → M unit) (l : list A) :
  (∀ x s, f x s = g x s) → ∀ s, forEach l f s = forEach l g s.
Proof.
  intros Hfg. induction l as [|x l IH]; intros s; [done|].
  simpl. unfold mbind, M_bind, bind. rewrite Hfg.
  destruct (g x s) as [[[] s1]| |]; [apply IH|done|done].
Qed.


(** X15. [removeChild] of a fragment ([fragment.remove()]): the markers and the
    nodes between them leave their parent, in which the nodes around them
    close up, and become the last children of the detached container, in
    their order; the fragment has no parent any more and keeps its nodes. *)
Theorem fragment_remove (s : state) (f : nat) (fo : fragmentObj) (p : nat)
    (pre inner post ldc : list nat) :
  let ns := startNode fo :: inner ++ [endNode fo] in
  frags s !! f = Some fo →
  children_wf s p (pre ++ ns ++ post) →
  children_wf s (detachedContainer fo) ldc →
  p ≠ detachedContainer fo → detachedContainer fo ∉ ns →
  ∃ s', removeChild (Fragment f) s = Ok (tt, s')
    ∧ children_wf s' p (pre ++ post)
    ∧ children_wf s' (detachedContainer fo) (ldc ++ ns)
    ∧ frag_parentNode s' f = None
    ∧ fragment_nodes f s' = Ok (ns, s').
Proof.
  intros ns Hf Hp Hdc Hpdc Hdcns.
  assert (Hp' : children_wf s p (pre ++ startNode fo :: inner ++ endNode fo :: post)).
  { replace (pre ++ startNode fo :: inner ++ endNode fo :: post) with (pre ++ ns ++ post); [done|].
    unfold ns. simpl. by rewrite <- app_assoc. }
  destruct (move_all (detachedContainer fo) ns s p pre post ldc Hpdc Hdcns Hp Hdc)
    as (s' & Hrun & Hp1 & Hdc1 & _ & _ & _ & Hfr & _).
  exists s'. split; [|split; [done|split; [done|split]]].
  - unfold removeChild. rewrite (bind_Ok _ _ _ _ _ (fragment_nodes_wf s f fo p pre inner post Hf Hp')).
    rewrite (bind_Ok _ _ s fo s); [exact Hrun|].
    rewrite get_bind. unfold get_frag. by rewrite Hf.
  - unfold frag_parentNode, get_frag. rewrite Hfr, Hf. simpl.
    destruct Hdc1 as (_ & _ & _ & Hpar). rewrite (Hpar (startNode fo)).
    + simpl. by rewrite decide_True.
    + apply elem_of_app. right. by left.
  - apply (fragment_nodes_wf s' f fo (detachedContainer fo) ldc inner []); [by rewrite Hfr|].
    replace (ldc ++ startNode fo :: inner ++ [endNode fo]) with (ldc ++ ns); done.
Qed.

Lemma fragment_remove_witness :
  ∃ s', removeChild (Fragment 0) fragment_state = Ok (tt, s')
    ∧ children_wf s' 0 ([1] ++ [5])
    ∧ children_wf s' 6 ([] ++ [2; 3; 4])
    ∧ frag_parentNode s' 0 = None
    ∧ fragment_nodes 0 s' = Ok ([2; 3; 4], s').
Proof.
  apply (fragment_remove fragment_state 0 (MkFragment 2 4 6 None false) 0 [1] [3] [5] []).
  - reflexivity.
  - split; [reflexivity|]. split; [compute_done|]. split; [compute_done|].
    intros c Hc. repeat (apply elem_of_cons in Hc as [->|Hc]; [reflexivity|]). by apply elem_of_nil in Hc.
  - split; [reflexivity|]. split; [constructor|]. split; [apply not_elem_of_nil|].
    intros c Hc. by apply elem_of_nil in Hc.
  - done.
  - compute_done.
Defined.

(** X16. [insertBefore] of a fragment with no reference ([fragment.insertInto]):
    the markers and the nodes between them become the last children of the
    new parent, in their order, and the nodes around them in the old parent
    close up; the fragment keeps its nodes. *)
Theorem fragment_insert_appends (s : state) (f : nat) (fo : fragmentObj) (p q : nat)
    (pre inner post lq : list nat) :
  let ns := startNode fo :: inner ++ [endNode fo] in
  frags s !! f = Some fo →
  children_wf s p (pre ++ ns ++ post) →
  children_wf s q lq →
  p ≠ q → q ∉ ns →
  ∃ s', insertBefore (Fragment f) None (DomNode q) s = Ok (Fragment f, s')
    ∧ children_wf s' p (pre ++ post)
    ∧ children_wf s' q (lq ++ ns)
    ∧ fragment_nodes f s' = Ok (ns, s')
    ∧ log s' = log s ++ ((λ n, EvInsertBefore q n None) <$> ns).
Proof.
  intros ns Hf Hp Hq Hpq Hqns.
  assert (Hp' : children_wf s p (pre ++ startNode fo :: inner ++ endNode fo :: post)).
  { replace (pre ++ startNode fo :: inner ++ endNode fo :: post) with (pre ++ ns ++ post); [done|].
    unfold ns. simpl. by rewrite <- app_assoc. }
  destruct (move_all q ns s p pre post lq Hpq Hqns Hp Hq)
    as (s' & Hrun & Hp1 & Hq1 & _ & _ & _ & Hfr & Hlog).
  exists s'. split; [|split; [done|split; [done|split; [|done]]]].
  - unfold insertBefore.
    rewrite (bind_Ok _ _ _ _ _ (fragment_nodes_wf s f fo p pre inner post Hf Hp')).
    assert (forEach ns (λ n, insertBefore_node n None (DomNode q)) s = Ok (tt, s')) as Hrun'.
    { rewrite <- Hrun. apply forEach_ext. intros n s0. unfold insertBefore_node.
      by rewrite get_bind. }
    by rewrite (bind_Ok _ _ _ _ _ Hrun').
  - apply (fragment_nodes_wf s' f fo q lq inner []); [by rewrite Hfr|].
    replace (lq ++ startNode fo :: inner ++ [endNode fo]) with (lq ++ ns); done.
Qed.

Lemma fragment_insert_appends_witness :
  ∃ s', insertBefore (Fragment 0) None (DomNode 7) fragment_state = Ok (Fragment 0, s')
    ∧ children_wf s' 0 ([1] ++ [5])
    ∧ children_wf s' 7 ([8] ++ [2; 3; 4])
    ∧ fragment_nodes 0 s' = Ok ([2; 3; 4], s')
    ∧ log s' = log fragment_state ++ ((λ n, EvInsertBefore 7 n None) <$> [2; 3; 4]).
Proof.
  apply (fragment_insert_appends fragment_state 0 (MkFragment 2 4 6 None false) 0 7 [1] [3] [5] [8]).
  - reflexivity.
  - split; [reflexivity|]. split; [compute_done|]. split; [compute_done|].
    intros c Hc. repeat (apply elem_of_cons in Hc as [->|Hc]; [reflexivity|]). by apply elem_of_nil in Hc.
  - split; [reflexivity|]. split; [compute_done|]. split; [compute_done|].
    intros c Hc. repeat (apply elem_of_cons in Hc as [->|Hc]; [reflexivity|]). by apply elem_of_nil in Hc.
  - done.
  - compute_done.
Defined.

Lemma create_node_Ok d s :
  create_node d s = Ok (fresh (dom (nodes s)), set_nodes (<[fresh (dom (nodes s)) := d]> (nodes s)) s).
Proof. reflexivity. Qed.


(** X17. [createFragmentNode()] without arguments makes an empty fragment
    outside of the document: its nodes are its two markers, new text nodes
    that carry the fragment and sit in its new detached container; it has
    no first child, no parent and no next sibling; the nodes and the
    fragments that existed are left as they were. *)
Theorem createFragmentNode_empty (s : state) :
  ∃ f s' fo,
    createFragmentNode None None None s = Ok (f, s')
    ∧ (f ∉ dom (frags s))
    ∧ frags s' = <[f := fo]> (frags s)
    ∧ fragment_nodes f s' = Ok ([startNode fo; endNode fo], s')
    ∧ fragment_of s' (startNode fo) = Some f ∧ fragment_of s' (endNode fo) = Some f
    ∧ firstChild s' (Fragment f) = None
    ∧ frag_parentNode s' f = None
    ∧ nextSibling s' (Fragment f) = None
    ∧ (∀ x, x ∈ dom (nodes s) → nodes s' !! x = nodes s !! x).
Proof.
  set (f := fresh (dom (frags s))).
  set (st := fresh (dom (nodes s))).
  set (text := MkDomNode TEXT_NODE "#text" "" "" ∅ ∅ None [] None).
  set (m1 := <[st := text]> (nodes s)).
  set (en := fresh (dom m1)).
  set (m2 := <[en := text]> m1).
  set (marker := set_node_fragment (Some f) text).
  set (m3 := <[en := marker]> (<[st := marker]> (nodes s))).
  set (dc := fresh (dom m3)).
  set (container := MkDomNode DOCUMENT_FRAGMENT_NODE "#document-fragment" "" "" ∅ ∅ None [] None).
  set (m4 := <[dc := container]> m3).
  set (fo := MkFragment st en dc None false).
  assert (Hst : st ∉ dom (nodes s)) by apply is_fresh.
  assert (Hen : en ∉ dom m1) by apply is_fresh.
  assert (Hdc : dc ∉ dom m3) by apply is_fresh.
  assert (Hne1 : en ≠ st).
  { intros Heq. apply Hen. rewrite Heq. unfold m1. rewrite dom_insert. apply elem_of_union. left.
    by apply elem_of_singleton. }
  assert (Hne2 : dc ≠ en).
  { intros Heq. apply Hdc. rewrite Heq. unfold m3. rewrite dom_insert. apply elem_of_union. left.
    by apply elem_of_singleton. }
  assert (Hne3 : dc ≠ st).
  { intros Heq. apply Hdc. rewrite Heq. unfold m3. rewrite !dom_insert. apply elem_of_union. right.
    apply elem_of_union. left. by apply elem_of_singleton. }
  assert (Hm3 : alter (set_node_fragment (Some f)) en (alter (set_node_fragment (Some f)) st m2) = m3).
  { apply map_eq. intros k. unfold m3, m2, m1.
    destruct (decide (k = en)) as [->|Hk1].
    - rewrite lookup_alter_eq, lookup_alter_ne, !lookup_insert_eq by done. done.
    - rewrite lookup_alter_ne by done. rewrite (lookup_insert_ne _ en) by done.
      destruct (decide (k = st)) as [->|Hk2].
      + rewrite lookup_alter_eq, lookup_insert_ne, !lookup_insert_eq by done. done.
      + by rewrite lookup_alter_ne, !lookup_insert_ne by done. }
  set (s4 := set_frags (<[f := fo]> (frags s)) (set_nodes m4 s)).
  assert (Hins1 : insertBefore (DomNode st) None (DomNode dc) s4
                  = Ok (DomNode st, set_log (log s4 ++ [EvInsertBefore dc st None])
                          (set_nodes (<[st := set_parentNode (Some dc) marker]>
                                        (<[dc := set_childNodes ([] ++ [st]) container]> (nodes s4))) s4))).
  { apply (insertBefore_append s4 dc container [] st marker).
    - simpl. unfold m4. by rewrite lookup_insert_eq.
    - done.
    - simpl. unfold m4, m3. by rewrite lookup_insert_ne, lookup_insert_ne, lookup_insert_eq.
    - done.
    - congruence. }
  set (s5 := set_log _ _) in Hins1.
  assert (Hins2 : insertBefore (DomNode en) None (DomNode dc) s5
                  = Ok (DomNode en, set_log (log s5 ++ [EvInsertBefore dc en None])
                          (set_nodes (<[en := set_parentNode (Some dc) marker]>
                                        (<[dc := set_childNodes ([st] ++ [en]) (set_childNodes [st] container)]>
                                           (nodes s5))) s5))).
  { apply (insertBefore_append s5 dc (set_childNodes [st] container) [st] en marker).
    - simpl. by rewrite lookup_insert_ne, lookup_insert_eq.
    - done.
    - simpl. unfold m4, m3.
      by rewrite lookup_insert_ne, lookup_insert_ne, lookup_insert_ne, lookup_insert_eq.
    - done.
    - congruence. }
  set (s6 := set_log _ _) in Hins2.
  assert (Hn_st : nodes s6 !! st = Some (set_parentNode (Some dc) marker)).
  { simpl. by rewrite lookup_insert_ne, lookup_insert_ne, lookup_insert_eq. }
  assert (Hn_en : nodes s6 !! en = Some (set_parentNode (Some dc) marker)).
  { simpl. by rewrite lookup_insert_eq. }
  assert (Hn_dc : nodes s6 !! dc = Some (set_childNodes [st; en] (set_childNodes [st] container))).
  { simpl. by rewrite lookup_insert_ne, lookup_insert_eq. }
  assert (Hfrag : frags s6 !! f = Some fo) by (simpl; by rewrite lookup_insert_eq).
  assert (Hrun : createFragmentNode None None None s = Ok (f, s6)).
  { unfold createFragmentNode. rewrite get_bind. fold f. unfold createTextNode.
    rewrite (bind_Ok _ _ _ _ _ (create_node_Ok _ _)). fold text st m1.
    rewrite (bind_Ok _ _ _ _ _ (create_node_Ok _ _)). simpl nodes. fold en m2.
    rewrite modify_bind. simpl nodes. rewrite Hm3. unfold createDocumentFragment.
    rewrite (bind_Ok _ _ _ _ _ (create_node_Ok _ _)). simpl nodes. fold dc container m4.
    rewrite modify_bind, get_bind. simpl frags. simpl set_nodes.
    change (set_frags (<[f := MkFragment st en dc None false]> (frags s))
              (set_nodes m4 (set_nodes m3 (set_nodes m2 (set_nodes m1 s))))) with s4.
    rewrite (bind_Ok _ _ _ _ _ Hins1). rewrite (bind_Ok _ _ _ _ _ Hins2). reflexivity. }
  assert (Hold : ∀ x, x ∈ dom (nodes s) → nodes s6 !! x = nodes s !! x).
  { intros x Hx.
    assert (x ≠ st) by (by intros ->).
    assert (x ≠ en).
    { intros ->. apply Hen. unfold m1. rewrite dom_insert. apply elem_of_union. by right. }
    assert (x ≠ dc).
    { intros ->. apply Hdc. unfold m3. rewrite !dom_insert. apply elem_of_union. right.
      apply elem_of_union. by right. }
    simpl. unfold m4, m3. by rewrite !lookup_insert_ne by done. }
  assert (Hfrags : frags s6 = <[f := fo]> (frags s)) by done.
  clearbody s6. clear Hins1 Hins2 s5 s4. subst fo.
  assert (Hnext_st : raw_nextSibling s6 st = Some en).
  { unfold raw_nextSibling, get_node. rewrite Hn_st. simpl. rewrite Hn_dc. simpl.
    by rewrite decide_True. }
  assert (Hnext_en : raw_nextSibling s6 en = None).
  { unfold raw_nextSibling, get_node. rewrite Hn_en. simpl. rewrite Hn_dc. simpl.
    rewrite decide_False by done. by rewrite decide_True. }
  exists f, s6, (MkFragment st en dc None false).
  split; [done|]. split; [apply is_fresh|]. split; [done|].
  split.
  { unfold fragment_nodes. rewrite get_bind. unfold get_frag. rewrite Hfrag. simpl deref.
    unfold mbind at 1, M_bind at 1, bind at 1, ret.
    unfold raw_parentNode, get_node. simpl startNode. rewrite Hn_st. simpl. rewrite Hn_dc. simpl.
    rewrite decide_True by done. simpl. rewrite decide_False by done. by rewrite decide_True. }
  split; [unfold fragment_of, get_node; cbn [startNode]; by rewrite Hn_st|].
  split; [unfold fragment_of, get_node; cbn [endNode]; by rewrite Hn_en|].
  split.
  { unfold firstChild, frag_firstChild, get_frag. rewrite Hfrag. simpl. rewrite Hnext_st. simpl.
    by rewrite decide_True. }
  split.
  { unfold frag_parentNode, get_frag, raw_parentNode, get_node. rewrite Hfrag. simpl.
    rewrite Hn_st. simpl. by rewrite decide_True. }
  split; [|done].
  unfold nextSibling, frag_nextSibling, get_frag. rewrite Hfrag. simpl. by rewrite Hnext_en.
Qed.

(** ** A fragment around children *)

(** A node without a parent goes before the first node of [tail], or to
    the end. *)
Lemma dom_insertBefore_new s p (X tail : list nat) n d :
  children_wf s p (X ++ tail) →
  nodes s !! n = Some d → parentNode d = None → n ∉ X ++ tail → n ≠ p →
  ∃ s', dom_insertBefore p n (head tail) s = Ok (tt, s')
    ∧ children_wf s' p (X ++ n :: tail)
    ∧ (∀ x, x ≠ p → x ≠ n → nodes s' !! x = nodes s !! x)
    ∧ nodes s' !! n = Some (set_parentNode (Some p) d)
    ∧ frags s' = frags s.
Proof.
  intros Hwf Hn Hd Hnl Hnp.
  destruct (children_wf_node _ _ _ Hwf) as (pd & Hpd & Hl).
  pose proof Hwf as (_ & Hnd & Hpl & Hpar).
  assert (Hins : insert_before_ref n (head tail) (X ++ tail) = X ++ n :: tail).
  { destruct tail as [|r post]; simpl.
    - by rewrite app_nil_r, insert_before_ref_end.
    - apply insert_before_ref_middle. by apply NoDup_middle in Hnd as [? _]. }
  assert (Hmap : alter (set_parentNode (Some p)) n
              (alter (λ d, set_childNodes (insert_before_ref n (head tail) (childNodes d)) d) p
                 (nodes s))
            = <[n := set_parentNode (Some p) d]>
                (<[p := set_childNodes (X ++ n :: tail) pd]> (nodes s))).
  { apply map_eq. intros k.
    destruct (decide (k = n)) as [->|Hkn].
    - rewrite lookup_insert_eq, lookup_alter_eq, lookup_alter_ne, Hn by done. done.
    - rewrite lookup_insert_ne, lookup_alter_ne by done.
      destruct (decide (k = p)) as [->|Hkp].
      + rewrite lookup_insert_eq, lookup_alter_eq, Hpd. simpl. by rewrite Hl, Hins.
      + by rewrite lookup_insert_ne, lookup_alter_ne. }
  eexists. split.
  { unfold dom_insertBefore. rewrite get_bind.
    assert (Hhead : head tail ≠ Some n).
    { intros Hh. apply Hnl, elem_of_app. right. destruct tail; [done|]. injection Hh as ->.
      by left. }
    rewrite decide_False by done.
    assert (Hguard : match head tail with
                     | Some r => if decide (raw_parentNode s r = Some p) then ret tt
                                 else throw "NotFoundError"
                     | None => ret tt
                     end = (ret tt : M unit)).
    { destruct tail as [|r post]; [done|]. simpl. rewrite decide_True; [done|].
      apply Hpar, elem_of_middle. }
    rewrite Hguard.
    unfold unlink. rewrite Hn. simpl. rewrite Hd.
    unfold mbind, M_bind, bind, ret, modify, emit. simpl. rewrite Hmap. reflexivity. }
  simpl. split.
  { split; [simpl; by rewrite lookup_insert_ne, lookup_insert_eq|]. split.
    { apply NoDup_app. apply NoDup_app in Hnd as (HX & Hcross & Htail). split; [done|]. split.
      - intros x Hx [->|Hin]%elem_of_cons; [|by apply (Hcross x)].
        apply Hnl, elem_of_app. by left.
      - apply NoDup_cons. split; [|done]. intros Hin. apply Hnl, elem_of_app. by right. }
    split.
    { intros [Hin|[Heq|Hin]%elem_of_cons]%elem_of_app.
      - apply Hpl, elem_of_app. by left.
      - done.
      - apply Hpl, elem_of_app. by right. }
    intros c Hc. unfold raw_parentNode, get_node. simpl.
    destruct (decide (c = n)) as [->|Hcn]; [by rewrite lookup_insert_eq|].
    assert (Hcl : c ∈ X ++ tail).
    { apply elem_of_app in Hc as [?|[?|?]%elem_of_cons]; [|done|]; apply elem_of_app; tauto. }
    assert (c ≠ p) by (by intros ->).
    rewrite !lookup_insert_ne by done. by apply Hpar. }
  split; [intros x Hxp Hxn; by rewrite !lookup_insert_ne|].
  split; [by rewrite lookup_insert_eq|done].
Qed.

Lemma children_wf_frame s s' p l :
  (∀ x, x = p ∨ x ∈ l → nodes s' !! x = nodes s !! x) → children_wf s p l → children_wf s' p l.
Proof.
  intros Hsame (Hl & Hnd & Hpl & Hpar). split; [by rewrite Hsame by (by left)|].
  split; [done|]. split; [done|]. intros c Hc. unfold raw_parentNode, get_node.
  rewrite Hsame by (by right). by apply Hpar.
Qed.


(** X18. [createFragmentNode(startNode, nextNode)] puts a fragment around
    children of a real node: the new start marker goes before
    [startNode], the new end marker before [nextNode], or to the end of the
    parent for [null]; the nodes of the fragment are the markers and the
    children from [startNode] up to [nextNode]; the parent of the fragment
    is the parent of [startNode], and the other nodes of the document are
    left as they were. *)
Theorem createFragmentNode_wraps (s : state) (p : nat) (pre : list nat) (a : nat)
    (mid tail : list nat) :
  children_wf s p (pre ++ a :: mid ++ tail) →
  ∃ f s' fo,
    createFragmentNode (Some (DomNode a)) (DomNode <$> head tail) None s = Ok (f, s')
    ∧ (f ∉ dom (frags s))
    ∧ frags s' = <[f := fo]> (frags s)
    ∧ (startNode fo ∉ dom (nodes s)) ∧ (endNode fo ∉ dom (nodes s))
    ∧ children_wf s' p (pre ++ startNode fo :: a :: mid ++ endNode fo :: tail)
    ∧ fragment_nodes f s' = Ok (startNode fo :: a :: mid ++ [endNode fo], s')
    ∧ fragment_of s' (startNode fo) = Some f ∧ fragment_of s' (endNode fo) = Some f
    ∧ frag_parentNode s' f = Some p
    ∧ (∀ x, x ∈ dom (nodes s) → x ≠ p → nodes s' !! x = nodes s !! x).
Proof.
  intros Hwf.
  set (f := fresh (dom (frags s))).
  set (st := fresh (dom (nodes s))).
  set (text := MkDomNode TEXT_NODE "#text" "" "" ∅ ∅ None [] None).
  set (m1 := <[st := text]> (nodes s)).
  set (en := fresh (dom m1)).
  set (m2 := <[en := text]> m1).
  set (marker := set_node_fragment (Some f) text).
  set (m3 := <[en := marker]> (<[st := marker]> (nodes s))).
  set (dc := fresh (dom m3)).
  set (container := MkDomNode DOCUMENT_FRAGMENT_NODE "#document-fragment" "" "" ∅ ∅ None [] None).
  set (m4 := <[dc := container]> m3).
  set (fo := MkFragment st en dc None false).
  assert (Hst : st ∉ dom (nodes s)) by apply is_fresh.
  assert (Hen' : en ∉ dom m1) by apply is_fresh.
  assert (Hdc : dc ∉ dom m3) by apply is_fresh.
  assert (Hne1 : en ≠ st).
  { intros Heq. apply Hen'. rewrite Heq. unfold m1. rewrite dom_insert. apply elem_of_union. left.
    by apply elem_of_singleton. }
  assert (Hne2 : dc ≠ en).
  { intros Heq. apply Hdc. rewrite Heq. unfold m3. rewrite dom_insert. apply elem_of_union. left.
    by apply elem_of_singleton. }
  assert (Hne3 : dc ≠ st).
  { intros Heq. apply Hdc. rewrite Heq. unfold m3. rewrite !dom_insert. apply elem_of_union. right.
    apply elem_of_union. left. by apply elem_of_singleton. }
  assert (Hen : en ∉ dom (nodes s)).
  { intros Hin. apply Hen'. unfold m1. rewrite dom_insert. apply elem_of_union. by right. }
  assert (Hdc' : dc ∉ dom (nodes s)).
  { intros Hin. apply Hdc. unfold m3. rewrite !dom_insert. apply elem_of_union. right.
    apply elem_of_union. by right. }
  assert (Hm3 : alter (set_node_fragment (Some f)) en (alter (set_node_fragment (Some f)) st m2) = m3).
  { apply map_eq. intros k. unfold m3, m2, m1.
    destruct (decide (k = en)) as [->|Hk1].
    - rewrite lookup_alter_eq, lookup_alter_ne, !lookup_insert_eq by done. done.
    - rewrite lookup_alter_ne by done. rewrite (lookup_insert_ne _ en) by done.
      destruct (decide (k = st)) as [->|Hk2].
      + rewrite lookup_alter_eq, lookup_insert_ne, !lookup_insert_eq by done. done.
      + by rewrite lookup_alter_ne, !lookup_insert_ne by done. }
  set (s4 := set_frags (<[f := fo]> (frags s)) (set_nodes m4 s)).
  assert (Hold4 : ∀ x, x ∈ dom (nodes s) → nodes s4 !! x = nodes s !! x).
  { intros x Hx. simpl. unfold m4, m3.
    rewrite !lookup_insert_ne; [done|by intros ->..]. }
  pose proof Hwf as (_ & Hnd & Hpl & Hpar).
  destruct (children_wf_node _ _ _ Hwf) as (pd & Hpd & Hl).
  assert (Hp_dom : p ∈ dom (nodes s)) by (apply elem_of_dom; by eexists).
  assert (Hl_dom : ∀ c, c ∈ pre ++ a :: mid ++ tail → c ∈ dom (nodes s)).
  { intros c Hc. destruct (child_node s p _ c Hwf Hc) as (cd & Hcd & _). apply elem_of_dom.
    by eexists. }
  assert (Hwf4 : children_wf s4 p (pre ++ a :: mid ++ tail)).
  { apply (children_wf_frame s); [|done]. intros x [->|Hx]; apply Hold4; auto. }
  destruct (dom_insertBefore_new s4 p pre (a :: mid ++ tail) st marker Hwf4)
    as (s5 & Hins1 & Hwf5 & Hold5 & Hst5 & Hfrags5).
  { simpl. unfold m4, m3. by rewrite lookup_insert_ne, lookup_insert_ne, lookup_insert_eq. }
  { done. }
  { intros Hin. by apply Hst, Hl_dom. }
  { by intros ->. }
  assert (Hwf5' : children_wf s5 p ((pre ++ st :: a :: mid) ++ tail)).
  { by rewrite <- app_assoc, <- !app_comm_cons. }
  destruct (dom_insertBefore_new s5 p (pre ++ st :: a :: mid) tail en marker Hwf5')
    as (s6 & Hins2 & Hwf6 & Hold6 & Hen6 & Hfrags6).
  { rewrite Hold5 by (try done; by intros ->). simpl. unfold m4, m3.
    by rewrite lookup_insert_ne, lookup_insert_eq. }
  { done. }
  { rewrite <- app_assoc, <- !app_comm_cons.
    intros [Hin|[Heq|Hin]%elem_of_cons]%elem_of_app.
    - apply Hen, Hl_dom, elem_of_app. by left.
    - done.
    - apply Hen, Hl_dom, elem_of_app. by right. }
  { by intros ->. }
  rewrite <- app_assoc, <- !app_comm_cons in Hwf6.
  assert (Hfrag : frags s6 !! f = Some fo).
  { rewrite Hfrags6, Hfrags5. simpl. by rewrite lookup_insert_eq. }
  assert (Hst6 : nodes s6 !! st = Some (set_parentNode (Some p) marker)).
  { rewrite Hold6 by (try done; by intros ->). done. }
  assert (Hpa : raw_parentNode s4 a = Some p).
  { destruct Hwf4 as (_ & _ & _ & Hpar4). apply Hpar4, elem_of_middle. }
  exists f, s6, fo. split.
  { unfold createFragmentNode. rewrite get_bind. fold f. unfold createTextNode.
    rewrite (bind_Ok _ _ _ _ _ (create_node_Ok _ _)). fold text st m1.
    rewrite (bind_Ok _ _ _ _ _ (create_node_Ok _ _)). simpl nodes. fold en m2.
    rewrite modify_bind. simpl nodes. rewrite Hm3. unfold createDocumentFragment.
    rewrite (bind_Ok _ _ _ _ _ (create_node_Ok _ _)). simpl nodes. fold dc container m4.
    rewrite modify_bind, get_bind. simpl frags. simpl set_nodes.
    change (set_frags (<[f := MkFragment st en dc None false]> (frags s))
              (set_nodes m4 (set_nodes m3 (set_nodes m2 (set_nodes m1 s))))) with s4.
    rewrite Hpa. simpl from_option.
    assert (Hi1 : insertBefore (DomNode st) (Some (DomNode a)) (DomNode p) s4 = Ok (DomNode st, s5)).
    { unfold insertBefore, insertBefore_node.
      unfold mbind at 1, M_bind at 1, bind at 1. rewrite get_bind. simpl reference_start.
      simpl in Hins1. by rewrite Hins1. }
    rewrite (bind_Ok _ _ _ _ _ Hi1).
    assert (Hi2 : insertBefore (DomNode en) (DomNode <$> head tail) (DomNode p) s5
                  = Ok (DomNode en, s6)).
    { unfold insertBefore, insertBefore_node.
      unfold mbind at 1, M_bind at 1, bind at 1. rewrite get_bind.
      assert (Href : reference_start s5 (DomNode <$> head tail) = head tail)
        by (by destruct (head tail)).
      by rewrite Href, Hins2. }
    rewrite (bind_Ok _ _ _ _ _ Hi2). reflexivity. }
  split; [apply is_fresh|]. split; [by rewrite Hfrags6, Hfrags5|].
  split; [done|]. split; [done|]. split; [done|].
  split.
  { apply (fragment_nodes_wf s6 f fo p pre (a :: mid) tail Hfrag). done. }
  split; [unfold fragment_of, get_node; cbn [startNode fo]; by rewrite Hst6|].
  split; [unfold fragment_of, get_node; cbn [endNode fo]; by rewrite Hen6|].
  split.
  { unfold frag_parentNode, get_frag, raw_parentNode, get_node. rewrite Hfrag. simpl.
    rewrite Hst6. simpl. rewrite decide_False; [done|]. by intros ->. }
  intros x Hx Hxp.
  rewrite Hold6, Hold5 by (try done; by intros ->). by apply Hold4.
Qed.

(** The theorem at the [<p>] of the [<body>]: a fragment around the [<p>]
    alone. *)
Lemma createFragmentNode_wraps_witness :
  ∃ f s' fo,
    createFragmentNode (Some (DomNode 1)) (DomNode <$> head [2; 3; 4; 5]) None fragment_state
      = Ok (f, s')
    ∧ (f ∉ dom (frags fragment_state))
    ∧ frags s' = <[f := fo]> (frags fragment_state)
    ∧ (startNode fo ∉ dom (nodes fragment_state)) ∧ (endNode fo ∉ dom (nodes fragment_state))
    ∧ children_wf s' 0 ([] ++ startNode fo :: 1 :: [] ++ endNode fo :: [2; 3; 4; 5])
    ∧ fragment_nodes f s' = Ok (startNode fo :: 1 :: [] ++ [endNode fo], s')
    ∧ fragment_of s' (startNode fo) = Some f ∧ fragment_of s' (endNode fo) = Some f
    ∧ frag_parentNode s' f = Some 0
    ∧ (∀ x, x ∈ dom (nodes fragment_state) → x ≠ 0 → nodes s' !! x = nodes fragment_state !! x).
Proof.
  apply (createFragmentNode_wraps fragment_state 0 [] 1 [] [2; 3; 4; 5]).
  split; [reflexivity|]. split; [compute_done|]. split; [compute_done|].
  intros c Hc. repeat (apply elem_of_cons in Hc as [->|Hc]; [reflexivity|]). by apply elem_of_nil in Hc.
Defined.

(** ** Walking the children of a node or of a fragment *)

Lemma head_item_nodes (items : list item) (post : list nat) :
  head (concat (item_nodes <$> items) ++ post)
  = match items with
    | [] => head post
    | INode n :: _ => Some n
    | IFrag _ st _ _ :: _ => Some st
    end.
Proof. by destruct items as [|[n|f st mid en] items]. Qed.

Lemma wrap_item s it : item_ok s it →
  wrap_fragment s (match it with INode n => n | IFrag _ st _ _ => st end) = item_ref it.
Proof.
  unfold wrap_fragment. destruct it as [n|f st mid en]; simpl.
  - intros Hp. unfold plain in Hp. by rewrite Hp.
  - intros [_ Hst]. by rewrite Hst.
Qed.

(** [nextSibling] of an item that is followed by the items [rest]. *)
Lemma nextSibling_item s p pre it rest post :
  children_wf s p (pre ++ item_nodes it ++ concat (item_nodes <$> rest) ++ post) →
  item_ok s it → Forall (item_ok s) rest →
  (∀ e, head post = Some e →
        ∃ g, fragment_of s e = Some g ∧ (startNode <$> get_frag s g) ≠ Some e) →
  nextSibling s (item_ref it) = item_ref <$> head rest.
Proof.
  intros Hwf Hit Hrest Hpost.
  assert (Hraw : match it with
                 | INode n => raw_nextSibling s n
                 | IFrag f _ _ _ => frag_nextSibling s f
                 end = head (concat (item_nodes <$> rest) ++ post)).
  { destruct it as [n|f st mid en]; simpl in *.
    - by apply (raw_nextSibling_wf s p pre n).
    - destruct Hit as [(fo & Hfo & <- & <-) _]. unfold frag_nextSibling, get_frag. rewrite Hfo.
      simpl. apply (raw_nextSibling_wf s p (pre ++ startNode fo :: mid)).
      by rewrite <- !app_assoc, <- app_comm_cons in *. }
  unfold nextSibling.
  assert (Hm : match item_ref it with
               | DomNode n => raw_nextSibling s n
               | Fragment f => frag_nextSibling s f
               end = head (concat (item_nodes <$> rest) ++ post)) by (by destruct it).
  rewrite Hm, head_item_nodes.
  destruct rest as [|it' rest]; simpl.
  - destruct (head post) as [e|] eqn:He; [|done]. simpl.
    destruct (Hpost e eq_refl) as (g & Hg & Hne). rewrite Hg. by rewrite decide_False.
  - apply Forall_cons in Hrest as [Hit' _]. destruct it' as [n|f st mid en]; simpl in *.
    + unfold plain in Hit'. by rewrite Hit'.
    + destruct Hit' as [(fo & Hfo & <- & <-) Hst]. rewrite Hst. unfold get_frag. rewrite Hfo.
      simpl. by rewrite decide_True.
Qed.

Lemma walk_items s p : ∀ (items : list item) pre post fuel,
  children_wf s p (pre ++ concat (item_nodes <$> items) ++ post) →
  Forall (item_ok s) items →
  (∀ e, head post = Some e →
        ∃ g, fragment_of s e = Some g ∧ (startNode <$> get_frag s g) ≠ Some e) →
  (length items < fuel)%nat →
  walk fuel s (item_ref <$> head items) = item_ref <$> items.
Proof.
  induction items as [|it items IH]; intros pre post fuel Hwf Hok Hpost Hfuel.
  - by destruct fuel.
  - destruct fuel as [|fuel]; [simpl in Hfuel; lia|]. simpl. f_equal.
    apply Forall_cons in Hok as [Hit Hok].
    simpl in Hwf. rewrite <- app_assoc in Hwf.
    rewrite (nextSibling_item s p pre it items post Hwf Hit Hok Hpost).
    apply (IH (pre ++ item_nodes it) post).
    + by rewrite <- app_assoc.
    + done.
    + done.
    + simpl in Hfuel. lia.
Qed.


(** X19. The helpers [firstChild] and [nextSibling] walk over fragments as
    units: when the children of a real node, or the nodes between the
    markers of a fragment, are a row of nodes that are no markers and of
    fragments with their markers and the nodes between them, the walk from
    [firstChild] along [nextSibling] visits these nodes and fragments, one
    by one and in order, and ends behind the last. *)
Theorem helpers_walk (s : state) (parent : ref) (p : nat) (pre : list nat) (items : list item)
    (post : list nat) (fuel : nat) :
  children_wf s p (pre ++ concat (item_nodes <$> items) ++ post) →
  Forall (item_ok s) items →
  holds_children s parent p pre post →
  (length items < fuel)%nat →
  walk fuel s (firstChild s parent) = item_ref <$> items.
Proof.
  intros Hwf Hok Hparent Hfuel.
  assert (Hpost : ∀ e, head post = Some e →
            ∃ g, fragment_of s e = Some g ∧ (startNode <$> get_frag s g) ≠ Some e).
  { intros e He. destruct parent as [q|g]; simpl in Hparent.
    - destruct Hparent as (_ & _ & ->). done.
    - destruct Hparent as (fo & pre' & post' & Hfo & -> & -> & Hen). injection He as <-.
      exists g. split; [done|]. unfold get_frag. rewrite Hfo. simpl. intros [= Heq].
      destruct Hwf as (_ & Hnd & _). rewrite <- app_assoc in Hnd.
      apply NoDup_app in Hnd as (_ & _ & Hnd). simpl in Hnd. apply NoDup_cons in Hnd as [Hnot _].
      apply Hnot. rewrite Heq. apply elem_of_app. right. by left. }
  assert (Hfirst : firstChild s parent = item_ref <$> head items).
  { destruct parent as [q|g]; simpl in Hparent.
    - destruct Hparent as (-> & -> & ->). simpl in Hwf. rewrite app_nil_r in Hwf.
      unfold firstChild, raw_firstChild.
      destruct (children_wf_node _ _ _ Hwf) as (pd & Hpd & Hl). unfold get_node. rewrite Hpd.
      simpl. rewrite Hl. rewrite <- (app_nil_r (concat _)), head_item_nodes.
      destruct items as [|it items]; [done|]. apply Forall_cons in Hok as [Hit _]. simpl.
      f_equal. rewrite <- (wrap_item s it Hit). by destruct it.
    - destruct Hparent as (fo & pre' & post' & Hfo & -> & -> & Hen).
      unfold firstChild, frag_firstChild, get_frag. rewrite Hfo. simpl.
      rewrite <- app_assoc in Hwf. simpl in Hwf.
      rewrite (raw_nextSibling_wf s p pre' (startNode fo) _ Hwf), head_item_nodes.
      destruct items as [|it items]; simpl.
      + by rewrite decide_True.
      + apply Forall_cons in Hok as [Hit _].
        assert (Hne : match it with INode n => n | IFrag _ st _ _ => st end ≠ endNode fo).
        { destruct Hwf as (_ & Hnd & _). apply NoDup_app in Hnd as (_ & _ & Hnd).
          apply NoDup_cons in Hnd as [_ Hnd]. simpl in Hnd. rewrite <- app_assoc in Hnd.
          intros Heq. destruct it as [n|f st mid en]; simpl in *.
          - apply NoDup_cons in Hnd as [Hnot _]. apply Hnot. rewrite Heq.
            apply elem_of_app. right. by left.
          - apply NoDup_cons in Hnd as [Hnot _]. apply Hnot. rewrite Heq.
            rewrite <- !app_assoc. do 3 (apply elem_of_app; right). by left. }
        destruct it as [n|f st mid en]; simpl in *.
        * rewrite decide_False by done. simpl. unfold wrap_fragment. unfold plain in Hit.
          by rewrite Hit.
        * rewrite decide_False by done. simpl. unfold wrap_fragment. destruct Hit as [_ Hst].
          by rewrite Hst. }
  rewrite Hfirst. by apply (walk_items s p items pre post).
Qed.

(** The theorem at the children of a [<body>]: a [<p>], a fragment around
    a [<b>], and an [<i>]. *)
Lemma helpers_walk_witness :
  walk 4 fragment_state (firstChild fragment_state (DomNode 0))
  = item_ref <$> [INode 1; IFrag 0 2 [3] 4; INode 5].
Proof.
  apply (helpers_walk fragment_state (DomNode 0) 0 [] [INode 1; IFrag 0 2 [3] 4; INode 5] [] 4).
  - split; [reflexivity|]. split; [compute_done|]. split; [compute_done|].
    intros c Hc. repeat (apply elem_of_cons in Hc as [->|Hc]; [reflexivity|]). by apply elem_of_nil in Hc.
  - repeat constructor. by exists (MkFragment 2 4 6 None false).
  - done.
  - simpl. lia.
Defined.

(** ** The component of a real node *)

Lemma before_middle (pre post : list nat) y x :
  x ∉ pre → x ≠ y → before x (pre ++ y :: x :: post) = Some y.
Proof.
  induction pre as [|z pre IH]; intros Hx Hxy; simpl.
  - by rewrite decide_True.
  - apply not_elem_of_cons in Hx as [Hxz Hx]. destruct pre as [|w pre]; simpl.
    + rewrite decide_False by done. by rewrite decide_True.
    + apply not_elem_of_cons in Hx as [Hxw Hx']. rewrite decide_False by done.
      apply (IH ltac:(by apply not_elem_of_cons) Hxy).
Qed.

Lemma raw_previousSibling_wf s p pre y x post :
  children_wf s p (pre ++ y :: x :: post) → raw_previousSibling s x = Some y.
Proof.
  intros Hwf. pose proof Hwf as (_ & Hnd & _ & Hpar).
  destruct (children_wf_node _ _ _ Hwf) as (pd & Hpd & Hl).
  destruct (child_node s p _ x Hwf) as (d & Hd & Hp).
  { apply elem_of_app. right. right. by left. }
  unfold raw_previousSibling, get_node. rewrite Hd. simpl. rewrite Hp. simpl. rewrite Hpd. simpl.
  rewrite Hl.
  change (pre ++ y :: x :: post) with (pre ++ [y] ++ x :: post) in Hnd.
  rewrite app_assoc in Hnd. apply NoDup_middle in Hnd as [Hx _].
  apply not_elem_of_app in Hx as [Hxpre Hxy].
  assert (x ≠ y) by (intros ->; apply Hxy; by left).
  rewrite decide_False.
  - by apply before_middle.
  - destruct pre as [|z pre]; simpl; intros [= Heq]; [done|]. apply Hxpre. rewrite Heq. by left.
Qed.


(** X20. [getParentComponentForEl] answers with the component of the nearest
    marker before the node: for a real node that is no root of a component
    and follows, among the children of its parent, a marker of a fragment
    that is the root of a component, with only nodes in between that are
    no markers and no roots of components, the walk returns the component
    of that fragment.  The marker may be the start marker, and the node is
    inside of the fragment, or the end marker, and the node is behind the
    fragment. *)
Theorem getParentComponentForEl_nearest_marker (s : state) (p : nat) (pre : list nat) (m : nat)
    (mid : list nat) (n : nat) (post : list nat) (g : nat) (c : string) (fuel : nat) :
  children_wf s p (pre ++ m :: mid ++ n :: post) →
  fragment_of s m = Some g → componentByDOMNode s !! Fragment g = Some c →
  (∀ x, x ∈ mid → plain s x ∧ componentByDOMNode s !! DomNode x = None) →
  componentByDOMNode s !! DomNode n = None →
  (length mid + 1 < fuel)%nat →
  getParentComponentForEl fuel s (Some (DomNode n)) = Ok (Some c).
Proof.
  intros Hwf Hm Hc. revert n post fuel Hwf.
  induction mid as [|x mid IH] using rev_ind; intros n post fuel Hwf Hmid Hn Hfuel.
  - destruct fuel as [|[|fuel]]; [simpl in Hfuel; lia..|].
    simpl in Hwf. simpl. rewrite Hn.
    rewrite (raw_previousSibling_wf s p pre m n post Hwf). simpl.
    unfold wrap_fragment. rewrite Hm. by rewrite Hc.
  - destruct fuel as [|fuel]; [lia|]. simpl. rewrite Hn.
    rewrite <- app_assoc in Hwf. simpl in Hwf.
    assert (Hwf' : children_wf s p ((pre ++ m :: mid) ++ x :: n :: post))
      by (by rewrite <- app_assoc).
    rewrite (raw_previousSibling_wf s p (pre ++ m :: mid) x n post Hwf'). simpl.
    destruct (Hmid x) as [Hplain Hx]; [apply elem_of_app; right; by left|].
    unfold wrap_fragment. unfold plain in Hplain. rewrite Hplain.
    apply (IH x (n :: post)).
    + done.
    + intros y Hy. apply Hmid, elem_of_app. by left.
    + done.
    + rewrite length_app in Hfuel. simpl in Hfuel. lia.
Qed.

(** The theorem at the [<i>] behind the fragment of the component "c1":
    the walk stops at the end marker and answers "c1". *)
Lemma getParentComponentForEl_nearest_marker_witness :
  getParentComponentForEl 2 component_fragment_state (Some (DomNode 5)) = Ok (Some "c1").
Proof.
  apply (getParentComponentForEl_nearest_marker component_fragment_state 0 [1; 2; 3] 4 [] 5 [] 0
           "c1" 2).
  - split; [reflexivity|]. split; [compute_done|]. split; [compute_done|].
    intros c Hc. repeat (apply elem_of_cons in Hc as [->|Hc]; [reflexivity|]). by apply elem_of_nil in Hc.
  - reflexivity.
  - reflexivity.
  - intros x Hx. by apply elem_of_nil in Hx.
  - reflexivity.
  - simpl. lia.
Defined.

(** ** Special elements *)

Lemma strict_eq_bool v b : strict_eq v (JBool b) = true → v = JBool b.
Proof. destruct v; simpl; try done. intros H. by apply bool_decide_eq_true in H as ->. Qed.

Lemma loose_ne_string v : loose_ne (JStr v) v = false.
Proof. simpl. by rewrite bool_decide_eq_true_2. Qed.

(** What a step on the element [el] may change: the element itself, of
    which it keeps the children and the node value. *)
Lemma syncBooleanAttrProp_run el toEl name s d :
  nodes s !! el = Some d →
  ∃ s' d', syncBooleanAttrProp el toEl name s = Ok (tt, s')
    ∧ nodes s' = <[el := d']> (nodes s)
    ∧ dom_getProperty s' el name = JBool (aK_ toEl name)
    ∧ (∀ n, n ≠ name → node_properties d' !! n = node_properties d !! n)
    ∧ (∀ k, k ≠ (None, name) → node_attributes d' !! k = node_attributes d !! k)
    ∧ childNodes d' = childNodes d.
Proof.
  intros Hd. unfold syncBooleanAttrProp. rewrite get_bind.
  destruct (strict_eq (dom_getProperty s el name) (JBool (aK_ toEl name))) eqn:Hg.
  - exists s, d. split; [done|]. split; [by rewrite insert_id|].
    split; [by apply strict_eq_bool|]. done.
  - destruct (aK_ toEl name) eqn:Ht.
    + eexists _, (set_attributes _ (set_properties _ d)). split; [reflexivity|]. simpl.
      split.
      { apply map_eq. intros k. destruct (decide (k = el)) as [->|Hk].
        - by rewrite !lookup_alter_eq, lookup_insert_eq, Hd.
        - by rewrite !lookup_alter_ne, lookup_insert_ne by done. }
      split.
      { unfold dom_getProperty, get_node. simpl. rewrite !lookup_alter_eq, Hd. simpl.
        by rewrite lookup_insert_eq. }
      split; [intros n Hn; simpl; by rewrite lookup_insert_ne|].
      split; [intros k Hk; simpl; by rewrite lookup_insert_ne|done].
    + eexists _, (set_attributes _ (set_properties _ d)). split; [reflexivity|]. simpl.
      split.
      { apply map_eq. intros k. destruct (decide (k = el)) as [->|Hk].
        - by rewrite !lookup_alter_eq, lookup_insert_eq, Hd.
        - by rewrite !lookup_alter_ne, lookup_insert_ne by done. }
      split.
      { unfold dom_getProperty, get_node. simpl. rewrite !lookup_alter_eq, Hd. simpl.
        by rewrite lookup_insert_eq. }
      split; [intros n Hn; simpl; by rewrite lookup_insert_ne|].
      split; [intros k Hk; simpl; by rewrite lookup_delete_ne|done].
Qed.

Lemma syncBooleanAttrProp_settled el toEl name s :
  dom_getProperty s el name = JBool (aK_ toEl name) →
  syncBooleanAttrProp el toEl name s = Ok (tt, s).
Proof.
  intros H. unfold syncBooleanAttrProp. rewrite get_bind, H. simpl.
  by rewrite bool_decide_eq_true_2.
Qed.

Lemma sync_value_run el newValue s d :
  nodes s !! el = Some d →
  ∃ s' d', sync_value el newValue s = Ok (tt, s')
    ∧ nodes s' = <[el := d']> (nodes s)
    ∧ loose_ne (dom_getProperty s' el "value") newValue = false
    ∧ (∀ n, n ≠ "value" → node_properties d' !! n = node_properties d !! n)
    ∧ node_attributes d' = node_attributes d
    ∧ childNodes d' = childNodes d
    ∧ nodeValue d' = nodeValue d.
Proof.
  intros Hd. unfold sync_value. rewrite get_bind.
  destruct (loose_ne (dom_getProperty s el "value") newValue) eqn:Hg.
  - eexists _, (set_properties _ d). split; [reflexivity|]. simpl.
    split.
    { apply map_eq. intros k. destruct (decide (k = el)) as [->|Hk].
      - by rewrite !lookup_alter_eq, lookup_insert_eq, Hd.
      - by rewrite !lookup_alter_ne, lookup_insert_ne by done. }
    split.
    { unfold dom_getProperty, get_node. simpl. rewrite !lookup_alter_eq, Hd. simpl.
      rewrite lookup_insert_eq. apply loose_ne_string. }
    split; [intros n Hn; simpl; by rewrite lookup_insert_ne|done].
  - exists s, d. split; [done|]. split; [by rewrite insert_id|]. done.
Qed.

Lemma sync_value_settled el newValue s :
  loose_ne (dom_getProperty s el "value") newValue = false →
  sync_value el newValue s = Ok (tt, s).
Proof. intros H. unfold sync_value. by rewrite get_bind, H. Qed.

Lemma dom_getProperty_insert s s' el d d' n :
  nodes s !! el = Some d → nodes s' = <[el := d']> (nodes s) →
  node_properties d' !! n = node_properties d !! n →
  dom_getProperty s' el n = dom_getProperty s el n.
Proof.
  intros Hd Hs Hn. unfold dom_getProperty, get_node. rewrite Hs, lookup_insert_eq, Hd. simpl.
  by rewrite Hn.
Qed.


(** X21. The handlers of [specialElHandlers] settle: on an element of the
    document whose first child, if it has one, is a node of the document,
    a handler returns, and a second run on the result writes nothing. *)
Theorem specialElHandler_idempotent (name : option string) (fromEl : nat) (toEl : vnode)
    (s : state) :
  is_Some (nodes s !! fromEl) →
  (∀ fc, raw_firstChild s fromEl = Some fc → is_Some (nodes s !! fc)) →
  ∃ s', specialElHandler name fromEl toEl s = Ok (tt, s')
    ∧ specialElHandler name fromEl toEl s' = Ok (tt, s').
Proof.
  intros [d Hd] Hfc. unfold specialElHandler.
  destruct (decide (name = Some "OPTION")) as [_|_].
  { destruct (syncBooleanAttrProp_run fromEl toEl "selected" s d Hd)
      as (s1 & d1 & Hrun & _ & Hset & _).
    exists s1. split; [done|]. by apply syncBooleanAttrProp_settled. }
  destruct (decide (name = Some "INPUT")) as [_|_].
  { destruct (syncBooleanAttrProp_run fromEl toEl "checked" s d Hd)
      as (s1 & d1 & Hrun1 & Hn1 & Hset1 & Hp1 & Ha1 & Hc1).
    assert (Hd1 : nodes s1 !! fromEl = Some d1) by (by rewrite Hn1, lookup_insert_eq).
    destruct (syncBooleanAttrProp_run fromEl toEl "disabled" s1 d1 Hd1)
      as (s2 & d2 & Hrun2 & Hn2 & Hset2 & Hp2 & Ha2 & Hc2).
    assert (Hd2 : nodes s2 !! fromEl = Some d2) by (by rewrite Hn2, lookup_insert_eq).
    destruct (sync_value_run fromEl (aJ_ toEl) s2 d2 Hd2)
      as (s3 & d3 & Hrun3 & Hn3 & Hset3 & Hp3 & Ha3 & Hc3 & _).
    assert (Hd3 : nodes s3 !! fromEl = Some d3) by (by rewrite Hn3, lookup_insert_eq).
    assert (Hchecked3 : dom_getProperty s3 fromEl "checked" = JBool (aK_ toEl "checked")).
    { rewrite (dom_getProperty_insert s2 s3 fromEl d2 d3) by (try done; by apply Hp3).
      rewrite (dom_getProperty_insert s1 s2 fromEl d1 d2) by (try done; by apply Hp2). done. }
    assert (Hdisabled3 : dom_getProperty s3 fromEl "disabled" = JBool (aK_ toEl "disabled")).
    { rewrite (dom_getProperty_insert s2 s3 fromEl d2 d3) by (try done; by apply Hp3). done. }
    rewrite (bind_Ok _ _ _ _ _ Hrun1), (bind_Ok _ _ _ _ _ Hrun2), (bind_Ok _ _ _ _ _ Hrun3).
    rewrite get_bind.
    destruct (bool_decide (is_Some (dom_getAttribute s3 fromEl None "value"))
              && negb (aK_ toEl "value")) eqn:Hg.
    - eexists. split; [reflexivity|].
      set (s4 := set_log _ _).
      assert (Hd4 : nodes s4 !! fromEl
                    = Some (set_attributes (delete (None, "value") (node_attributes d3)) d3)).
      { unfold s4. simpl. by rewrite lookup_alter_eq, Hd3. }
      assert (Hprops : ∀ n, dom_getProperty s4 fromEl n = dom_getProperty s3 fromEl n).
      { intros n. unfold dom_getProperty, get_node. by rewrite Hd4, Hd3. }
      rewrite (bind_Ok _ _ s4 tt s4)
        by (apply syncBooleanAttrProp_settled; by rewrite Hprops).
      rewrite (bind_Ok _ _ s4 tt s4)
        by (apply syncBooleanAttrProp_settled; by rewrite Hprops).
      rewrite (bind_Ok _ _ s4 tt s4) by (apply sync_value_settled; by rewrite Hprops).
      rewrite get_bind.
      assert (Hnone : dom_getAttribute s4 fromEl None "value" = None).
      { unfold dom_getAttribute, get_node. rewrite Hd4. simpl. apply lookup_delete_eq. }
      rewrite Hnone. rewrite bool_decide_eq_false_2; [done|]. by intros [? ?].
    - exists s3. split; [done|].
      rewrite (bind_Ok _ _ s3 tt s3) by (by apply syncBooleanAttrProp_settled).
      rewrite (bind_Ok _ _ s3 tt s3) by (by apply syncBooleanAttrProp_settled).
      rewrite (bind_Ok _ _ s3 tt s3) by (by apply sync_value_settled).
      by rewrite get_bind, Hg. }
  destruct (decide (name = Some "TEXTAREA")) as [_|_].
  { destruct (sync_value_run fromEl (aJ_ toEl) s d Hd)
      as (s1 & d1 & Hrun1 & Hn1 & Hset1 & Hp1 & Ha1 & Hc1 & Hv1).
    assert (Hd1 : nodes s1 !! fromEl = Some d1) by (by rewrite Hn1, lookup_insert_eq).
    rewrite (bind_Ok _ _ _ _ _ Hrun1). rewrite get_bind.
    assert (Hfirst : raw_firstChild s1 fromEl = raw_firstChild s fromEl).
    { unfold raw_firstChild, get_node. rewrite Hd1, Hd. simpl. by rewrite Hc1. }
    rewrite Hfirst. destruct (raw_firstChild s fromEl) as [fc|] eqn:Hf.
    2:{ exists s1. split; [done|].
        rewrite (bind_Ok _ _ s1 tt s1) by (by apply sync_value_settled).
        by rewrite get_bind, Hfirst. }
    destruct (Hfc fc eq_refl) as [c Hc].
    assert (∃ c1, nodes s1 !! fc = Some c1) as [c1 Hc1'].
    { rewrite Hn1. destruct (decide (fc = fromEl)) as [->|Hne].
      - rewrite lookup_insert_eq. by exists d1.
      - rewrite lookup_insert_ne by done. by exists c. }
    assert (Hold1 : from_option nodeValue "" (get_node s1 fc) = nodeValue c1)
      by (unfold get_node; by rewrite Hc1').
    cbv zeta. rewrite Hold1.
    destruct (bool_decide (nodeValue c1 = aJ_ toEl)
              || bool_decide (aJ_ toEl = "")
                 && negb (loose_ne (dom_getProperty s1 fromEl "placeholder") (nodeValue c1))) eqn:Hg.
    - exists s1. split; [done|].
      rewrite (bind_Ok _ _ s1 tt s1) by (by apply sync_value_settled).
      rewrite get_bind, Hfirst. cbv zeta. by rewrite Hold1, Hg.
    - eexists. split; [reflexivity|].
      set (s2 := set_log _ _).
      assert (Hnodes2 : nodes s2 = alter (set_nodeValue (aJ_ toEl)) fc (nodes s1)) by done.
      assert (Hprops : ∀ n, dom_getProperty s2 fromEl n = dom_getProperty s1 fromEl n).
      { intros n. unfold dom_getProperty, get_node. rewrite Hnodes2.
        destruct (decide (fc = fromEl)) as [->|Hne].
        - by rewrite lookup_alter_eq, Hd1.
        - by rewrite lookup_alter_ne. }
      assert (Hfirst2 : raw_firstChild s2 fromEl = Some fc).
      { rewrite <- Hfirst. unfold raw_firstChild, get_node. rewrite Hnodes2.
        destruct (decide (fc = fromEl)) as [->|Hne].
        - by rewrite lookup_alter_eq, Hd1.
        - by rewrite lookup_alter_ne. }
      rewrite (bind_Ok _ _ s2 tt s2) by (apply sync_value_settled; by rewrite Hprops).
      assert (Hold2 : from_option nodeValue "" (get_node s2 fc) = aJ_ toEl)
        by (unfold get_node; by rewrite Hnodes2, lookup_alter_eq, Hc1').
      rewrite get_bind, Hfirst2. cbv zeta. rewrite Hold2.
      by rewrite bool_decide_eq_true_2. }
  destruct (decide (name = Some "SELECT")) as [_|_]; [|by exists s].
  destruct (aK_ toEl "multiple"); [by exists s|].
  rewrite get_bind.
  destruct (strict_eq (dom_getProperty s fromEl "selectedIndex") (JNum (selected_option toEl))) eqn:Hg.
  - exists s. split; [done|]. by rewrite get_bind, Hg.
  - eexists. split; [reflexivity|]. rewrite get_bind.
    set (s1 := set_log _ _).
    assert (Hsel : dom_getProperty s1 fromEl "selectedIndex" = JNum (selected_option toEl)).
    { unfold dom_getProperty, get_node, s1. simpl. rewrite lookup_alter_eq, Hd. simpl.
      by rewrite lookup_insert_eq. }
    by rewrite Hsel, strict_eq_refl.
Qed.

(** The theorem at a textarea whose text and value go from "old" to
    "new". *)
Lemma specialElHandler_idempotent_witness :
  ∃ s', specialElHandler (Some "TEXTAREA") 0 textarea_new textarea_state = Ok (tt, s')
    ∧ specialElHandler (Some "TEXTAREA") 0 textarea_new s' = Ok (tt, s').
Proof.
  apply (specialElHandler_idempotent (Some "TEXTAREA") 0 textarea_new textarea_state).
  - eexists. by vm_compute.
  - intros fc Hfc. vm_compute in Hfc. injection Hfc as <-. eexists. by vm_compute.
Defined.

(** ** Building the children of a virtual node *)

Section VNodeChildren.
Import VNode.

Lemma siblings_chain (l : list nat) (h : gmap nat obj) : ∀ fuel : nat,
  (∀ i c, l !! i = Some c → h !! c ≫= bx_ = l !! S i) →
  (length l ≤ fuel)%nat →
  siblings fuel (head l) h = l.
Proof.
  induction l as [|c l IH]; intros fuel Hchain Hfuel.
  - by destruct fuel.
  - destruct fuel as [|fuel]; [simpl in Hfuel; lia|]. simpl. f_equal.
    rewrite (Hchain 0 c eq_refl). simpl. rewrite <- head_lookup. apply IH.
    + intros i x Hi. by apply (Hchain (S i)).
    + simpl in Hfuel. lia.
Qed.

Lemma bn_each_snoc this l c h h1 h2 :
  bn_each this l h = Ok h1 → bn_ this c h1 = Ok (c, h2) → bn_each this (l ++ [c]) h = Ok h2.
Proof.
  revert h. induction l as [|x l IH]; intros h; simpl.
  - intros [= ->] ->. done.
  - destruct (bn_ this x h) as [[? h']| |]; [|done..]. apply IH.
Qed.

Lemma append_nil_r (a : string) : a +:+ "" = a.
Proof. induction a as [|x a IH]; [done|]. by rewrite append_cons, IH. Qed.


(** X22. The children of a virtual node read back in the order in which they
    were appended: after [bn_] was called with new nodes, one after the
    other, on a node without children that is not a textarea, the chain
    from its first child through the next siblings is the list of these
    nodes, each has the node as its parent, and the counter of appended
    children has grown by their number. *)
Theorem bn__children_in_order (h : gmap nat VNode.obj) (this : nat) (t : VNode.obj)
    (children : list nat) :
  h !! this = Some t →
  VNode.bD_ t = false → VNode.bz_ t = None → VNode.bI_ t = None →
  NoDup (this :: children) →
  (∀ c, c ∈ children → ∃ o, h !! c = Some o ∧ VNode.bx_ o = None) →
  ∃ h',
    bn_each this children h = Ok h'
    ∧ (∀ fuel : nat, (length children ≤ fuel)%nat → VNode.childNodes fuel this h' = children)
    ∧ (∀ c, c ∈ children → (VNode.bw_ <$> h' !! c) = Some (Some this))
    ∧ (VNode.bH_ <$> h' !! this) = Some (VNode.bH_ t + Z.of_nat (length children))%Z.
Proof.
  intros Ht HD Hz HI Hnd Hnew.
  assert (∃ h' t', bn_each this children h = Ok h'
            ∧ h' !! this = Some t'
            ∧ VNode.bD_ t' = false
            ∧ VNode.bz_ t' = head children ∧ VNode.bI_ t' = last children
            ∧ VNode.bH_ t' = (VNode.bH_ t + Z.of_nat (length children))%Z
            ∧ (∀ i c, children !! i = Some c → h' !! c ≫= VNode.bx_ = children !! S i)
            ∧ (∀ c, c ∈ children → (VNode.bw_ <$> h' !! c) = Some (Some this))
            ∧ (∀ x, x ≠ this → x ∉ children → h' !! x = h !! x))
    as (h' & t' & Hrun & Ht' & _ & Hz' & _ & HH' & Hchain & Hparent & _).
  { revert Hnd Hnew.
    induction children as [|c l IH] using rev_ind; intros Hnd Hnew.
    { exists h, t. simpl. repeat split; try done. all: try lia. intros c Hc. by apply elem_of_nil in Hc. }
    apply NoDup_cons in Hnd as [Hthis Hnd]. apply NoDup_app in Hnd as (Hndl & Hcl & _).
    assert (Hct : c ≠ this) by (intros ->; apply Hthis, elem_of_app; right; by left).
    assert (Hcl' : c ∉ l) by (intros Hin; apply (Hcl c Hin); by left).
    assert (Hthisl : this ∉ l) by (intros Hin; apply Hthis, elem_of_app; by left).
    destruct IH as (h1 & t1 & Hrun1 & Ht1 & HD1 & Hz1 & HI1 & HH1 & Hchain1 & Hpar1 & Hframe1).
    { by apply NoDup_cons. }
    { intros x Hx. apply Hnew, elem_of_app. by left. }
    destruct (Hnew c) as (o & Ho & Hox); [apply elem_of_app; right; by left|].
    assert (Hc1 : h1 !! c = Some o) by (by rewrite Hframe1).
    destruct (last l) as [x|] eqn:Hlast.
    - assert (Hxl : x ∈ l) by (by apply last_Some_elem_of).
      assert (Hxt : x ≠ this) by (by intros ->).
      assert (Hxc : x ≠ c) by (by intros ->).
      eexists _, (set_bI_ (Some c) (set_bH_ (bH_ t1 + 1)%Z t1)). split.
      { eapply bn_each_snoc; [done|]. unfold bn_. rewrite Ht1, Hc1, HD1, HI1. reflexivity. }
      split.
      { rewrite lookup_alter_eq, lookup_alter_ne, lookup_alter_ne, lookup_alter_eq, Ht1 by done.
        done. }
      split; [done|]. split.
      { simpl. rewrite Hz1. destruct l; [done|done]. }
      split; [simpl; by rewrite last_snoc|].
      split; [simpl; rewrite HH1, length_app; simpl; lia|].
      split.
      { intros i y Hi.
        destruct (decide (i < length l)) as [Hlt|Hge].
        - rewrite lookup_app_l in Hi by done.
          assert (Hyl : y ∈ l) by (by eapply list_elem_of_lookup_2).
          assert (y ≠ this) by (by intros ->).
          assert (y ≠ c) by (by intros ->).
          rewrite lookup_alter_ne by done.
          destruct (decide (y = x)) as [->|Hyx].
          + rewrite lookup_alter_eq, lookup_alter_ne, lookup_alter_ne by done.
            assert (Hsome : is_Some (h1 !! x)).
            { specialize (Hpar1 x Hxl). destruct (h1 !! x); [by eexists|done]. }
            destruct Hsome as [ox Hox']. rewrite Hox'. simpl.
            rewrite last_lookup in Hlast.
            assert (i = pred (length l)) as -> by (by eapply NoDup_lookup).
            apply lookup_lt_Some in Hlast.
            rewrite list_lookup_middle; [done|lia].
          + rewrite !lookup_alter_ne by done. rewrite (Hchain1 i y Hi).
            assert (S i < length l).
            { destruct (decide (S i < length l)); [done|]. exfalso. apply Hyx.
              rewrite last_lookup in Hlast. replace (pred (length l)) with i in Hlast by lia.
              congruence. }
            by rewrite lookup_app_l.
        - assert (Hlen : i = length l).
          { apply lookup_lt_Some in Hi. rewrite length_app in Hi. simpl in Hi. lia. }
          subst i. rewrite list_lookup_middle in Hi by done. injection Hi as <-.
          rewrite lookup_alter_ne, lookup_alter_ne, lookup_alter_eq, lookup_alter_ne, Hc1 by done.
          simpl. rewrite Hox. symmetry. apply lookup_ge_None. rewrite length_app. simpl. lia. }
      split.
      { intros y Hy. apply elem_of_app in Hy as [Hy|Hy].
        - assert (y ≠ this) by (by intros ->).
          assert (y ≠ c) by (by intros ->).
          rewrite lookup_alter_ne by done.
          destruct (decide (y = x)) as [->|Hyx].
          + rewrite lookup_alter_eq, !lookup_alter_ne by done.
            specialize (Hpar1 x Hxl). destruct (h1 !! x); [|done]. simpl in *. done.
          + rewrite !lookup_alter_ne by done. by apply Hpar1.
        - apply list_elem_of_singleton in Hy as ->.
          rewrite lookup_alter_ne, lookup_alter_ne, lookup_alter_eq, lookup_alter_ne, Hc1 by done.
          done. }
      intros y Hyt Hy.
      assert (y ∉ l) by (intros Hin; apply Hy, elem_of_app; by left).
      assert (y ≠ c) by (intros ->; apply Hy, elem_of_app; right; by left).
      assert (y ≠ x) by (by intros ->).
      rewrite !lookup_alter_ne by done. by apply Hframe1.
    - apply last_None in Hlast. subst l. simpl in *. injection Hrun1 as ->.
      eexists _, (set_bI_ (Some c) (set_bz_ (Some c) (set_bH_ (bH_ t1 + 1)%Z t1))). split.
      { unfold bn_. rewrite Ht1, Hc1, HD1, HI1. reflexivity. }
      split.
      { rewrite lookup_alter_eq, lookup_alter_eq, lookup_alter_ne, lookup_alter_eq, Ht1 by done.
        done. }
      split; [done|]. split; [done|]. split; [done|].
      split; [simpl; rewrite HH1; lia|].
      split.
      { intros i y Hi. destruct i as [|i]; [|done]. injection Hi as <-.
        rewrite lookup_alter_ne, lookup_alter_ne, lookup_alter_eq, lookup_alter_ne, Hc1 by done.
        simpl. by rewrite Hox. }
      split.
      { intros y Hy. apply list_elem_of_singleton in Hy as ->.
        rewrite lookup_alter_ne, lookup_alter_ne, lookup_alter_eq, lookup_alter_ne, Hc1 by done.
        done. }
      intros y Hyt Hy.
      assert (y ≠ c) by (intros ->; apply Hy; by left).
      rewrite !lookup_alter_ne by done. apply Hframe1; [done|apply not_elem_of_nil]. }
  exists h'. split; [done|]. split.
  { intros fuel Hfuel. unfold VNode.childNodes. rewrite Ht'. simpl. rewrite Hz'.
    by apply siblings_chain. }
  split; [done|]. by rewrite Ht', <- HH'.
Qed.

(** The theorem at a new element and two new text nodes. *)
Lemma bn__children_in_order_witness :
  ∃ h',
    bn_each 0 [1; 2] two_texts_heap = Ok h'
    ∧ (∀ fuel : nat, (length [1; 2] ≤ fuel)%nat → VNode.childNodes fuel 0 h' = [1; 2])
    ∧ (∀ c, c ∈ [1; 2] → (VNode.bw_ <$> h' !! c) = Some (Some 0))
    ∧ (VNode.bH_ <$> h' !! 0) = Some (0 + Z.of_nat (length [1; 2]))%Z.
Proof.
  apply (bn__children_in_order two_texts_heap 0 (newVElement (Some 2%Z) false) [1; 2]).
  - reflexivity.
  - reflexivity.
  - reflexivity.
  - reflexivity.
  - compute_done.
  - intros c Hc. apply elem_of_cons in Hc as [->|Hc]; [by eexists|].
    apply list_elem_of_singleton in Hc as ->. by eexists.
Defined.

(** X23. A textarea keeps no children: after [bn_] was called with text nodes,
    one after the other, its text [bC_] is the text it had followed by the
    values of these nodes in their order, no child is linked below it, and
    the counter of appended children has grown by their number. *)
Theorem bn__textarea_accumulates (h : gmap nat VNode.obj) (this : nat) (t : VNode.obj)
    (children : list nat) :
  h !! this = Some t →
  VNode.bD_ t = true →
  (∀ c, c ∈ children → ∃ o, h !! c = Some o ∧ VNode.bJ_ o = true) →
  children ≠ [] →
  ∃ h',
    bn_each this children h = Ok h'
    ∧ (VNode.bC_ <$> h' !! this)
      = Some (Some (default "" (VNode.bC_ t) +:+ text_values children h))
    ∧ (VNode.bz_ <$> h' !! this) = Some (VNode.bz_ t)
    ∧ (VNode.bI_ <$> h' !! this) = Some (VNode.bI_ t)
    ∧ (VNode.bH_ <$> h' !! this) = Some (VNode.bH_ t + Z.of_nat (length children))%Z.
Proof.
  intros Ht HD Htext Hne.
  assert (∃ h' t', bn_each this children h = Ok h'
            ∧ h' !! this = Some t'
            ∧ VNode.bC_ t' = match children with
                             | [] => VNode.bC_ t
                             | _ => Some (default "" (VNode.bC_ t) +:+ text_values children h)
                             end
            ∧ VNode.bz_ t' = VNode.bz_ t ∧ VNode.bI_ t' = VNode.bI_ t
            ∧ VNode.bH_ t' = (VNode.bH_ t + Z.of_nat (length children))%Z)
    as (h' & t' & Hrun & Ht' & HC & Hz & HI & HH).
  { clear Hne. revert h t Ht HD Htext.
    induction children as [|c rest IH]; intros h t Ht HD Htext.
    { exists h, t. simpl. repeat split; try done. lia. }
    destruct (Htext c) as (o & Ho & HJ); [by left|].
    set (t1 := set_bC_ (Some (default "" (bC_ t) +:+ aH_ o)) (set_bH_ (bH_ t + 1)%Z t)).
    set (h1 := alter (λ o0, set_bC_ (Some (default "" (bC_ o0) +:+ aH_ o)) o0) this
                 (alter (λ o0, set_bH_ (bH_ o0 + 1)%Z o0) this h)).
    assert (Hbn : bn_ this c h = Ok (c, h1)).
    { unfold bn_. rewrite Ht, Ho, HD, HJ. reflexivity. }
    assert (Ht1 : h1 !! this = Some t1).
    { unfold h1. by rewrite !lookup_alter_eq, Ht. }
    assert (Hsame : ∀ x, aH_ <$> h1 !! x = aH_ <$> h !! x).
    { intros x. unfold h1. destruct (decide (x = this)) as [->|Hx].
      - by rewrite !lookup_alter_eq, Ht.
      - by rewrite !lookup_alter_ne. }
    assert (Hvalues : text_values rest h1 = text_values rest h).
    { unfold text_values. f_equal. clear -Hsame.
      induction rest as [|x r IHr]; [done|]. by rewrite !omap_cons, Hsame, IHr. }
    destruct (IH h1 t1 Ht1 HD) as (h2 & t2 & Hrun2 & Ht2 & HC2 & Hz2 & HI2 & HH2).
    { intros x Hx. destruct (Htext x) as (ox & Hox & HJx); [by right|].
      unfold h1. destruct (decide (x = this)) as [->|Hxt].
      - rewrite !lookup_alter_eq, Hox. simpl. by eexists.
      - rewrite !lookup_alter_ne by done. by eexists. }
    exists h2, t2. split; [simpl; by rewrite Hbn|]. split; [done|].
    split.
    { rewrite HC2, Hvalues. unfold text_values at 2. rewrite omap_cons, Ho.
      cbn [fmap option_fmap option_map foldr]. fold (text_values rest h).
      destruct rest as [|c' rest'].
      - unfold text_values. simpl. by rewrite append_nil_r.
      - simpl. by rewrite app_assoc_string. }
    split; [by rewrite Hz2|]. split; [by rewrite HI2|].
    rewrite HH2. simpl bH_. simpl length. lia. }
  exists h'. split; [done|]. rewrite Ht'. simpl. rewrite HC, Hz, HI, HH.
  by destruct children.
Qed.

(** The theorem at a new textarea and two new text nodes. *)
Lemma bn__textarea_accumulates_witness :
  ∃ h',
    bn_each 0 [1; 2] textarea_heap = Ok h'
    ∧ (VNode.bC_ <$> h' !! 0) = Some (Some (default "" None +:+ text_values [1; 2] textarea_heap))
    ∧ (VNode.bz_ <$> h' !! 0) = Some None
    ∧ (VNode.bI_ <$> h' !! 0) = Some None
    ∧ (VNode.bH_ <$> h' !! 0) = Some (0 + Z.of_nat (length [1; 2]))%Z.
Proof.
  apply (bn__textarea_accumulates textarea_heap 0 (newVElement (Some 2%Z) true) [1; 2]).
  - reflexivity.
  - reflexivity.
  - intros c Hc. apply elem_of_cons in Hc as [->|Hc]; [by eexists|].
    apply list_elem_of_singleton in Hc as ->. by eexists.
  - done.
Defined.

End VNodeChildren.

(** ** Listeners *)

Section EventEmitterFacts.
Import EventEmitter.

Lemma listeners_addListener ty type l prepend ee :
  listeners ty (addListener type l prepend ee)
  = if decide (ty = type)
    then (if prepend then l :: listeners ty ee else listeners ty ee ++ [l])
    else listeners ty ee.
Proof.
  unfold listeners, addListener. simpl. destruct (decide (ty = type)) as [->|Hne].
  - rewrite lookup_insert_eq. destruct (_e ee) as [events|]; simpl.
    + destruct (events !! type) as [[l'|ls]|]; by destruct prepend.
    + rewrite lookup_empty. by destruct prepend.
  - rewrite lookup_insert_ne by done. destruct (_e ee) as [events|]; simpl; [done|].
    by rewrite lookup_empty.
Qed.

Lemma listeners_removeListener ty type l ee :
  listeners ty (removeListener type l ee)
  = if decide (ty = type) then filter (λ x, same x l = false) (listeners ty ee)
    else listeners ty ee.
Proof.
  unfold listeners, removeListener. destruct (_e ee) as [events|] eqn:He; simpl.
  2:{ rewrite He. simpl. by destruct (decide (ty = type)). }
  destruct (events !! type) as [[l'|ls]|] eqn:Hs.
  - destruct (same l' l) eqn:Hsame; simpl.
    + destruct (decide (ty = type)) as [->|Hne].
      * rewrite lookup_delete_eq, Hs. rewrite filter_cons_False; [done|]. by rewrite Hsame.
      * by rewrite lookup_delete_ne.
    + rewrite He. simpl. destruct (decide (ty = type)) as [->|Hne]; [|done].
      rewrite Hs. by rewrite filter_cons_True.
  - simpl. destruct (decide (ty = type)) as [->|Hne].
    + by rewrite lookup_insert_eq, Hs.
    + by rewrite lookup_insert_ne.
  - rewrite He. simpl. destruct (decide (ty = type)) as [->|Hne]; [|done]. by rewrite Hs.
Qed.

Lemma removeListener_fields type l ee :
  nulled (removeListener type l ee) = nulled ee
  ∧ made (removeListener type l ee) = made ee
  ∧ calls (removeListener type l ee) = calls ee
  ∧ (is_Some (_e ee) → is_Some (_e (removeListener type l ee))).
Proof.
  unfold removeListener. destruct (_e ee) as [events|] eqn:He; [|by rewrite He].
  destruct (events !! type) as [[l'|ls]|]; [destruct (same l' l)|..]; simpl; rewrite ?He; eauto.
Qed.

Lemma listenerCount_listeners type ee : listenerCount type ee = length (listeners type ee).
Proof.
  unfold listenerCount, listeners. by destruct (_e ee ≫= _) as [[l|ls]|].
Qed.

Lemma elem_of_wrappers g ls : g ∈ wrappers ls ↔ ∃ ty f, G g ty f ∈ ls.
Proof.
  unfold wrappers. rewrite list_elem_of_omap. split.
  - intros ([f|g' ty f] & Hin & Hw); [done|]. injection Hw as ->. by exists ty, f.
  - intros (ty & f & Hin). by exists (G g ty f).
Qed.

Lemma wrappers_cons l ls :
  wrappers (l :: ls) = match wrapper l with Some g => g :: wrappers ls | None => wrappers ls end.
Proof. reflexivity. Qed.

Lemma filter_ext_elem {A} (P Q : A → Prop) `{∀ x, Decision (P x)} `{∀ x, Decision (Q x)}
    (l : list A) :
  (∀ x, x ∈ l → P x ↔ Q x) → filter P l = filter Q l.
Proof.
  induction l as [|x l IH]; intros Hext; [done|].
  rewrite !filter_cons. rewrite IH by (intros y Hy; apply Hext; by right).
  destruct (decide (P x)) as [HP|HP], (decide (Q x)) as [HQ|HQ]; try done.
  - exfalso. apply HQ, Hext; [by left|done].
  - exfalso. apply HP, Hext; [by left|done].
Qed.

Lemma filter_all {A} (P : A → Prop) `{∀ x, Decision (P x)} (l : list A) :
  (∀ x, x ∈ l → P x) → filter P l = l.
Proof.
  induction l as [|x l IH]; intros Hall; [done|].
  rewrite filter_cons_True by (apply Hall; by left). f_equal. apply IH. intros y Hy.
  apply Hall. by right.
Qed.

Lemma filter_kept_Fn ls : filter (λ x, kept (wrappers ls) x = true) ls = filter (λ x, is_Fn x = true) ls.
Proof.
  apply filter_ext_elem. intros [f|g ty f] Hin; simpl; [done|].
  split; [|done]. intros H. apply bool_decide_eq_true in H. exfalso. apply H.
  apply elem_of_wrappers. by exists ty, f.
Qed.

(** The loop of [emit] over the copy of the array. *)
Lemma invoke_each type args (todo : list listener) : ∀ ee,
  (∀ g ty f, G g ty f ∈ todo → ty = type ∧ g ∉ nulled ee) →
  NoDup (wrappers todo) →
  let ee' := foldl (λ ee l, invokeListener l args ee) ee todo in
  (∀ ty, listeners ty ee'
         = if decide (ty = type) then filter (λ x, kept (wrappers todo) x = true) (listeners ty ee)
           else listeners ty ee)
  ∧ calls ee' = calls ee ++ ((λ l, (target l, args)) <$> todo)
  ∧ made ee' = made ee
  ∧ nulled ee' = list_to_set (wrappers todo) ∪ nulled ee
  ∧ (is_Some (_e ee) → is_Some (_e ee')).
Proof.
  induction todo as [|l todo IH]; intros ee Hty Hnd; simpl.
  - split.
    { intros ty. destruct (decide (ty = type)); [|done]. symmetry. apply filter_all.
      by intros [f|g t0 f] _. }
    split; [by rewrite app_nil_r|]. split; [done|].
    split; [unfold wrappers; simpl; by rewrite (left_id_L ∅ (∪))|done].
  - destruct l as [f|g ty f].
    + destruct (IH (invokeListener (Fn f) args ee)) as (HL & Hcalls & Hmade & Hnulled & Hsome).
      { intros g ty f' Hin. apply (Hty g ty f'). by right. }
      { done. }
      split; [done|]. split; [by rewrite Hcalls; simpl; rewrite <- app_assoc|]. done.
    + destruct (Hty g ty f) as [-> Hg]; [by left|].
      rewrite wrappers_cons in Hnd. simpl in Hnd. apply NoDup_cons in Hnd as [Hgw Hnd].
      destruct (removeListener_fields type (G g type f) ee) as (Hn1 & Hm1 & Hc1 & Hs1).
      assert (Hinv : invokeListener (G g type f) args ee
                = Mk (_e (removeListener type (G g type f) ee))
                     ({[g]} ∪ nulled (removeListener type (G g type f) ee))
                     (made (removeListener type (G g type f) ee))
                     (calls (removeListener type (G g type f) ee) ++ [(f, args)])).
      { unfold invokeListener. rewrite decide_False; [done|by rewrite Hn1]. }
      rewrite Hinv. set (ee1 := Mk _ _ _ _).
      assert (HL1 : ∀ ty, listeners ty ee1
                = if decide (ty = type)
                  then filter (λ x, same x (G g type f) = false) (listeners ty ee)
                  else listeners ty ee).
      { intros ty. rewrite <- listeners_removeListener. done. }
      destruct (IH ee1) as (HL & Hcalls & Hmade & Hnulled & Hsome).
      { intros g' ty f' Hin. destruct (Hty g' ty f') as [-> Hg']; [by right|]. split; [done|].
        unfold ee1. simpl. rewrite Hn1. intros [Heq%elem_of_singleton|?]%elem_of_union; [|done].
        subst g'. apply Hgw. apply elem_of_wrappers. by exists type, f'. }
      { done. }
      split.
      { intros ty. rewrite HL, HL1. destruct (decide (ty = type)) as [->|Hne]; [|done].
        rewrite list_filter_filter. apply list_filter_iff. intros [f'|g' ty' f']; simpl.
        - tauto.
        - rewrite !bool_decide_eq_true, bool_decide_eq_false. rewrite not_elem_of_cons. tauto. }
      split.
      { rewrite Hcalls. unfold ee1. simpl. by rewrite Hc1, <- app_assoc. }
      split; [by rewrite Hmade|].
      split.
      { rewrite Hnulled. unfold ee1. simpl. rewrite Hn1.
        rewrite !(assoc_L (∪)). f_equal. apply (comm_L (∪)). }
      intros He. apply Hsome. unfold ee1. simpl. by apply Hs1.
Qed.

Lemma emit_listeners type args ee events :
  _e ee = Some events → is_Some (events !! type) →
  emit type args ee = Ok (Some true, foldl (λ ee l, invokeListener l args ee) ee (listeners type ee)).
Proof.
  intros He [sl Hs]. unfold emit, listeners. rewrite He. simpl. rewrite Hs. by destruct sl.
Qed.

Lemma listeners_removeAllListeners ty type ee :
  listeners ty (removeAllListeners type ee) = if decide (ty = type) then [] else listeners ty ee.
Proof.
  unfold listeners, removeAllListeners. destruct (_e ee) as [events|] eqn:He; simpl.
  - destruct (decide (ty = type)) as [->|Hne].
    + by rewrite lookup_delete_eq.
    + by rewrite lookup_delete_ne.
  - rewrite He. simpl. by destruct (decide (ty = type)).
Qed.

Lemma wrappers_app l1 l2 : wrappers (l1 ++ l2) = wrappers l1 ++ wrappers l2.
Proof.
  induction l1 as [|x l1 IH]; [done|]. rewrite <- app_comm_cons, !wrappers_cons, IH.
  by destruct (wrapper x).
Qed.

Lemma NoDup_wrappers_filter (P : listener → Prop) `{∀ x, Decision (P x)} ls :
  NoDup (wrappers ls) → NoDup (wrappers (filter P ls)).
Proof.
  induction ls as [|x ls IH]; intros Hnd; [done|]. rewrite wrappers_cons in Hnd.
  rewrite filter_cons. destruct (decide (P x)).
  - rewrite wrappers_cons. destruct (wrapper x) as [g|] eqn:Hw; [|by apply IH].
    apply NoDup_cons in Hnd as [Hg Hnd]. apply NoDup_cons. split; [|by apply IH].
    intros (ty & f & Hin)%elem_of_wrappers. apply Hg, elem_of_wrappers. exists ty, f.
    by apply list_elem_of_filter in Hin as [_ ?].
  - apply IH. destruct (wrapper x); [by apply NoDup_cons in Hnd as [_ ?]|done].
Qed.

Lemma wf_new : wf new.
Proof.
  split; [by eexists|]. split; [intros type g ty f Hin; by apply elem_of_nil in Hin|].
  split; [intros type; constructor|]. split.
  - intros type type' g Hin. by apply elem_of_nil in Hin.
  - intros g Hg. by apply not_elem_of_empty in Hg.
Qed.

(** Calls that only take listeners away. *)
Lemma wf_filter (p : string → listener → bool) ee ee' :
  wf ee →
  (is_Some (_e ee) → is_Some (_e ee')) →
  made ee' = made ee →
  (∀ ty, listeners ty ee' = filter (λ x, p ty x = true) (listeners ty ee)) →
  (∀ g, g ∈ nulled ee' →
        g ∈ nulled ee ∨ (g < made ee ∧ ∀ ty, g ∉ wrappers (listeners ty ee'))) →
  wf ee'.
Proof.
  intros (He & Hty & Hnd & Hcross & Hnull) He' Hmade HL Hnulled.
  split; [by apply He'|]. split.
  { intros type g ty f Hin.
    assert (Hin0 : G g ty f ∈ listeners type ee).
    { rewrite HL in Hin. by apply list_elem_of_filter in Hin as [_ ?]. }
    destruct (Hty type g ty f Hin0) as (-> & Hlt & Hn). split; [done|]. split; [by rewrite Hmade|].
    intros Hg. destruct (Hnulled g Hg) as [?|[_ Hout]]; [done|].
    apply (Hout type), elem_of_wrappers. by exists type, f. }
  split; [intros type; rewrite HL; by apply NoDup_wrappers_filter|].
  split.
  { intros type type' g (ty & f & Hin)%elem_of_wrappers (ty' & f' & Hin')%elem_of_wrappers.
    rewrite HL in Hin, Hin'. apply list_elem_of_filter in Hin as [_ Hin], Hin' as [_ Hin'].
    apply (Hcross type type' g); apply elem_of_wrappers; eauto. }
  intros g Hg. rewrite Hmade. destruct (Hnulled g Hg) as [?|[? _]]; [by apply Hnull|done].
Qed.

Lemma wf_addListener type f prepend ee : wf ee → wf (addListener type (Fn f) prepend ee).
Proof.
  intros (He & Hty & Hnd & Hcross & Hnull).
  assert (Hw : ∀ ty, wrappers (listeners ty (addListener type (Fn f) prepend ee))
                     = wrappers (listeners ty ee)).
  { intros ty. rewrite listeners_addListener. destruct (decide (ty = type)); [|done].
    destruct prepend; [done|]. rewrite wrappers_app. simpl. by rewrite app_nil_r. }
  split; [by eexists|]. split.
  { intros ty g ty' f' Hin. apply (Hty ty g ty' f').
    rewrite listeners_addListener in Hin. destruct (decide (ty = type)); [|done].
    destruct prepend.
    - by apply elem_of_cons in Hin as [?|?].
    - apply elem_of_app in Hin as [?|Hin]; [done|]. by apply list_elem_of_singleton in Hin. }
  split; [intros ty; by rewrite Hw|]. split; [|done].
  intros ty ty' g. rewrite !Hw. apply Hcross.
Qed.

Lemma wf_once type f ee : wf ee → wf (once type f ee).
Proof.
  intros (He & Hty & Hnd & Hcross & Hnull). unfold once.
  set (ee0 := Mk (_e ee) (nulled ee) (S (made ee)) (calls ee)).
  assert (HL : ∀ ty, listeners ty (addListener type (G (made ee) type f) false ee0)
                     = if decide (ty = type) then listeners ty ee ++ [G (made ee) type f]
                       else listeners ty ee).
  { intros ty. by rewrite listeners_addListener. }
  assert (Hfresh : ∀ ty, made ee ∉ wrappers (listeners ty ee)).
  { intros ty (ty' & f' & Hin)%elem_of_wrappers. destruct (Hty ty _ _ _ Hin) as (_ & Hlt & _). lia. }
  split; [by eexists|]. split.
  { intros ty g ty' f' Hin. rewrite HL in Hin. simpl.
    destruct (decide (ty = type)) as [->|Hne].
    - apply elem_of_app in Hin as [Hin|Hin].
      + destruct (Hty type g ty' f' Hin) as (-> & Hlt & Hn). split; [done|]. split; [lia|done].
      + apply list_elem_of_singleton in Hin. injection Hin as -> -> ->.
        split; [done|]. split; [lia|]. intros Hg. apply Hnull in Hg. lia.
    - destruct (Hty ty g ty' f' Hin) as (-> & Hlt & Hn). split; [done|]. split; [lia|done]. }
  split.
  { intros ty. rewrite HL. destruct (decide (ty = type)) as [->|Hne]; [|done].
    rewrite wrappers_app. simpl. apply NoDup_app. split; [done|].
    split; [|apply NoDup_singleton]. intros g Hg Hg'. apply list_elem_of_singleton in Hg' as ->.
    by apply (Hfresh type). }
  split.
  { intros ty ty' g. rewrite !HL.
    destruct (decide (ty = type)) as [->|Hne], (decide (ty' = type)) as [->|Hne']; try done.
    - rewrite wrappers_app. simpl. intros [Hg|Hg]%elem_of_app Hg'.
      + by apply (Hcross type ty' g).
      + apply list_elem_of_singleton in Hg as ->. by apply Hfresh in Hg'.
    - rewrite wrappers_app. simpl. intros Hg [Hg'|Hg']%elem_of_app.
      + by apply (Hcross ty type g).
      + apply list_elem_of_singleton in Hg' as ->. by apply Hfresh in Hg.
    - apply Hcross. }
  intros g Hg. simpl in *. apply Hnull in Hg. lia.
Qed.

Lemma wf_removeListener type l ee : wf ee → wf (removeListener type l ee).
Proof.
  intros Hwf. destruct (removeListener_fields type l ee) as (Hn & Hm & _ & Hs).
  apply (wf_filter (λ ty x, if decide (ty = type) then negb (same x l) else true) ee);
    try done.
  - intros ty. rewrite listeners_removeListener. destruct (decide (ty = type)).
    + apply filter_ext_elem. intros x _. by destruct (same x l).
    + symmetry. by apply filter_all.
  - intros g Hg. left. by rewrite <- Hn.
Qed.

Lemma wf_removeAllListeners type ee : wf ee → wf (removeAllListeners type ee).
Proof.
  intros Hwf.
  apply (wf_filter (λ ty x, bool_decide (ty ≠ type)) ee); try done.
  - unfold removeAllListeners. destruct (_e ee); [by eexists|done].
  - unfold removeAllListeners. by destruct (_e ee).
  - intros ty. rewrite listeners_removeAllListeners. destruct (decide (ty = type)) as [->|Hne].
    + induction (listeners type ee) as [|x l IH]; [done|].
      rewrite filter_cons_False; [done|]. rewrite bool_decide_eq_true. by intros H.
    + symmetry. apply filter_all. intros x _. by apply bool_decide_eq_true.
  - intros g Hg. left. unfold removeAllListeners in Hg. by destruct (_e ee).
Qed.

(** [emit] on an emitter that has an entry for the type. *)
Lemma emit_wf type args ee :
  wf ee → is_Some (_e ee ≫= λ events, events !! type) →
  ∃ ee',
    emit type args ee = Ok (Some true, ee')
    ∧ calls ee' = calls ee ++ ((λ l, (target l, args)) <$> listeners type ee)
    ∧ (∀ ty, listeners ty ee'
             = if decide (ty = type) then filter (λ l, is_Fn l = true) (listeners ty ee)
               else listeners ty ee)
    ∧ wf ee'.
Proof.
  intros Hwf Hslot. pose proof Hwf as (He & Hty & Hnd & Hcross & Hnull).
  destruct (_e ee) as [events|] eqn:Hev; [|by destruct Hslot]. simpl in Hslot.
  destruct (invoke_each type args (listeners type ee) ee)
    as (HL & Hcalls & Hmade & Hnulled & Hsome).
  { intros g ty f Hin. destruct (Hty type g ty f Hin) as (-> & _ & Hn). done. }
  { apply Hnd. }
  eexists. split; [by apply (emit_listeners type args ee events)|].
  split; [done|].
  assert (HL' : ∀ ty, listeners ty (foldl (λ ee l, invokeListener l args ee) ee (listeners type ee))
             = if decide (ty = type) then filter (λ l, is_Fn l = true) (listeners ty ee)
               else listeners ty ee).
  { intros ty. rewrite HL. destruct (decide (ty = type)) as [->|]; [|done]. apply filter_kept_Fn. }
  split; [done|].
  apply (wf_filter (λ ty x, if decide (ty = type) then is_Fn x else true) ee); try done.
  - intros ty. rewrite HL'. destruct (decide (ty = type)); [done|]. symmetry. by apply filter_all.
  - intros g. rewrite Hnulled. intros [Hg|Hg]%elem_of_union; [|by left]. right.
    apply elem_of_list_to_set in Hg. split.
    + apply elem_of_wrappers in Hg as (ty & f & Hin). by destruct (Hty type g ty f Hin) as (_ & ? & _).
    + intros ty. rewrite HL'. destruct (decide (ty = type)) as [->|Hne].
      * intros (ty' & f & Hin)%elem_of_wrappers. by apply list_elem_of_filter in Hin as [? _].
      * intros Hg'. apply Hne. by apply (Hcross ty type g).
Qed.

Lemma emit_wf_any type args ee r ee' : wf ee → emit type args ee = Ok (r, ee') → wf ee'.
Proof.
  intros Hwf Hemit.
  destruct (_e ee ≫= λ events, events !! type) as [sl|] eqn:Hslot.
  - destruct (emit_wf type args ee Hwf) as (ee1 & Hrun & _ & _ & Hwf1); [by rewrite Hslot|].
    rewrite Hrun in Hemit. by injection Hemit as _ <-.
  - unfold emit in Hemit. destruct (_e ee) as [events|]; simpl in Hslot.
    + rewrite Hslot in Hemit. destruct (decide (type = "error")); [done|]. by injection Hemit as _ <-.
    + by injection Hemit as _ <-.
Qed.

Lemma run_wf cs : ∀ ee ee', wf ee → run cs ee = Ok ee' → wf ee'.
Proof.
  induction cs as [|c cs IH]; intros ee ee' Hwf; simpl; [by intros [= <-]|].
  destruct (run_call c ee) as [ee1| |] eqn:Hcall; [|done..]. apply IH.
  destruct c as [type f|type f|type f|type f|type|type args]; simpl in Hcall.
  - injection Hcall as <-. by apply wf_addListener.
  - injection Hcall as <-. by apply wf_addListener.
  - injection Hcall as <-. by apply wf_once.
  - injection Hcall as <-. by apply wf_removeListener.
  - injection Hcall as <-. by apply wf_removeAllListeners.
  - destruct (emit type args ee) as [[r ee2]| |] eqn:Hemit; [|done..]. injection Hcall as <-.
    by apply (emit_wf_any type args ee r).
Qed.

Lemma listeners_register type regs : ∀ ee,
  listeners type (register type regs ee)
  = reverse (Fn <$> (filter (λ r, r.1 = true) regs).*2) ++ listeners type ee
    ++ (Fn <$> (filter (λ r, r.1 = false) regs).*2).
Proof.
  unfold register.
  induction regs as [|[prepend f] regs IH]; intros ee; simpl; [by rewrite app_nil_r|].
  rewrite IH, listeners_addListener, decide_True by done. destruct prepend.
  - rewrite filter_cons_True, filter_cons_False by done. simpl.
    rewrite reverse_cons, <- !app_assoc. done.
  - rewrite filter_cons_False, filter_cons_True by done. simpl. by rewrite <- !app_assoc.
Qed.

Lemma register_fields type regs : ∀ ee,
  calls (register type regs ee) = calls ee
  ∧ (regs ≠ [] ∨ is_Some (_e ee ≫= λ events, events !! type) →
     is_Some (_e (register type regs ee) ≫= λ events, events !! type)).
Proof.
  unfold register. induction regs as [|[prepend f] regs IH]; intros ee; simpl.
  - split; [done|]. by intros [?|?].
  - destruct (IH (addListener type (Fn f) prepend ee)) as [Hc Hs]. split; [done|].
    intros _. apply Hs. right. unfold addListener. simpl. rewrite lookup_insert_eq. by eexists.
Qed.

Lemma run_register type regs ee :
  run ((λ r : bool * nat, if r.1 then PrependListener type r.2 else On type r.2) <$> regs) ee
  = Ok (register type regs ee).
Proof.
  unfold register. revert ee. induction regs as [|[[] f] regs IH]; intros ee; simpl; [done|..];
    apply IH.
Qed.

Lemma run_app cs1 cs2 ee ee1 : run cs1 ee = Ok ee1 → run (cs1 ++ cs2) ee = run cs2 ee1.
Proof.
  revert ee. induction cs1 as [|c cs1 IH]; intros ee; simpl; [by intros [= ->]|].
  destruct (run_call c ee); [|done..]. apply IH.
Qed.

End EventEmitterFacts.


(** X24. [emit] calls the listeners of the type, each once, in their order and
    with the arguments of the call, and a listener registered with [once]
    is gone afterwards: on an emitter that has been used through its
    methods and has an entry for the type, [emit] answers [true]; the calls
    it makes are those of the functions behind the listeners of the type,
    in order; afterwards the listeners of the type are those that were
    registered with [on] or [prependListener], and the listeners of the
    other types are as before. *)
Theorem emit_calls_listeners (cs : list EventEmitter.call) (ee : EventEmitter.t)
    (type : string) (args : list jsval) :
  EventEmitter.run cs EventEmitter.new = Ok ee →
  is_Some (EventEmitter._e ee ≫= λ events, events !! type) →
  ∃ ee',
    EventEmitter.emit type args ee = Ok (Some true, ee')
    ∧ EventEmitter.calls ee'
      = EventEmitter.calls ee
        ++ ((λ l, (EventEmitter.target l, args)) <$> EventEmitter.listeners type ee)
    ∧ EventEmitter.listeners type ee'
      = filter (λ l, EventEmitter.is_Fn l = true) (EventEmitter.listeners type ee)
    ∧ (∀ ty, ty ≠ type → EventEmitter.listeners ty ee' = EventEmitter.listeners ty ee).
Proof.
  intros Hrun Hslot.
  assert (Hwf : EventEmitter.wf ee) by (by apply (run_wf cs EventEmitter.new ee wf_new)).
  destruct (emit_wf type args ee Hwf Hslot) as (ee' & Hemit & Hcalls & HL & _).
  exists ee'. split; [done|]. split; [done|]. split.
  - by rewrite HL, decide_True.
  - intros ty Hne. by rewrite HL, decide_False.
Qed.

(** The theorem after [on("a", 1)], [once("a", 2)] and [on("a", 3)]. *)
Lemma emit_calls_listeners_witness :
  ∃ ee ee',
    EventEmitter.run [EventEmitter.On "a" 1; EventEmitter.Once "a" 2; EventEmitter.On "a" 3]
      EventEmitter.new = Ok ee
    ∧ EventEmitter.emit "a" [JNum 7] ee = Ok (Some true, ee')
    ∧ EventEmitter.calls ee'
      = EventEmitter.calls ee
        ++ ((λ l, (EventEmitter.target l, [JNum 7])) <$> EventEmitter.listeners "a" ee)
    ∧ EventEmitter.listeners "a" ee'
      = filter (λ l, EventEmitter.is_Fn l = true) (EventEmitter.listeners "a" ee)
    ∧ (∀ ty, ty ≠ "a" → EventEmitter.listeners ty ee' = EventEmitter.listeners ty ee).
Proof.
  eexists.
  destruct (emit_calls_listeners
              [EventEmitter.On "a" 1; EventEmitter.Once "a" 2; EventEmitter.On "a" 3]
              _ "a" [JNum 7] eq_refl) as (ee' & H); [by eexists|].
  exists ee'. split; [reflexivity|]. exact H.
Defined.

(** X25. Listeners are called in the order of their registration, those of
    [prependListener] first and the last of them first: after a run of
    [on] and [prependListener] calls for a type, [emit] calls the functions
    prepended, in reverse, then the functions behind the listeners that
    were there, then the functions appended. *)
Theorem emit_registration_order (cs : list EventEmitter.call) (ee : EventEmitter.t)
    (type : string) (regs : list (bool * nat)) (args : list jsval) :
  EventEmitter.run cs EventEmitter.new = Ok ee →
  regs ≠ [] →
  ∃ ee',
    EventEmitter.emit type args (EventEmitter.register type regs ee) = Ok (Some true, ee')
    ∧ EventEmitter.calls ee'
      = EventEmitter.calls ee
        ++ ((λ f, (f, args)) <$>
              (reverse (filter (λ r, r.1 = true) regs).*2
               ++ (EventEmitter.target <$> EventEmitter.listeners type ee)
               ++ (filter (λ r, r.1 = false) regs).*2)).
Proof.
  intros Hrun Hregs.
  destruct (register_fields type regs ee) as [Hcalls Hslot].
  assert (Hwf : EventEmitter.wf (EventEmitter.register type regs ee)).
  { apply (run_wf (cs ++ ((λ r : bool * nat, if r.1 then EventEmitter.PrependListener type r.2
                                             else EventEmitter.On type r.2) <$> regs))
             EventEmitter.new _ wf_new).
    rewrite (run_app _ _ _ _ Hrun). apply run_register. }
  destruct (emit_wf type args _ Hwf) as (ee' & Hemit & Hcalls' & _); [apply Hslot; by left|].
  exists ee'. split; [done|]. rewrite Hcalls', Hcalls, listeners_register. f_equal.
  rewrite !fmap_app, !fmap_reverse, <- !list_fmap_compose. reflexivity.
Qed.

Lemma emit_registration_order_witness :
  ∃ ee',
    EventEmitter.emit "a" [JNum 7]
      (EventEmitter.register "a" [(false, 1); (true, 2); (true, 3); (false, 4)]
         (EventEmitter.once "a" 5 EventEmitter.new)) = Ok (Some true, ee')
    ∧ EventEmitter.calls ee'
      = EventEmitter.calls (EventEmitter.once "a" 5 EventEmitter.new)
        ++ ((λ f, (f, [JNum 7])) <$>
              (reverse (filter (λ r, r.1 = true) [(false, 1); (true, 2); (true, 3); (false, 4)]).*2
               ++ (EventEmitter.target
                     <$> EventEmitter.listeners "a" (EventEmitter.once "a" 5 EventEmitter.new))
               ++ (filter (λ r, r.1 = false) [(false, 1); (true, 2); (true, 3); (false, 4)]).*2)).
Proof.
  apply (emit_registration_order [EventEmitter.Once "a" 5]
           (EventEmitter.once "a" 5 EventEmitter.new) "a"
           [(false, 1); (true, 2); (true, 3); (false, 4)] [JNum 7]).
  - reflexivity.
  - done.
Defined.

(** X26. An emitter can answer [true] without a listener.  When the one
    listener of a type is removed, the entry of the type goes: [emit]
    answers [false], and throws for the type "error".  When two listeners
    were registered and both are removed, the emptied array stays: no
    listener is counted, and yet [emit] answers [true], also for "error",
    and calls nothing. *)
Theorem emit_without_listeners (ee : EventEmitter.t) (events : gmap string EventEmitter.slot)
    (type : string) (f1 f2 : nat) (args : list jsval) :
  EventEmitter._e ee = Some events → events !! type = None →
  let one := EventEmitter.removeListener type (EventEmitter.Fn f1) (EventEmitter.on type f1 ee) in
  let two := EventEmitter.removeListener type (EventEmitter.Fn f2)
               (EventEmitter.removeListener type (EventEmitter.Fn f1)
                  (EventEmitter.on type f2 (EventEmitter.on type f1 ee))) in
  EventEmitter.listenerCount type one = 0
  ∧ EventEmitter.emit type args one
    = (if decide (type = "error") then Throw "Error" else Ok (Some false, one))
  ∧ EventEmitter.listenerCount type two = 0
  ∧ EventEmitter.emit type args two = Ok (Some true, two).
Proof.
  intros He Hs one two.
  set (ee1 := EventEmitter.on type f1 ee).
  assert (He1 : EventEmitter._e ee1 = Some (<[type := EventEmitter.One (EventEmitter.Fn f1)]> events)).
  { unfold ee1, EventEmitter.on, EventEmitter.addListener. rewrite He. simpl. by rewrite Hs. }
  assert (Hone : EventEmitter._e one
                 = Some (delete type (<[type := EventEmitter.One (EventEmitter.Fn f1)]> events))).
  { unfold one. fold ee1. unfold EventEmitter.removeListener. rewrite He1, lookup_insert_eq.
    simpl. by rewrite bool_decide_eq_true_2. }
  set (ee2 := EventEmitter.on type f2 ee1).
  assert (He2 : ∃ events2, EventEmitter._e ee2
                 = Some (<[type := EventEmitter.Many [EventEmitter.Fn f1; EventEmitter.Fn f2]]>
                           events2)).
  { eexists. unfold ee2, EventEmitter.on, EventEmitter.addListener. rewrite He1. simpl.
    by rewrite lookup_insert_eq. }
  destruct He2 as [events2 He2].
  set (ee3 := EventEmitter.removeListener type (EventEmitter.Fn f1) ee2).
  assert (He3 : ∃ events3, EventEmitter._e ee3
                 = Some (<[type := EventEmitter.Many
                                     (filter (λ x, EventEmitter.same x (EventEmitter.Fn f1) = false)
                                        [EventEmitter.Fn f1; EventEmitter.Fn f2])]> events3)).
  { eexists. unfold ee3, EventEmitter.removeListener. rewrite He2, lookup_insert_eq. done. }
  destruct He3 as [events3 He3].
  assert (Hnil : filter (λ x, EventEmitter.same x (EventEmitter.Fn f2) = false)
                   (filter (λ x, EventEmitter.same x (EventEmitter.Fn f1) = false)
                      [EventEmitter.Fn f1; EventEmitter.Fn f2]) = []).
  { rewrite filter_cons_False by (simpl; by rewrite bool_decide_eq_true_2).
    destruct (decide (f2 = f1)) as [->|Hne].
    - by rewrite filter_cons_False by (simpl; by rewrite bool_decide_eq_true_2).
    - rewrite filter_cons_True by (simpl; by rewrite bool_decide_eq_false_2).
      by rewrite filter_cons_False by (simpl; by rewrite bool_decide_eq_true_2). }
  assert (Htwo : ∃ events4, EventEmitter._e two = Some (<[type := EventEmitter.Many []]> events4)).
  { eexists. unfold two. fold ee1 ee2 ee3. unfold EventEmitter.removeListener.
    rewrite He3, lookup_insert_eq. simpl. by rewrite Hnil. }
  destruct Htwo as [events4 Htwo].
  unfold EventEmitter.listenerCount, EventEmitter.emit. rewrite Hone, Htwo. simpl.
  by rewrite lookup_delete_eq, lookup_insert_eq.
Qed.

Lemma emit_without_listeners_witness :
  let one := EventEmitter.removeListener "error" (EventEmitter.Fn 1)
               (EventEmitter.on "error" 1 EventEmitter.new) in
  let two := EventEmitter.removeListener "error" (EventEmitter.Fn 2)
               (EventEmitter.removeListener "error" (EventEmitter.Fn 1)
                  (EventEmitter.on "error" 2 (EventEmitter.on "error" 1 EventEmitter.new))) in
  EventEmitter.listenerCount "error" one = 0
  ∧ EventEmitter.emit "error" [JStr "x"] one
    = (if decide ("error" = "error") then Throw "Error" else Ok (Some false, one))
  ∧ EventEmitter.listenerCount "error" two = 0
  ∧ EventEmitter.emit "error" [JStr "x"] two = Ok (Some true, two).
Proof.
  apply (emit_without_listeners EventEmitter.new ∅ "error" 1 2 [JStr "x"]); reflexivity.
Defined.
